(** * CONGA (Cluster-Overlap Newman Girvan Algorithm), circulo/algorithms/CONGA.py

    A shallow embedding of the divisive decomposition engine and the
    properties its specification states about it.

    Conventions of the embedding.
    - Vertices and edges are igraph indices, hence [nat].
    - Betweenness scores are igraph floats; they are embedded as exact
      rationals [Q].  Pair-betweenness counters and the cells of the
      clique matrix only ever hold integral values, hence [Z].
    - A Python exception is a value of [exn]; fallible code lives in the
      [result] monad.
    - Python dictionaries whose iteration order is observable are ordered
      association lists ([odict]); the others are [gmap]s. *)

From Stdlib Require Import ZArith QArith Lia.
From stdpp Require Import gmap strings list fin_maps relations.

Close Scope Q_scope.
Open Scope nat_scope.

(** ** Exceptions and the result monad *)

Inductive exn : Type :=
| IndexError
| KeyError
| ValueError
| TypeError
| UnboundLocalError
| InternalError   (* an error reported by igraph *)
| OutOfFuel.      (* a loop bound of the model ran out: not a Python exception *)

Inductive result (A : Type) : Type :=
| Ok (a : A)
| Raise (e : exn).
Arguments Ok {A} a.
Arguments Raise {A} e.

Definition rbind {A B} (m : result A) (k : A → result B) : result B :=
  match m with
  | Ok a => k a
  | Raise e => Raise e
  end.

Notation "'let*' x := m 'in' k" := (rbind m (λ x, k))
  (at level 10, x pattern, m at level 100, k at level 200).

Definition of_option {A} (e : exn) (o : option A) : result A :=
  match o with
  | Some a => Ok a
  | None => Raise e
  end.

Definition is_ok {A} (r : result A) : Prop := ∃ a, r = Ok a.

(** ** Ordered dictionaries (insertion order is kept, as in Python) *)

Abbreviation odict K V := (list (K * V)).

Section odict.
Context {K V : Type} `{EqDecision K}.

Fixpoint odict_get (k : K) (d : odict K V) : option V :=
  match d with
  | [] => None
  | (k', v) :: d' => if decide (k = k') then Some v else odict_get k d'
  end.

(** [d[k] = v]: an existing key keeps its position. *)
Fixpoint odict_set (k : K) (v : V) (d : odict K V) : odict K V :=
  match d with
  | [] => [(k, v)]
  | (k', v') :: d' =>
      if decide (k = k') then (k, v) :: d' else (k', v') :: odict_set k v d'
  end.

Definition odict_keys (d : odict K V) : list K := d.*1.
Definition odict_values (d : odict K V) : list V := d.*2.
End odict.

(** ** The graph model (igraph.Graph, undirected) *)

(** Modelled from the spec: the Graph Model of section 3 and 4.1, i.e. the
    part of [igraph.Graph] the algorithm touches: a vertex count, a list
    of edges addressed by position, and per-vertex attribute columns (a
    freshly added vertex holds [None] in every column). *)
Record Graph : Type := mkGraph {
  vcount : nat;
  es : list (nat * nat);
  vattrs : gmap string (list (option nat));
}.

Definition CONGA_orig : string := "CONGA_orig".

(** An edge joins [u] and [v], whichever way it is stored. *)
Definition joins (u v : nat) (e : nat * nat) : bool :=
  (bool_decide (e.1 = u) && bool_decide (e.2 = v))
  || (bool_decide (e.1 = v) && bool_decide (e.2 = u)).

(** How often [u] shows up in the adjacency list of [v]: once per
    parallel edge, twice per loop. *)
Definition adj_count (G : Graph) (v u : nat) : nat :=
  sum_list ((λ e : nat * nat,
               (if bool_decide (e.1 = v ∧ e.2 = u) then 1 else 0)
               + (if bool_decide (e.2 = v ∧ e.1 = u) then 1 else 0)) <$> es G).

(** Modelled from the spec: [G.neighbors(v)], the adjacent vertices in
    increasing index order, with multiplicity. *)
Definition neighbors (G : Graph) (v : nat) : list nat :=
  flat_map (λ u, replicate (adj_count G v u) u) (seq 0 (vcount G)).

(** *** All shortest paths, breadth first *)

(** Paths are kept reversed while they grow: the head is the vertex
    reached last. *)
Definition extend (G : Graph) (visited : list nat) (p : list nat)
  : list (list nat) :=
  match p with
  | [] => []
  | x :: _ =>
      (λ w, w :: p) <$> filter (λ w, w ∉ visited) (neighbors G x)
  end.

Definition heads (ps : list (list nat)) : list nat :=
  omap head ps.

Fixpoint bfs_layers (G : Graph) (fuel : nat) (visited : list nat)
    (frontier : list (list nat)) : list (list nat) :=
  match fuel with
  | 0 => []
  | S fuel' =>
      match frontier with
      | [] => []
      | _ =>
          let next := flat_map (extend G visited) frontier in
          frontier ++ bfs_layers G fuel' (visited ++ heads next) next
      end
  end.

(** Modelled from the spec: [G.get_all_shortest_paths(s)], every
    minimum-length path from [s] to every reachable vertex ([s] itself
    included, by the one-vertex path). *)
Definition get_all_shortest_paths (G : Graph) (s : nat) : list (list nat) :=
  if bool_decide (s < vcount G)
  then reverse <$> bfs_layers G (vcount G) [s] [[s]]
  else [].

(** *** Betweenness *)

Definition Qsum (l : list Q) : Q := foldr Qplus 0%Q l.

Definition paths_to (t : nat) (ps : list (list nat)) : list (list nat) :=
  filter (λ p, last p = Some t) ps.

(** The vertices strictly inside a path. *)
Definition interior (p : list nat) : list nat := removelast (tail p).

(** Does the path take a step between [a] and [b] (in either direction)? *)
Fixpoint has_step (a b : nat) (p : list nat) : bool :=
  match p with
  | x :: (y :: _) as p' => joins a b (x, y) || has_step a b p'
  | _ => false
  end.

Definition count_if {A} (f : A → bool) (l : list A) : nat :=
  length (filter (λ x, f x = true) l).

Definition Qnat (n : nat) : Q := inject_Z (Z.of_nat n).

(** The share of the shortest [s]-[t] paths selected by [f]. *)
Definition path_share (f : list nat → bool) (ps : list (list nat)) (t : nat) : Q :=
  let pst := paths_to t ps in
  (Qnat (count_if f pst) / Qnat (length pst))%Q.

(** The shortest paths from every vertex, in vertex order. *)
Definition shortest_paths_table (G : Graph) : list (list (list nat)) :=
  get_all_shortest_paths G <$> seq 0 (vcount G).

(** Sum over the unordered vertex pairs [s < t]; [f] tells which of the
    shortest [s]-[t] paths count. *)
Definition pair_sum (table : list (list (list nat))) (f : list nat → bool) : Q :=
  Qsum (imap (λ s ps,
                Qsum ((λ t, if bool_decide (s < t) then path_share f ps t else 0%Q)
                        <$> seq 0 (length table)))
             table).

(** Modelled from the spec: [G.betweenness()], for every vertex the
    fraction of shortest paths between the other vertex pairs that pass
    through it. *)
Definition betweenness (G : Graph) : list Q :=
  let table := shortest_paths_table G in
  (λ v, pair_sum table (λ p, bool_decide (v ∈ interior p)))
    <$> seq 0 (vcount G).

(** Modelled from the spec: [G.edge_betweenness()], for every edge the
    fraction of shortest paths that traverse it; parallel edges share the
    paths that step between their endpoints. *)
Definition edge_betweenness (G : Graph) : list Q :=
  let table := shortest_paths_table G in
  (λ e : nat * nat,
     (pair_sum table (has_step e.1 e.2)
      / Qnat (count_if (joins e.1 e.2) (es G)))%Q)
    <$> es G.

(** *** Connectivity *)

(** The vertices reachable from [s]. *)
Definition reachable_from (G : Graph) (s : nat) : list nat :=
  omap last (get_all_shortest_paths G s).

(** Modelled from the spec: [G.edge_disjoint_paths(source, target)] is
    only ever tested for being zero, which is the case exactly when
    [target] cannot be reached from [source]; igraph rejects a request
    whose source and target coincide. *)
Definition edge_disjoint_paths_is_zero (G : Graph) (s t : nat) : result bool :=
  if bool_decide (s = t) then Raise InternalError
  else if bool_decide (s < vcount G ∧ t < vcount G)
       then Ok (bool_decide (t ∉ reachable_from G s))
       else Raise InternalError.

(** Modelled from the spec: [G.components()], the connected components
    in the order of their smallest vertex. *)
Definition components (G : Graph) : list (list nat) :=
  foldl (λ acc v,
           if bool_decide (Exists (λ c, v ∈ c) acc) then acc
           else acc ++ [reachable_from G v])
        [] (seq 0 (vcount G)).

(** [G.components().membership]: for every vertex the index of its
    component. *)
Definition membership (G : Graph) : list nat :=
  let cs := components G in
  (λ v, default 0 (fst <$> list_find (λ c, v ∈ c) cs)) <$> seq 0 (vcount G).

(** *** Mutation *)

(** Modelled from the spec: [G.delete_edges((u, v))] removes one edge
    instance between [u] and [v] and fails if there is none. *)
Definition delete_edges (G : Graph) (e : nat * nat) : result Graph :=
  match list_find (λ e', joins e.1 e.2 e' = true) (es G) with
  | Some (i, _) => Ok (mkGraph (vcount G) (delete i (es G)) (vattrs G))
  | None => Raise InternalError
  end.

Definition add_vertex (G : Graph) : Graph :=
  mkGraph (S (vcount G)) (es G) ((λ col, col ++ [None]) <$> vattrs G).

Definition add_edge (G : Graph) (u v : nat) : result Graph :=
  if bool_decide (u < vcount G ∧ v < vcount G)
  then Ok (mkGraph (vcount G) (es G ++ [(u, v)]) (vattrs G))
  else Raise InternalError.

(** [G.vs[i][name]] *)
Definition get_vattr (G : Graph) (name : string) (i : nat) : result (option nat) :=
  let* col := of_option KeyError (vattrs G !! name) in
  of_option IndexError (col !! i).

(** [G.vs[i][name] = x]; a column that does not exist yet is created. *)
Definition set_vattr (G : Graph) (name : string) (i : nat) (x : option nat)
  : result Graph :=
  if bool_decide (i < vcount G)
  then
    let col := default (replicate (vcount G) None) (vattrs G !! name) in
    Ok (mkGraph (vcount G) (es G) (<[name := <[i := x]> col]> (vattrs G)))
  else Raise IndexError.

(** [G.vs[name] = values] *)
Definition set_vattr_column (G : Graph) (name : string) (col : list (option nat))
  : result Graph :=
  if bool_decide (length col = vcount G)
  then Ok (mkGraph (vcount G) (es G) (<[name := col]> (vattrs G)))
  else Raise ValueError.

(** ** Folding in the result monad *)

Fixpoint rfoldl {A B} (f : A → B → result A) (a : A) (l : list B) : result A :=
  match l with
  | [] => Ok a
  | b :: l' => let* a' := f a b in rfoldl f a' l'
  end.

(** ** Pair betweenness *)

Definition enumerate {A} (l : list A) : list (nat * A) := imap pair l.

(** [itertools.permutations(l, 2)]: the ordered pairs of elements at
    distinct positions. *)
Definition permutations2 {A} (l : list A) : list (A * A) :=
  ix ← enumerate l;
  jy ← enumerate l;
  if bool_decide (ix.1 = jy.1) then [] else [(ix.2, jy.2)].

Abbreviation pb_table := (gmap (nat * nat) Z).
Abbreviation pb_dict := (odict nat (gmap (nat * nat) Z)).

(** [{uw : 0 for uw in itertools.permutations(G.neighbors(vertex), 2)}] *)
Definition pb_seed (G : Graph) (vertex : nat) : pb_table :=
  foldl (λ d uw, <[uw := 0%Z]> d) ∅ (permutations2 (neighbors G vertex)).

Definition pb_init (G : Graph) (arr : list nat) : pb_dict :=
  foldl (λ d vertex, odict_set vertex (pb_seed G vertex) d) [] arr.

(** [d[k] += 2] *)
Definition incr2 (k : nat * nat) (d : pb_table) : result pb_table :=
  let* c := of_option KeyError (d !! k) in
  Ok (<[k := (c + 2)%Z]> d).

(** The body of the [while back <= n] loop for the triple [(u, v, w)]. *)
Definition count_triplet (u v w : nat) (dic : pb_dict) : result pb_dict :=
  match odict_get v dic with
  | None => Ok dic
  | Some d =>
      let* d1 := incr2 (u, w) d in
      let* d2 := incr2 (w, u) d1 in
      Ok (odict_set v d2 dic)
  end.

(** The [while back <= n] loop: every sub-list of length 3, front to
    back. *)
Fixpoint count_triplets (path : list nat) (dic : pb_dict) : result pb_dict :=
  match path with
  | u :: ((v :: w :: _) as path') =>
      let* dic' := count_triplet u v w dic in
      count_triplets path' dic'
  | _ => Ok dic
  end.

(** [allPairsShortestPaths], after the [for vertex in G.vs] loop. *)
Definition all_pairs_shortest_paths (G : Graph) : list (list nat) :=
  concat (shortest_paths_table G).

(** One turn of [for path in allPairsShortestPaths]. *)
Definition pb_visit (st : pb_dict * gset (nat * nat)) (path : list nat)
  : result (pb_dict * gset (nat * nat)) :=
  let* first := of_option IndexError (head path) in
  let* final := of_option IndexError (last path) in
  if bool_decide ((first, final) ∈ st.2) then Ok st
  else
    let* dic' := count_triplets path st.1 in
    Ok (dic', {[ (final, first) ]} ∪ st.2).

Definition pair_betweenness (G : Graph) (arr : list nat) : result pb_dict :=
  let* st := rfoldl pb_visit (pb_init G arr, ∅) (all_pairs_shortest_paths G) in
  Ok st.1.

(** ** The clique matrix (numpy) *)

Abbreviation matrix := (list (list Z)).

Definition zeros (n m : nat) : matrix := replicate n (replicate m 0%Z).

Definition nrows (M : matrix) : nat := length M.
Definition ncols (M : matrix) : nat := from_option length 0 (head M).

(** [M.size] *)
Definition mat_size (M : matrix) : nat := nrows M * ncols M.

(** [M[i, j]] *)
Definition mat_get (M : matrix) (i j : nat) : result Z :=
  of_option IndexError (M !! i ≫= (.!! j)).

(** [M[i, j] = x] *)
Definition mat_set (M : matrix) (i j : nat) (x : Z) : result matrix :=
  match M !! i with
  | Some row =>
      if bool_decide (j < length row) then Ok (<[i := <[j := x]> row]> M)
      else Raise IndexError
  | None => Raise IndexError
  end.

(** [np.fill_diagonal(M, x)] *)
Definition fill_diagonal {A} (M : list (list A)) (x : A) : list (list A) :=
  imap (λ i row, <[i := x]> row) M.

(** A float cell: an integral value or [float('inf')]. *)
Inductive cell : Type :=
| Fin (z : Z)
| Inf.

Definition cell_ltb (x y : cell) : bool :=
  match x, y with
  | Fin a, Fin b => bool_decide (a < b)%Z
  | Fin _, Inf => true
  | Inf, _ => false
  end.

(** [argmin] of a flat array: the first position of the least value. *)
Fixpoint argmin_from (best_i : nat) (best : cell) (i : nat) (l : list cell) : nat :=
  match l with
  | [] => best_i
  | x :: l' =>
      if cell_ltb x best then argmin_from i x (S i) l'
      else argmin_from best_i best (S i) l'
  end.

Definition argmin (l : list cell) : result nat :=
  match l with
  | [] => Raise ValueError
  | x :: l' => Ok (argmin_from 0 x 1 l')
  end.

(** [np.unravel_index(k, (_, cols))] *)
Definition unravel_index (k cols : nat) : nat * nat := (k / cols, k `mod` cols).

(** [mat_min]: returns the indices; the matrix is handed back with the
    diagonal it is left with. *)
Definition mat_min (M : matrix) : result (nat * nat * matrix) :=
  let masked := fill_diagonal ((λ row : list Z, Fin <$> row) <$> M) Inf in
  let* k := argmin (concat masked) in
  let '(i, j) := unravel_index k (ncols M) in
  Ok (i, j, fill_diagonal M 0%Z).

(** [np.triu_indices(n, 1)] *)
Definition triu_indices (n : nat) : list (nat * nat) :=
  i ← seq 0 n; (λ j, (i, j)) <$> seq (S i) (n - S i).

(** The [while minDex >= triN] loop of [matrix_min]. *)
Fixpoint matrix_min_loop (fuel : nat) (minDex triN row : nat)
  : result (nat * nat * nat) :=
  if bool_decide (triN ≤ minDex) then
    match fuel with
    | 0 => Raise OutOfFuel
    | S fuel' =>
        if bool_decide (triN = 0) then Raise OutOfFuel
        else matrix_min_loop fuel' (minDex - triN) (triN - 1) (S row)
    end
  else Ok (minDex, triN, row).

Definition matrix_min (mat : matrix) : result (nat * nat) :=
  let n := nrows mat in
  let* upper := rfoldl (λ acc ij, let* x := mat_get mat ij.1 ij.2 in Ok (acc ++ [Fin x]))
                  [] (triu_indices n) in
  let* minDex := argmin upper in
  let* (minDex, triN, row) := matrix_min_loop n minDex (n - 1) 0 in
  Ok (row, n - triN + minDex).

(** [np.delete(M, j, axis=0)] *)
Definition delete_row (M : matrix) (j : nat) : result matrix :=
  if bool_decide (j < nrows M) then Ok (delete j M) else Raise IndexError.

(** [np.delete(M, j, axis=1)] *)
Definition delete_col (M : matrix) (j : nat) : result matrix :=
  if bool_decide (j < ncols M) then Ok (delete j <$> M) else Raise IndexError.

(** [M[i,:] = M[j,:] + M[i,:]] *)
Definition add_row_into (M : matrix) (i j : nat) : result matrix :=
  let* ri := of_option IndexError (M !! i) in
  let* rj := of_option IndexError (M !! j) in
  Ok (<[i := zip_with Z.add rj ri]> M).

(** [M[:,i] = M[:,j] + M[:,i]] *)
Definition add_col_into (M : matrix) (i j : nat) : result matrix :=
  if bool_decide (i < ncols M ∧ j < ncols M)
  then Ok ((λ row, <[i := (row !!! j + row !!! i)%Z]> row) <$> M)
  else Raise IndexError.

(** The body of [reduce_matrix] below the choice of [(i, j)]. *)
Definition merge_at (i j : nat) (M : matrix) : result (nat * nat * matrix) :=
  let* M := add_row_into M i j in
  let* M := delete_row M j in
  let* M := add_col_into M i j in
  let* M := delete_col M j in
  Ok (i, j, fill_diagonal M 0%Z).

Definition reduce_matrix (M : matrix) : result (nat * nat * matrix) :=
  let* (i, j, M) := mat_min M in
  merge_at i j M.

(** [reduce_matrix] with its first line swapped for the one the source
    keeps in a comment, [i, j = matrix_min(M)]. *)
Definition reduce_matrix_upper (M : matrix) : result (nat * nat * matrix) :=
  let* (i, j) := matrix_min M in
  merge_at i j M.

(** ** The optimal split *)

(** [{neigh : i for i, neigh in enumerate(neighbors)}] *)
Definition index_mapping (nbrs : list nat) : gmap nat nat :=
  foldl (λ m ix, <[ix.2 := ix.1]> m) ∅ (enumerate nbrs).

Definition create_clique (G : Graph) (v : nat) (pb : pb_table) : result matrix :=
  let nbrs := neighbors G v in
  let mapping := index_mapping nbrs in
  let n := length nbrs in
  let* clique :=
    map_fold (λ uw score acc,
                let* clique := acc in
                let* i := of_option KeyError (mapping !! uw.1) in
                let* j := of_option KeyError (mapping !! uw.2) in
                mat_set clique i j score)
             (Ok (zeros n n)) pb in
  Ok (fill_diagonal clique 0%Z).

(** [vMap[i] += vMap.pop(j)].  Python loads [vMap[i]], pops index [j],
    extends the loaded list in place (it may have moved down by one, or
    be the popped one) and then stores it at index [i] of the shortened
    list. *)
Definition iadd_pop (vMap : list (list nat)) (i j : nat) : result (list (list nat)) :=
  let* gi := of_option IndexError (vMap !! i) in
  let* gj := of_option IndexError (vMap !! j) in
  let popped := delete j vMap in
  let merged := gi ++ gj in
  let in_place :=
    if bool_decide (i < j) then <[i := merged]> popped
    else if bool_decide (j < i) then <[i - 1 := merged]> popped
    else popped in
  if bool_decide (i < length in_place) then Ok (<[i := merged]> in_place)
  else Raise IndexError.

(** The [while clique.size > 4] loop. *)
Fixpoint collapse (fuel : nat) (clique : matrix) (vMap : list (list nat))
  : result (matrix * list (list nat)) :=
  if bool_decide (4 < mat_size clique) then
    match fuel with
    | 0 => Raise OutOfFuel
    | S fuel' =>
        let* (i, j, clique') := reduce_matrix clique in
        let* vMap' := iadd_pop vMap i j in
        collapse fuel' clique' vMap'
    end
  else Ok (clique, vMap).

(** The greedy collapse for one vertex: the surviving matrix and the
    groups of neighbours. *)
Definition split_of (G : Graph) (v : nat) (pb : pb_table)
  : result (matrix * list (list nat)) :=
  let* clique := create_clique G v pb in
  let vMap := (λ ve, [ve]) <$> neighbors G v in
  collapse (nrows clique) clique vMap.

(** The locals of [max_split_betweenness]: [vMax], and [vNum] and [vSpl]
    once they are bound. *)
Definition msb_state : Type := Z * option (nat * list (list nat)).

(** One turn of [for v in dic]. *)
Definition msb_visit (G : Graph) (st : msb_state) (entry : nat * pb_table)
  : result msb_state :=
  let* (clique, vMap) := split_of G entry.1 entry.2 in
  let* score := mat_get clique 0 1 in
  if bool_decide (st.1 < score)%Z then Ok (score, Some (entry.1, vMap))
  else Ok st.

Definition max_split_betweenness (G : Graph) (dic : pb_dict)
  : result (Z * nat * list (list nat)) :=
  let* st := rfoldl (msb_visit G) (0%Z, None) dic in
  match st.2 with
  | Some (vNum, vSpl) => Ok (st.1, vNum, vSpl)
  | None => Raise UnboundLocalError
  end.

(** ** One decomposition step *)

Definition check_for_split (G : Graph) (edge : nat * nat) : result bool :=
  edge_disjoint_paths_is_zero G edge.1 edge.2.

Definition delete_edge (G : Graph) (edge : nat * nat) : result (bool * Graph) :=
  let* G := delete_edges G edge in
  let* split := check_for_split G edge in
  Ok (split, G).

(** One turn of [for partner in splitInstructions]. *)
Definition move_edge (v new_index : nat) (G : Graph) (partner : nat) : result Graph :=
  let* G := add_edge G new_index partner in
  delete_edges G (v, partner).

Definition split_vertex (G : Graph) (v : nat) (splitInstructions : list nat)
  : result (bool * Graph) :=
  let new_index := vcount G in
  let G := add_vertex G in
  let* orig := get_vattr G CONGA_orig v in
  let* G := set_vattr G CONGA_orig new_index orig in
  let* G := rfoldl (move_edge v new_index) G splitInstructions in
  let* split := check_for_split G (v, new_index) in
  Ok (split, G).

Definition Qltb (x y : Q) : bool := negb (Qle_bool y x).

(** [max(enumerate(l), key=operator.itemgetter(1))]: the first of the
    greatest. *)
Definition max_enumerate (l : list Q) : result (nat * Q) :=
  match enumerate l with
  | [] => Raise ValueError
  | x :: l' => Ok (foldl (λ best y, if Qltb best.2 y.2 then y else best) x l')
  end.

(** [[i for i, b in enumerate(vb) if b >= maxEb]] *)
Definition candidates (vb : list Q) (maxEb : Q) : list nat :=
  fst <$> filter (λ ib : nat * Q, Qle_bool maxEb ib.2 = true) (enumerate vb).

Definition remove_edge_or_split_vertex (G : Graph) : result (bool * Graph) :=
  let eb := edge_betweenness G in
  let* (maxIndex, maxEb) := max_enumerate eb in
  let vb := betweenness G in
  let vi := candidates vb maxEb in
  let* edge := of_option IndexError (es G !! maxIndex) in
  match vi with
  | [] => delete_edge G edge
  | _ =>
      let* pb := pair_betweenness G vi in
      let* (maxSplit, vNum, splitInstructions) := max_split_betweenness G pb in
      if Qltb maxEb (inject_Z maxSplit) then
        let* group := of_option IndexError (splitInstructions !! 0) in
        split_vertex G vNum group
      else delete_edge G edge
  end.

(** ** Covers *)

Abbreviation cover := (list (list nat)).

(** Modelled from the spec: [ig.VertexCover(OG)] without clusters is the
    cover made of a single cluster holding every vertex. *)
Definition VertexCover_default (OG : Graph) : cover := [seq 0 (vcount OG)].

Definition get_cover (G : Graph) (comm : list nat) : result cover :=
  let* coverDict :=
    rfoldl (λ (d : odict nat (list nat)) (ic : nat * nat),
              let* o := get_vattr G CONGA_orig ic.1 in
              let* orig := of_option TypeError o in
              Ok (odict_set ic.2 (default [] (odict_get ic.2 d) ++ [orig]) d))
           [] (enumerate comm) in
  Ok (odict_values coverDict).

(** ** The driver *)

(** Graph objects live in a store; the caller's graph and the working
    copy are two references into it. *)
Abbreviation loc := nat.
Abbreviation store := (gmap nat Graph).

Section driver.
(** [G.modularity(membership)] is igraph's; none of the properties
    below depends on the value it returns. *)
Context {modularity_value : Type}.
Variable modularity : Graph → list nat → modularity_value.

(** Modelled from the spec: what [overlap.CrispOverlap] is handed. *)
Record CrispOverlap : Type := mkCrispOverlap {
  co_graph : loc;
  co_covers : gmap nat cover;
  co_modularities : option (gmap nat modularity_value);
  co_modularity_measure : string;
  co_optimal_count : option nat;
}.

(** The locals of [conga] that the loop updates. *)
Record history : Type := mkHistory {
  nClusters : nat;
  allCovers : gmap nat cover;
  modDict : option (gmap nat modularity_value);
}.

(** The body of [if split:]. *)
Definition record_split (calculate_modularities : option string)
    (g : Graph) (h : history) : result history :=
  let comm := membership g in
  let* cover := get_cover g comm in
  let n := S (nClusters h) in
  let covers := <[n := cover]> (allCovers h) in
  match calculate_modularities with
  | None =>
      let* d := of_option TypeError (modDict h) in
      Ok (mkHistory n covers (Some (<[n := modularity g comm]> d)))
  | Some _ => Ok (mkHistory n covers (modDict h))
  end.

(** The [while G.es] loop; [iters] counts the calls of
    [remove_edge_or_split_vertex].  An exception leaves the store as
    it was when the failing call began. *)
Fixpoint conga_loop (fuel : nat) (calculate_modularities : option string)
    (G : loc) (h : history) (iters : nat) (σ : store)
  : result (history * nat) * store :=
  match σ !! G with
  | None => (Raise InternalError, σ)
  | Some g =>
      match es g with
      | [] => (Ok (h, iters), σ)
      | _ =>
          match fuel with
          | 0 => (Raise OutOfFuel, σ)
          | S fuel' =>
              match remove_edge_or_split_vertex g with
              | Raise e => (Raise e, σ)
              | Ok (split, g') =>
                  let σ' := <[G := g']> σ in
                  if split then
                    match record_split calculate_modularities g' h with
                    | Raise e => (Raise e, σ')
                    | Ok h' =>
                        conga_loop fuel' calculate_modularities G h' (S iters) σ'
                    end
                  else conga_loop fuel' calculate_modularities G h (S iters) σ'
              end
          end
      end
  end.

(** [conga], together with the number of iterations its loop made. *)
Definition conga_run (fuel : nat) (OG : loc)
    (calculate_modularities : option string) (optimal_count : option nat)
    (σ : store) : result (CrispOverlap * nat) * store :=
  match σ !! OG with
  | None => (Raise InternalError, σ)
  | Some og =>
      let G := fresh (dom σ) in
      let σ := <[G := og]> σ in
      let comm := components og in
      let nClusters0 := length comm in
      match set_vattr_column og CONGA_orig (Some <$> seq 0 (vcount og)) with
      | Raise e => (Raise e, σ)
      | Ok g =>
          let σ := <[G := g]> σ in
          let modDict0 :=
            match calculate_modularities with
            | None => Some {[ nClusters0 := modularity g (membership g) ]}
            | Some _ => None
            end in
          let allCovers0 := {[ nClusters0 := VertexCover_default og ]} in
          match conga_loop fuel calculate_modularities G
                  (mkHistory nClusters0 allCovers0 modDict0) 0 σ with
          | (Raise e, σ) => (Raise e, σ)
          | (Ok (h, iters), σ) =>
              let measure := default "lazar"%string calculate_modularities in
              (Ok (mkCrispOverlap OG (allCovers h) (modDict h) measure optimal_count,
                   iters), σ)
          end
      end
  end.

Definition conga (fuel : nat) (OG : loc)
    (calculate_modularities : option string) (optimal_count : option nat)
    (σ : store) : result CrispOverlap * store :=
  match conga_run fuel OG calculate_modularities optimal_count σ with
  | (Ok (r, _), σ) => (Ok r, σ)
  | (Raise e, σ) => (Raise e, σ)
  end.
End driver.

(** * Properties *)

(** ** The result monad *)

Lemma rbind_Ok {A B} (m : result A) (k : A → result B) (b : B) :
  rbind m k = Ok b ↔ ∃ a, m = Ok a ∧ k a = Ok b.
Proof.
  destruct m as [a|e]; simpl; split.
  - eauto.
  - by intros (a' & [= ->] & ?).
  - done.
  - by intros (? & ? & ?).
Qed.

Lemma of_option_Ok {A} (e : exn) (o : option A) (a : A) :
  of_option e o = Ok a ↔ o = Some a.
Proof. destruct o; simpl; split; congruence. Qed.

(** Decompose a successful run of monadic code into its steps. *)
Ltac inv_ok :=
  repeat match goal with
    | H : rbind _ _ = Ok _ |- _ =>
        apply rbind_Ok in H; destruct H as (? & ? & H)
    | H : of_option _ _ = Ok _ |- _ => apply of_option_Ok in H
    | H : Ok _ = Ok _ |- _ => injection H as H; try subst
    | H : Raise _ = Ok _ |- _ => discriminate H
    | H : (if bool_decide ?P then _ else _) = Ok _ |- _ =>
        destruct (bool_decide_reflect P); [|try discriminate H]
    end.

Lemma rfoldl_app {A B} (f : A → B → result A) (a : A) (l1 l2 : list B) :
  rfoldl f a (l1 ++ l2) = rbind (rfoldl f a l1) (λ a', rfoldl f a' l2).
Proof.
  revert a; induction l1 as [|b l1 IH]; intros a; simpl; [done|].
  destruct (f a b); simpl; [apply IH|done].
Qed.

(** An invariant kept by every turn of a loop holds when it ends. *)
Lemma rfoldl_invariant {A B} (P : A → Prop) (f : A → B → result A) (l : list B) :
  (∀ a b a', b ∈ l → P a → f a b = Ok a' → P a') →
  ∀ a a', P a → rfoldl f a l = Ok a' → P a'.
Proof.
  induction l as [|b l IH]; intros Hf a a' Ha Hrun; simpl in Hrun.
  - by inv_ok.
  - inv_ok. eapply IH; [|eapply Hf; [left|done..]|done].
    intros ???? ; apply Hf. by right.
Qed.

(** A loop whose turns cannot fail under an invariant does not fail. *)
Lemma rfoldl_is_ok {A B} (P : A → Prop) (f : A → B → result A) (l : list B) :
  (∀ a b, b ∈ l → P a → ∃ a', f a b = Ok a' ∧ P a') →
  ∀ a, P a → ∃ a', rfoldl f a l = Ok a' ∧ P a'.
Proof.
  induction l as [|b l IH]; intros Hf a Ha; simpl; [eauto|].
  destruct (Hf a b) as (a1 & -> & Ha1); [left|done|]. simpl.
  apply IH; [|done]. intros ????; apply Hf; [by right|done].
Qed.

(** ** Ordered dictionaries *)

Section odict_facts.
Context {K V : Type} `{EqDecision K}.
Implicit Types (d : odict K V) (k : K) (v : V).

Lemma odict_get_set_eq d k v : odict_get k (odict_set k v d) = Some v.
Proof.
  induction d as [|[k' v'] d IH]; simpl; repeat case_decide; simpl;
    repeat case_decide; try done.
Qed.

Lemma odict_get_set_ne d k k' v :
  k ≠ k' → odict_get k' (odict_set k v d) = odict_get k' d.
Proof.
  intros Hne. induction d as [|[k0 v0] d IH]; simpl; repeat case_decide; simpl;
    repeat case_decide; try done; congruence.
Qed.

Lemma odict_get_set d k k' v :
  odict_get k' (odict_set k v d) = if decide (k = k') then Some v else odict_get k' d.
Proof.
  case_decide as Hk; [subst; apply odict_get_set_eq|by apply odict_get_set_ne].
Qed.

Lemma odict_keys_set_in d k v v0 :
  odict_get k d = Some v0 → odict_keys (odict_set k v d) = odict_keys d.
Proof.
  unfold odict_keys. induction d as [|[k' v'] d IH]; simpl; [done|].
  repeat case_decide; simpl; intros; subst; f_equal; auto.
Qed.

Lemma odict_keys_set_new d k v :
  odict_get k d = None → odict_keys (odict_set k v d) = odict_keys d ++ [k].
Proof.
  unfold odict_keys. induction d as [|[k' v'] d IH]; simpl; [done|].
  repeat case_decide; simpl; intros; subst; f_equal; auto; done.
Qed.

Lemma odict_get_Some_elem d k v : odict_get k d = Some v → (k, v) ∈ d.
Proof.
  induction d as [|[k' v'] d IH]; simpl; [done|].
  case_decide; [intros [= ->]; subst; left|intros; right; auto].
Qed.

Lemma odict_get_is_Some d k : is_Some (odict_get k d) ↔ k ∈ odict_keys d.
Proof.
  unfold odict_keys. induction d as [|[k' v'] d IH]; simpl.
  - split; [by intros [??]|by intros ?%elem_of_nil].
  - case_decide; subst.
    + split; [left|eauto].
    + rewrite IH. split; [by right|]. intros [?|?]%elem_of_cons; done.
Qed.

(** With distinct keys, membership determines the value. *)
Lemma odict_elem_get d k v :
  NoDup (odict_keys d) → (k, v) ∈ d → odict_get k d = Some v.
Proof.
  unfold odict_keys. induction d as [|[k' v'] d IH]; simpl.
  - by intros _ ?%elem_of_nil.
  - intros [Hk' Hd]%NoDup_cons [[= -> ->]|Hin]%elem_of_cons.
    + by rewrite decide_True.
    + rewrite decide_False; [auto|].
      intros ->. apply Hk'. apply list_elem_of_fmap. by exists (k', v).
Qed.
End odict_facts.

(** ** Graphs *)

(** Every edge joins two vertices of the graph. *)
Definition wf_graph (G : Graph) : Prop :=
  Forall (λ e : nat * nat, e.1 < vcount G ∧ e.2 < vcount G) (es G).

(** No edge joins a vertex to itself. *)
Definition loop_free (G : Graph) : Prop :=
  Forall (λ e : nat * nat, e.1 ≠ e.2) (es G).

(** A walk: every vertex is adjacent to the one before it. *)
Fixpoint is_walk (G : Graph) (p : list nat) : Prop :=
  match p with
  | x :: ((y :: _) as p') => y ∈ neighbors G x ∧ is_walk G p'
  | _ => True
  end.

(** The same, for a path listed from its end to its start. *)
Fixpoint is_rev_walk (G : Graph) (p : list nat) : Prop :=
  match p with
  | y :: ((x :: _) as p') => y ∈ neighbors G x ∧ is_rev_walk G p'
  | _ => True
  end.

Lemma adj_count_sym G v u : adj_count G v u = adj_count G u v.
Proof.
  unfold adj_count. f_equal. apply list_fmap_ext. intros _ e _.
  repeat case_bool_decide; try lia; naive_solver.
Qed.

Lemma elem_of_replicate_iff {A} (n : nat) (x y : A) :
  y ∈ replicate n x ↔ y = x ∧ 0 < n.
Proof.
  rewrite elem_of_replicate. split; intros [? ?]; split; try done; lia.
Qed.

Lemma elem_neighbors G v w :
  w ∈ neighbors G v ↔ w < vcount G ∧ 0 < adj_count G v w.
Proof.
  unfold neighbors. rewrite list_elem_of_In, in_flat_map. split.
  - intros (u & Hu & Hw). apply list_elem_of_In in Hu, Hw.
    apply elem_of_seq in Hu. apply elem_of_replicate_iff in Hw as [-> ?]. lia.
  - intros [Hw Hc]. exists w. rewrite <-!list_elem_of_In. split.
    + apply elem_of_seq. lia.
    + by apply elem_of_replicate_iff.
Qed.

Lemma neighbors_sym G v w :
  v < vcount G → w ∈ neighbors G v → v ∈ neighbors G w.
Proof.
  rewrite !elem_neighbors. intros Hv [Hw Hc]. by rewrite adj_count_sym.
Qed.

Lemma neighbors_lt G v w : w ∈ neighbors G v → w < vcount G.
Proof. rewrite elem_neighbors. tauto. Qed.

Lemma sum_list_pos (l : list nat) : 0 < sum_list l ↔ ∃ x, x ∈ l ∧ 0 < x.
Proof.
  induction l as [|x l IH]; simpl.
  - split; [lia|]. by intros (? & ?%elem_of_nil & _).
  - split.
    + intros Hpos. destruct (decide (0 < x)) as [|Hx].
      * exists x. split; [left|done].
      * destruct IH as [IH _]. destruct IH as (y & ? & ?); [lia|].
        exists y. split; [by right|done].
    + intros (y & [->|Hin]%elem_of_cons & Hy); [lia|].
      destruct IH as [_ IH]. specialize (IH (ex_intro _ y (conj Hin Hy))). lia.
Qed.

Lemma joins_spec u v (e : nat * nat) :
  joins u v e = true ↔ (e.1 = u ∧ e.2 = v) ∨ (e.1 = v ∧ e.2 = u).
Proof.
  unfold joins. rewrite orb_true_iff, !andb_true_iff, !bool_decide_eq_true. done.
Qed.

Lemma joins_sym u v e : joins u v e = joins v u e.
Proof.
  apply eq_true_iff_eq. rewrite !joins_spec. tauto.
Qed.

Lemma adj_count_joins G v u :
  0 < adj_count G v u ↔ ∃ e, e ∈ es G ∧ joins v u e = true.
Proof.
  unfold adj_count. rewrite sum_list_pos. split.
  - intros (x & (e & -> & He)%list_elem_of_fmap & Hpos). exists e. split; [done|].
    apply joins_spec. repeat case_bool_decide; try lia; tauto.
  - intros (e & He & Hj). apply joins_spec in Hj. eexists. split.
    + apply list_elem_of_fmap. by exists e.
    + simpl. repeat case_bool_decide; try lia; tauto.
Qed.

(** *** Walks *)

Lemma is_walk_snoc G p y :
  is_walk G (p ++ [y]) ↔ is_walk G p ∧ ∀ x, last p = Some x → y ∈ neighbors G x.
Proof.
  induction p as [|a [|b p] IH]; simpl in *.
  - split; [by intros _; split|done].
  - split.
    + intros [? _]. split; [done|]. by intros ? [= <-].
    + intros [_ H]. split; [|done]. by apply H.
  - rewrite IH. split.
    + intros (? & ? & ?). done.
    + intros ((? & ?) & ?). done.
Qed.

Lemma is_rev_walk_reverse G p : is_rev_walk G p → is_walk G (reverse p).
Proof.
  induction p as [|y [|x p] IH]; simpl; [done..|].
  intros [Hy Hp]. rewrite reverse_cons. apply is_walk_snoc. split; [by apply IH|].
  intros x'. rewrite reverse_cons, last_snoc. by intros [= <-].
Qed.

(** Three vertices in a row inside a path. *)
Fixpoint has_triple (u v w : nat) (p : list nat) : Prop :=
  match p with
  | a :: ((b :: c :: _) as p') => (a = u ∧ b = v ∧ c = w) ∨ has_triple u v w p'
  | _ => False
  end.

Lemma has_triple_neighbors G p u v w :
  is_walk G p → NoDup p → Forall (λ x, x < vcount G) p → has_triple u v w p →
  u ∈ neighbors G v ∧ w ∈ neighbors G v ∧ u ≠ w.
Proof.
  induction p as [|a [|b [|c p]] IH]; simpl; try done.
  intros (Hab & Hbc & Hp) Hnd Hlt [(-> & -> & ->)|Hin].
  - split; [|split; [done|]].
    + apply neighbors_sym; [|done]. by inversion Hlt.
    + intros ->. apply NoDup_cons in Hnd as [Hnd _]. apply Hnd. right. left.
  - apply IH; [done| |by inversion Hlt|done]. by apply NoDup_cons in Hnd as [_ ?].
Qed.

Lemma interior_has_triple v p :
  v ∈ interior p → ∃ u w, has_triple u v w p.
Proof.
  unfold interior. induction p as [|a [|b [|c p]] IH]; simpl.
  - by intros ?%elem_of_nil.
  - by intros ?%elem_of_nil.
  - by intros ?%elem_of_nil.
  - intros [->|Hin]%elem_of_cons.
    + exists a, c. by left.
    + destruct IH as (u & w & H); [done|]. exists u, w. by right.
Qed.

(** *** Breadth-first search is sound *)

(** What the search keeps true of every (reversed) path it holds. *)
Definition bfs_path_ok (G : Graph) (s : nat) (visited p : list nat) : Prop :=
  last p = Some s ∧ NoDup p ∧ is_rev_walk G p
  ∧ Forall (λ x, x ∈ visited ∧ x < vcount G) p.

Lemma bfs_path_ok_mono G s visited visited' p :
  visited ⊆ visited' → bfs_path_ok G s visited p → bfs_path_ok G s visited' p.
Proof.
  intros Hsub (? & ? & ? & Hall). do 3 (split; [done|]).
  eapply Forall_impl; [done|]. intros x [??]. split; [by apply Hsub|done].
Qed.

Lemma heads_elem (ps : list (list nat)) x p :
  x :: p ∈ ps → x ∈ heads ps.
Proof. intros Hin. unfold heads. apply list_elem_of_omap. by exists (x :: p). Qed.

Lemma extend_ok G s visited p q next :
  bfs_path_ok G s visited p → q ∈ extend G visited p → q ∈ next →
  bfs_path_ok G s (visited ++ heads next) q.
Proof.
  intros (Hlast & Hnd & Hwalk & Hall) Hq Hnext.
  destruct p as [|x p]; simpl in Hq; [by apply elem_of_nil in Hq|].
  apply list_elem_of_fmap in Hq as (w & -> & Hw).
  apply list_elem_of_filter in Hw as [Hnew Hw].
  split; [done|]. split; [|split].
  - apply NoDup_cons. split; [|done]. intros Hin.
    rewrite Forall_forall in Hall. apply Hnew. by apply Hall.
  - done.
  - apply Forall_cons. split.
    + split; [|by eapply neighbors_lt]. apply elem_of_app. right. by eapply heads_elem.
    + eapply Forall_impl; [done|]. intros y [??]. split; [|done].
      apply elem_of_app. by left.
Qed.

Lemma bfs_layers_ok G s fuel visited frontier p :
  Forall (bfs_path_ok G s visited) frontier →
  p ∈ bfs_layers G fuel visited frontier →
  ∃ visited', bfs_path_ok G s visited' p.
Proof.
  revert visited frontier. induction fuel as [|fuel IH]; intros visited frontier Hfr; simpl.
  - by intros ?%elem_of_nil.
  - destruct frontier as [|p0 frontier]; [by intros ?%elem_of_nil|].
    intros [Hin|Hin]%elem_of_app.
    + exists visited. rewrite Forall_forall in Hfr. by apply Hfr.
    + eapply IH; [|done]. apply Forall_forall. intros q Hq.
      pose proof Hq as Hq'.
      rewrite list_elem_of_In, in_flat_map in Hq'. destruct Hq' as (p1 & Hp1 & Hq1).
      rewrite <-list_elem_of_In in Hp1, Hq1.
      eapply extend_ok; [|done|done]. rewrite Forall_forall in Hfr. by apply Hfr.
Qed.

(** Every listed shortest path starts at the source, visits no vertex
    twice, only visits vertices of the graph and walks along edges. *)
Lemma shortest_path_ok G s p :
  p ∈ get_all_shortest_paths G s →
  head p = Some s ∧ NoDup p ∧ is_walk G p ∧ Forall (λ x, x < vcount G) p.
Proof.
  unfold get_all_shortest_paths. case_bool_decide as Hs; [|by intros ?%elem_of_nil].
  intros (q & -> & Hq)%list_elem_of_fmap.
  apply (bfs_layers_ok G s) in Hq as (visited' & Hlast & Hnd & Hwalk & Hall).
  - split; [|split; [|split]].
    + by rewrite head_reverse.
    + by rewrite reverse_Permutation.
    + by apply is_rev_walk_reverse.
    + apply Forall_reverse. eapply Forall_impl; [done|]. by intros ? [??].
  - apply Forall_singleton. split; [done|]. split; [apply NoDup_singleton|].
    split; [done|]. apply Forall_singleton. split; [left|done].
Qed.

Lemma shortest_path_nonempty G s p : p ∈ get_all_shortest_paths G s → p ≠ [].
Proof. intros [Hh _]%shortest_path_ok ->. done. Qed.

Lemma shortest_path_last_lt G s p t :
  p ∈ get_all_shortest_paths G s → last p = Some t → t < vcount G.
Proof.
  intros (_ & _ & _ & Hall)%shortest_path_ok Hl.
  rewrite Forall_forall in Hall. apply Hall. by apply last_Some_elem_of.
Qed.

(** The table lists the paths by source. *)
Lemma shortest_paths_table_lookup G s ps :
  shortest_paths_table G !! s = Some ps ↔
  s < vcount G ∧ ps = get_all_shortest_paths G s.
Proof.
  unfold shortest_paths_table. rewrite list_lookup_fmap. split.
  - destruct (seq _ _ !! s) as [s'|] eqn:Hs; [|done].
    apply lookup_seq in Hs as [-> ?]. simpl. intros [= <-]. done.
  - intros [Hs ->]. by rewrite lookup_seq_lt.
Qed.

Lemma length_shortest_paths_table G : length (shortest_paths_table G) = vcount G.
Proof. unfold shortest_paths_table. by rewrite length_fmap, length_seq. Qed.

(** *** Breadth-first search is complete *)

(** [t] can be reached from [s] along edges. *)
Definition connected (G : Graph) (s t : nat) : Prop :=
  rtc (λ x y, y ∈ neighbors G x) s t.

(** The vertices of the graph not yet visited. *)
Definition unvisited (G : Graph) (visited : list nat) : list nat :=
  filter (λ x, x ∉ visited) (seq 0 (vcount G)).

Lemma length_filter_le {A} (P Q : A → Prop)
    `{∀ x, Decision (P x)} `{∀ x, Decision (Q x)} (l : list A) :
  (∀ x, P x → Q x) → length (filter P l) ≤ length (filter Q l).
Proof.
  intros HPQ. induction l as [|x l IH]; [done|].
  rewrite !filter_cons. repeat case_decide; simpl; try lia. naive_solver.
Qed.

Lemma length_filter_lt {A} (P Q : A → Prop)
    `{∀ x, Decision (P x)} `{∀ x, Decision (Q x)} (l : list A) w :
  (∀ x, P x → Q x) → w ∈ l → Q w → ¬ P w →
  length (filter P l) < length (filter Q l).
Proof.
  intros HPQ Hw HQ HP. induction l as [|x l IH]; [by apply elem_of_nil in Hw|].
  pose proof (length_filter_le P Q l HPQ) as Hle.
  rewrite !filter_cons. apply elem_of_cons in Hw as [<-|Hw].
  - rewrite (decide_False (P:=P w)), (decide_True (P:=Q w)) by done. simpl. lia.
  - specialize (IH Hw). repeat case_decide; simpl; try lia. naive_solver.
Qed.

Lemma length_filter_missing {A} (P : A → Prop) `{∀ x, Decision (P x)}
    (l : list A) w :
  w ∈ l → ¬ P w → length (filter P l) < length l.
Proof.
  intros Hw HP. induction l as [|x l IH]; [by apply elem_of_nil in Hw|].
  pose proof (length_filter P l) as Hle.
  rewrite filter_cons. apply elem_of_cons in Hw as [<-|Hw].
  - rewrite decide_False by done. simpl. lia.
  - specialize (IH Hw). case_decide; simpl; lia.
Qed.

Lemma unvisited_shrinks G visited more w :
  w ∈ more → w ∉ visited → w < vcount G →
  length (unvisited G (visited ++ more)) < length (unvisited G visited).
Proof.
  intros Hw Hnew Hlt. unfold unvisited.
  apply (length_filter_lt _ _ _ w); [set_solver| |done|set_solver].
  apply elem_of_seq. lia.
Qed.

Lemma closed_connected G (V : list nat) x t :
  (∀ y w, y ∈ V → w ∈ neighbors G y → w ∈ V) →
  x ∈ V → connected G x t → t ∈ V.
Proof. intros Hclosed Hx Hreach. induction Hreach; eauto. Qed.

Lemma heads_app ps qs : heads (ps ++ qs) = heads ps ++ heads qs.
Proof. unfold heads. apply omap_app. Qed.

Lemma heads_elem_inv (ps : list (list nat)) x :
  x ∈ heads ps → ∃ p, x :: p ∈ ps.
Proof.
  unfold heads. intros (q & Hq & Hh)%list_elem_of_omap.
  destruct q as [|y q]; [done|]. injection Hh as ->. eauto.
Qed.

Lemma extend_elem G visited x p w :
  w ∈ neighbors G x → w ∉ visited → w :: x :: p ∈ extend G visited (x :: p).
Proof.
  intros Hw Hnew. simpl. apply list_elem_of_fmap. exists w. split; [done|].
  by apply list_elem_of_filter.
Qed.

Lemma extend_heads_new G visited frontier w :
  w ∈ heads (flat_map (extend G visited) frontier) →
  w ∉ visited ∧ w < vcount G.
Proof.
  intros [q Hq]%heads_elem_inv.
  rewrite list_elem_of_In, in_flat_map in Hq. destruct Hq as (p & _ & Hq).
  rewrite <-list_elem_of_In in Hq. destruct p as [|x p]; simpl in Hq.
  - by apply elem_of_nil in Hq.
  - apply list_elem_of_fmap in Hq as (w' & [= -> ->] & Hw).
    apply list_elem_of_filter in Hw as [? ?]. split; [done|]. by eapply neighbors_lt.
Qed.

Lemma bfs_layers_unfold G fuel V p F :
  bfs_layers G (S fuel) V (p :: F)
  = (p :: F) ++ bfs_layers G fuel (V ++ heads (flat_map (extend G V) (p :: F)))
                  (flat_map (extend G V) (p :: F)).
Proof. done. Qed.

Lemma bfs_layers_frontier G fuel V F p :
  0 < fuel → p ∈ F → p ∈ bfs_layers G fuel V F.
Proof.
  intros Hfuel Hp. destruct fuel as [|fuel]; [lia|]. simpl.
  destruct F as [|p0 F]; [done|]. apply elem_of_app. by left.
Qed.

Lemma bfs_layers_complete G fuel V F :
  heads F ⊆ V →
  (∀ y w, y ∈ V → y ∉ heads F → w ∈ neighbors G y → w ∈ V) →
  length (unvisited G V) < fuel →
  ∀ x t, x ∈ V → connected G x t →
         t ∈ V ∨ t ∈ heads (bfs_layers G fuel V F).
Proof.
  revert V F. induction fuel as [|fuel IH]; intros V F Hheads Hclosed Hfuel x t Hx Hreach;
    [lia|].
  simpl. destruct F as [|p0 F].
  { left. eapply closed_connected; [|done..]. intros y w Hy Hw.
    eapply Hclosed; [done| |done]. by intros ?%elem_of_nil. }
  remember (p0 :: F) as F0 eqn:HF0.
  remember (flat_map (extend G V) F0) as next eqn:Hnext.
  assert (∀ y w, y ∈ V → w ∈ neighbors G y → w ∈ V ++ heads next) as Hstep.
  { intros y w Hy Hw. destruct (decide (w ∈ V)) as [|Hnew]; [set_solver|].
    destruct (decide (y ∈ heads F0)) as [Hhead|Hold].
    - apply heads_elem_inv in Hhead as (p & Hp). apply elem_of_app. right.
      apply (heads_elem _ w (y :: p)). rewrite Hnext.
      rewrite list_elem_of_In, in_flat_map. exists (y :: p).
      rewrite <-!list_elem_of_In. split; [done|]. by apply extend_elem.
    - exfalso. apply Hnew. by eapply Hclosed. }
  destruct (decide (heads next = [])) as [Hnil|Hne].
  { left. rewrite Hnil in Hstep. eapply closed_connected; [|done..].
    intros y w Hy Hw. specialize (Hstep y w Hy Hw). by rewrite app_nil_r in Hstep. }
  assert (∃ w, w ∈ heads next) as [w Hw].
  { destruct (heads next) as [|w l]; [done|]. exists w. left. }
  assert (w ∉ V ∧ w < vcount G) as [Hwnew Hwlt].
  { rewrite Hnext in Hw. by eapply extend_heads_new. }
  pose proof (unvisited_shrinks G V (heads next) w Hw Hwnew Hwlt) as Hshrink.
  assert (0 < fuel) as Hpos by lia.
  destruct (IH (V ++ heads next) next) with (x := x) (t := t) as [Ht|Ht].
  - set_solver.
  - intros y w' Hy Hnothead Hw'. apply elem_of_app in Hy as [Hy|Hy]; [|done].
    by eapply Hstep.
  - lia.
  - set_solver.
  - done.
  - apply elem_of_app in Ht as [Ht|Ht]; [by left|]. right.
    rewrite heads_app. apply elem_of_app. right.
    apply heads_elem_inv in Ht as (p & Hp).
    eapply heads_elem. by apply bfs_layers_frontier.
  - right. rewrite heads_app. apply elem_of_app. by right.
Qed.

Lemma reachable_from_heads G s :
  s < vcount G →
  reachable_from G s = heads (bfs_layers G (vcount G) [s] [[s]]).
Proof.
  intros Hs. unfold reachable_from, get_all_shortest_paths, heads.
  rewrite bool_decide_eq_true_2 by done.
  induction (bfs_layers G (vcount G) [s] [[s]]) as [|q l IH]; [done|].
  rewrite fmap_cons. cbn [omap list_omap]. rewrite last_reverse.
  destruct (head q); simpl; by rewrite IH.
Qed.

Lemma walk_connected G p s t :
  is_walk G p → head p = Some s → last p = Some t → connected G s t.
Proof.
  revert s. induction p as [|x [|y p] IH]; intros s Hwalk Hh Hl; simpl in *; [done|..].
  - simplify_eq. apply rtc_refl.
  - injection Hh as ->. destruct Hwalk as [Hy Hwalk].
    eapply rtc_l; [done|]. by apply IH.
Qed.

(** The search reaches exactly the vertices connected to the source. *)
Lemma reachable_from_spec G s t :
  s < vcount G → t ∈ reachable_from G s ↔ connected G s t.
Proof.
  intros Hs. split.
  - unfold reachable_from. intros (p & Hp & Hl)%list_elem_of_omap.
    apply shortest_path_ok in Hp as (Hh & _ & Hwalk & _).
    by eapply walk_connected.
  - intros Hreach. rewrite reachable_from_heads by done.
    assert (length (unvisited G [s]) < vcount G) as Hfuel.
    { unfold unvisited.
      pose proof (length_filter_missing (λ x, x ∉ [s]) (seq 0 (vcount G)) s) as Hlt.
      rewrite length_seq in Hlt. apply Hlt; [apply elem_of_seq; lia|set_solver]. }
    assert (heads [[s]] ⊆ [s]) as Hheads by done.
    assert (∀ y w, y ∈ [s] → y ∉ heads [[s]] → w ∈ neighbors G y → w ∈ [s]) as Hcl.
    { intros y w Hy Hny. by destruct Hny. }
    assert (s ∈ [s]) as Hs' by left.
    destruct (bfs_layers_complete G (vcount G) [s] [[s]] Hheads Hcl Hfuel s t Hs' Hreach)
      as [Ht|Ht]; [|done].
    apply list_elem_of_singleton in Ht as ->.
    eapply (heads_elem _ s []). apply bfs_layers_frontier; [lia|left].
Qed.

Lemma connected_lt G s t : s < vcount G → connected G s t → t < vcount G.
Proof.
  intros Hs Hreach. induction Hreach as [|x y z Hxy _ IH]; [done|].
  apply IH. by eapply neighbors_lt.
Qed.

Lemma connected_sym G s t : s < vcount G → connected G s t → connected G t s.
Proof.
  intros Hs Hreach. induction Hreach as [|x y z Hxy Hyz IH]; [apply rtc_refl|].
  eapply rtc_trans; [apply IH; by eapply neighbors_lt|].
  apply rtc_once. by apply neighbors_sym.
Qed.

(** A path to [t] is listed from [s] if and only if one to [s] is listed
    from [t]. *)
Lemma reachable_from_sym G s t :
  s < vcount G → t ∈ reachable_from G s → s ∈ reachable_from G t.
Proof.
  intros Hs Ht. apply reachable_from_spec in Ht; [|done].
  apply reachable_from_spec; [by eapply connected_lt|by apply connected_sym].
Qed.

(** An edge is a shortest path between its ends. *)
Lemma edge_is_shortest_path G s t :
  s < vcount G → t ∈ neighbors G s → s ≠ t →
  [s; t] ∈ get_all_shortest_paths G s.
Proof.
  intros Hs Ht Hne. unfold get_all_shortest_paths.
  rewrite bool_decide_eq_true_2 by done.
  apply list_elem_of_fmap. exists [t; s]. split; [done|].
  pose proof (neighbors_lt _ _ _ Ht) as Htlt.
  destruct (vcount G) as [|[|n]] eqn:Hn; [lia|lia|].
  assert ([t; s] ∈ extend G [s] [s]) as Hin.
  { apply extend_elem; [done|]. set_solver. }
  rewrite bfs_layers_unfold. apply elem_of_app. right.
  apply bfs_layers_frontier; [lia|].
  rewrite list_elem_of_In, in_flat_map. exists [s].
  rewrite <-!list_elem_of_In. split; [left|done].
Qed.

(** ** Betweenness *)

Lemma Qnat_nonneg n : (0 <= Qnat n)%Q.
Proof. unfold Qnat, Qle. simpl. lia. Qed.

Lemma Qnat_pos n : (0 < Qnat n)%Q ↔ 0 < n.
Proof. unfold Qnat, Qlt. simpl. lia. Qed.

Lemma Qdiv_nat_nonneg a b : (0 <= Qnat a / Qnat b)%Q.
Proof.
  destruct b as [|b].
  - unfold Qdiv, Qinv, Qnat. simpl. rewrite Qmult_0_r. apply Qle_refl.
  - apply Qle_shift_div_l; [by apply Qnat_pos; lia|].
    rewrite Qmult_0_l. apply Qnat_nonneg.
Qed.

Lemma Qdiv_nat_pos a b : 0 < b → (0 < Qnat a / Qnat b)%Q ↔ 0 < a.
Proof.
  intros Hb. split.
  - intros Hpos. destruct a as [|a]; [|lia]. exfalso.
    unfold Qdiv in Hpos. change (Qnat 0) with 0%Q in Hpos.
    rewrite Qmult_0_l in Hpos. by apply Qlt_irrefl in Hpos.
  - intros Ha. apply Qlt_shift_div_l; [by apply Qnat_pos|].
    rewrite Qmult_0_l. by apply Qnat_pos.
Qed.

Lemma Qsum_nonneg (l : list Q) : Forall (λ q, 0 <= q)%Q l → (0 <= Qsum l)%Q.
Proof.
  induction 1 as [|q l Hq Hl IH]; simpl; [apply Qle_refl|].
  replace 0%Q with (0 + 0)%Q by done. by apply Qplus_le_compat.
Qed.

Lemma Qsum_pos (l : list Q) :
  Forall (λ q, 0 <= q)%Q l → (0 < Qsum l)%Q ↔ ∃ q, q ∈ l ∧ (0 < q)%Q.
Proof.
  induction 1 as [|q l Hq Hl IH]; simpl.
  - split; [by intros ?%Qlt_irrefl|]. by intros (? & ?%elem_of_nil & _).
  - pose proof (Qsum_nonneg l Hl) as Hsum. split.
    + intros Hpos. destruct (Qlt_le_dec 0 q) as [Hq'|Hq'].
      * exists q. split; [left|done].
      * assert (q == 0)%Q as Hz by by apply Qle_antisym.
        rewrite Hz, Qplus_0_l in Hpos. apply IH in Hpos as (q' & ? & ?).
        exists q'. split; [by right|done].
    + intros (q' & [->|Hin]%elem_of_cons & Hq').
      * apply Qlt_le_trans with (q + 0)%Q; [by rewrite Qplus_0_r|].
        apply Qplus_le_r. done.
      * apply Qlt_le_trans with (0 + Qsum l)%Q.
        -- rewrite Qplus_0_l. apply IH. eauto.
        -- by apply Qplus_le_l.
Qed.

Lemma count_if_pos {A} (f : A → bool) (l : list A) :
  0 < count_if f l ↔ ∃ x, x ∈ l ∧ f x = true.
Proof.
  unfold count_if. split.
  - intros Hpos. destruct (filter _ l) as [|x l'] eqn:Hf; [simpl in Hpos; lia|].
    assert (x ∈ filter (λ x, f x = true) l) as Hx by (rewrite Hf; left).
    apply list_elem_of_filter in Hx as [??]. eauto.
  - intros (x & Hx & Hfx).
    assert (x ∈ filter (λ x, f x = true) l) as Hin by by apply list_elem_of_filter.
    destruct (filter _ l); [by apply elem_of_nil in Hin|]. simpl. lia.
Qed.

Lemma path_share_nonneg f ps t : (0 <= path_share f ps t)%Q.
Proof. apply Qdiv_nat_nonneg. Qed.

Lemma path_share_pos f ps t :
  (0 < path_share f ps t)%Q ↔ ∃ p, p ∈ ps ∧ last p = Some t ∧ f p = true.
Proof.
  unfold path_share. cbv zeta. split.
  - intros Hpos.
    destruct (decide (0 < length (paths_to t ps))) as [Hlen|Hlen].
    + apply Qdiv_nat_pos in Hpos; [|done].
      apply count_if_pos in Hpos as (p & Hp & Hf).
      apply list_elem_of_filter in Hp as [??]. eauto.
    + exfalso. assert (paths_to t ps = []) as Hnil.
      { destruct (paths_to t ps); [done|]. simpl in Hlen. lia. }
      rewrite Hnil in Hpos. apply Qlt_irrefl in Hpos. done.
  - intros (p & Hp & Hl & Hf).
    assert (p ∈ paths_to t ps) as Hin by by apply list_elem_of_filter.
    apply Qdiv_nat_pos.
    + destruct (paths_to t ps); [by apply elem_of_nil in Hin|]. simpl. lia.
    + apply count_if_pos. eauto.
Qed.

(** A sum over vertex pairs is positive exactly when some listed
    shortest path between a pair [s < t] counts. *)
Lemma pair_sum_pos (table : list (list (list nat))) f :
  (0 < pair_sum table f)%Q ↔
  ∃ s ps t p, table !! s = Some ps ∧ s < t < length table
              ∧ p ∈ ps ∧ last p = Some t ∧ f p = true.
Proof.
  unfold pair_sum.
  set (inner := λ (s : nat) (ps : list (list nat)),
         Qsum ((λ t, if bool_decide (s < t) then path_share f ps t else 0%Q)
                 <$> seq 0 (length table))).
  assert (∀ s ps, Forall (λ q, 0 <= q)%Q
            ((λ t, if bool_decide (s < t) then path_share f ps t else 0%Q)
               <$> seq 0 (length table))) as Hnn.
  { intros s ps. apply Forall_fmap, Forall_forall. intros t _. simpl.
    case_bool_decide; [apply path_share_nonneg|apply Qle_refl]. }
  rewrite Qsum_pos; last first.
  { apply Forall_forall. intros q (s & ps & -> & _)%elem_of_lookup_imap.
    apply Qsum_nonneg, Hnn. }
  split.
  - intros (q & (s & ps & -> & Hs)%elem_of_lookup_imap & Hpos).
    apply Qsum_pos in Hpos; [|apply Hnn].
    destruct Hpos as (q & (t & -> & Ht)%list_elem_of_fmap & Hpos).
    apply elem_of_seq in Ht. case_bool_decide; [|by apply Qlt_irrefl in Hpos].
    apply path_share_pos in Hpos as (p & ? & ? & ?).
    exists s, ps, t, p. repeat split; try done; lia.
  - intros (s & ps & t & p & Hs & Hst & Hp & Hl & Hf).
    exists (inner s ps). split.
    + apply elem_of_lookup_imap. eauto.
    + unfold inner. apply Qsum_pos; [apply Hnn|].
      exists (path_share f ps t). split.
      * apply list_elem_of_fmap. exists t. rewrite bool_decide_eq_true_2 by lia.
        split; [done|]. apply elem_of_seq. lia.
      * apply path_share_pos. eauto.
Qed.

Lemma pair_sum_nonneg (table : list (list (list nat))) f :
  (0 <= pair_sum table f)%Q.
Proof.
  unfold pair_sum. apply Qsum_nonneg, Forall_forall.
  intros q (s & ps & -> & _)%elem_of_lookup_imap.
  apply Qsum_nonneg, Forall_fmap, Forall_forall. intros t _. simpl.
  case_bool_decide; [apply path_share_nonneg|apply Qle_refl].
Qed.

Lemma betweenness_lookup G v :
  v < vcount G →
  betweenness G !! v
  = Some (pair_sum (shortest_paths_table G) (λ p, bool_decide (v ∈ interior p))).
Proof.
  intros Hv. unfold betweenness. cbv zeta.
  by rewrite list_lookup_fmap, lookup_seq_lt.
Qed.

Lemma length_betweenness G : length (betweenness G) = vcount G.
Proof. unfold betweenness. cbv zeta. by rewrite length_fmap, length_seq. Qed.

Lemma length_edge_betweenness G : length (edge_betweenness G) = length (es G).
Proof. unfold edge_betweenness. cbv zeta. by rewrite length_fmap. Qed.

(** A vertex of positive betweenness lies strictly inside a listed
    shortest path between two other vertices [s < t]. *)
Lemma betweenness_pos G v b :
  betweenness G !! v = Some b → (0 < b)%Q →
  ∃ s t p, s < t ∧ p ∈ get_all_shortest_paths G s ∧ last p = Some t
           ∧ v ∈ interior p.
Proof.
  intros Hb Hpos.
  assert (v < vcount G) as Hv.
  { apply lookup_lt_Some in Hb. by rewrite length_betweenness in Hb. }
  rewrite betweenness_lookup in Hb by done. injection Hb as <-.
  apply pair_sum_pos in Hpos as (s & ps & t & p & Hs & Hst & Hp & Hl & Hf).
  apply shortest_paths_table_lookup in Hs as [Hs ->].
  apply bool_decide_eq_true in Hf. exists s, t, p. repeat split; try done; lia.
Qed.

(** An edge between two different vertices has positive betweenness. *)
Lemma edge_betweenness_pos G k e :
  es G !! k = Some e → e.1 < vcount G → e.2 < vcount G → e.1 ≠ e.2 →
  ∃ x, edge_betweenness G !! k = Some x ∧ (0 < x)%Q.
Proof.
  intros Hk H1 H2 Hne. unfold edge_betweenness. cbv zeta.
  rewrite list_lookup_fmap, Hk. simpl. eexists; split; [done|].
  assert (e ∈ es G) as He by by eapply list_elem_of_lookup_2.
  assert (joins e.1 e.2 e = true) as Hj by (apply joins_spec; by left).
  apply Qlt_shift_div_l.
  { apply Qnat_pos, count_if_pos. eauto. }
  rewrite Qmult_0_l. apply pair_sum_pos.
  set (s := e.1 `min` e.2). set (t := e.1 `max` e.2).
  assert (t ∈ neighbors G s) as Hadj.
  { apply elem_neighbors. split; [unfold t; lia|]. apply adj_count_joins.
    exists e. split; [done|]. apply joins_spec. unfold s, t. lia. }
  exists s, (get_all_shortest_paths G s), t, [s; t]. split; [|split; [|split; [|split]]].
  - apply shortest_paths_table_lookup. split; [unfold s; lia|done].
  - rewrite length_shortest_paths_table. unfold s, t. lia.
  - apply edge_is_shortest_path; [unfold s; lia|done|unfold s, t; lia].
  - done.
  - simpl. rewrite orb_false_r. apply joins_spec. simpl. unfold s, t. lia.
Qed.

(** *** The greatest edge betweenness and the candidates *)

Definition first_max (l : list Q) (k : nat) (x : Q) : Prop :=
  l !! k = Some x
  ∧ (∀ k' y, l !! k' = Some y → (y <= x)%Q)
  ∧ (∀ k' y, k' < k → l !! k' = Some y → (y < x)%Q).

Lemma Qltb_true x y : Qltb x y = true ↔ (x < y)%Q.
Proof.
  unfold Qltb. rewrite negb_true_iff. split.
  - intros H. apply Qnot_le_lt. intros Hle. apply Qle_bool_iff in Hle. congruence.
  - intros Hlt. apply not_true_is_false. intros Hle%Qle_bool_iff.
    by apply Qlt_not_le in Hlt.
Qed.

Lemma Qltb_false x y : Qltb x y = false ↔ (y <= x)%Q.
Proof.
  unfold Qltb. rewrite negb_false_iff. apply Qle_bool_iff.
Qed.

Lemma max_fold_spec (pre l : list Q) bi b :
  first_max pre bi b →
  ∃ k x,
    foldl (λ best y : nat * Q, if Qltb best.2 y.2 then y else best) (bi, b)
          (imap (λ i y, (length pre + i, y)) l) = (k, x)
    ∧ first_max (pre ++ l) k x.
Proof.
  revert pre bi b. induction l as [|y l IH]; intros pre bi b Hfm.
  - simpl. exists bi, b. by rewrite app_nil_r.
  - simpl. rewrite Nat.add_0_r.
    destruct Hfm as (Hb & Hmax & Hfst).
    assert (imap ((λ i y, (length pre + i, y)) ∘ S) l
            = imap (λ i z, (length (pre ++ [y]) + i, z)) l) as ->.
    { apply imap_ext. intros i z _. simpl. rewrite length_app. simpl. f_equal. lia. }
    replace (pre ++ y :: l) with ((pre ++ [y]) ++ l) by by rewrite <-app_assoc.
    destruct (Qltb b y) eqn:Hby.
    + apply Qltb_true in Hby. apply IH. split; [|split].
      * by rewrite lookup_app_r, Nat.sub_diag.
      * intros k' z [Hz|[_ Hz]]%lookup_app_Some.
        -- apply Qle_trans with b; [eauto|by apply Qlt_le_weak].
        -- apply list_lookup_singleton_Some in Hz as [_ <-]. apply Qle_refl.
      * intros k' z Hk' Hz. rewrite lookup_app_l in Hz by done.
        apply Qle_lt_trans with b; eauto.
    + apply Qltb_false in Hby. apply IH. split; [|split].
      * by apply lookup_app_l_Some.
      * intros k' z [Hz|[_ Hz]]%lookup_app_Some; [eauto|].
        by apply list_lookup_singleton_Some in Hz as [_ <-].
      * intros k' z Hk' Hz. apply lookup_lt_Some in Hb.
        rewrite lookup_app_l in Hz by lia. eauto.
Qed.

(** [max(enumerate(l), key=itemgetter(1))] is the first position of the
    greatest value. *)
Lemma max_enumerate_spec (l : list Q) :
  l ≠ [] → ∃ k x, max_enumerate l = Ok (k, x) ∧ first_max l k x.
Proof.
  destruct l as [|y l]; [done|]. intros _. unfold max_enumerate, enumerate. simpl.
  destruct (max_fold_spec [y] l 0 y) as (k & x & Hrun & Hfm).
  { split; [done|]. split.
    - intros [|k'] z; simpl; [intros [= <-]; apply Qle_refl|by rewrite lookup_nil].
    - intros; lia. }
  exists k, x. split; [|done]. f_equal. by rewrite <-Hrun.
Qed.

Lemma elem_of_candidates (vb : list Q) (maxEb : Q) v :
  v ∈ candidates vb maxEb ↔ ∃ b, vb !! v = Some b ∧ (maxEb <= b)%Q.
Proof.
  unfold candidates, enumerate. rewrite list_elem_of_fmap. split.
  - intros ([i b] & -> & [Hle Hin]%list_elem_of_filter).
    apply elem_of_lookup_imap in Hin as (i' & b' & [= <- <-] & Hb).
    exists b. split; [done|]. by apply Qle_bool_iff.
  - intros (b & Hb & Hle). exists (v, b). split; [done|].
    apply list_elem_of_filter. split; [by apply Qle_bool_iff|].
    apply elem_of_lookup_imap. eauto.
Qed.

(** No vertex is listed twice among the candidates. *)
Lemma candidates_NoDup (vb : list Q) (maxEb : Q) : NoDup (candidates vb maxEb).
Proof.
  unfold candidates, enumerate.
  assert (∀ n, NoDup
            (fst <$> filter (λ ib : nat * Q, Qle_bool maxEb ib.2 = true)
                       (imap (λ i y, (n + i, y)) vb))
          ∧ Forall (λ i, n ≤ i)
              (fst <$> filter (λ ib : nat * Q, Qle_bool maxEb ib.2 = true)
                         (imap (λ i y, (n + i, y)) vb))) as H.
  { induction vb as [|b vb IH]; intros n; simpl; [split; constructor|].
    assert (imap ((λ i y, (n + i, y)) ∘ S) vb = imap (λ i y, (S n + i, y)) vb) as ->.
    { apply imap_ext. intros i z _. simpl. f_equal. lia. }
    destruct (IH (S n)) as [Hs Hf]. rewrite filter_cons. case_decide; simpl.
    - split.
      + constructor; [|done]. rewrite Forall_forall in Hf. intros Hin%Hf. lia.
      + constructor; [lia|]. eapply Forall_impl; [done|]. simpl. lia.
    - split; [done|]. eapply Forall_impl; [done|]. simpl. lia. }
  destruct (H 0) as [Hs _].
  erewrite imap_ext; [done|]. by intros i z _.
Qed.

(** ** Pair betweenness *)

(** How often the triple [u, v, w] occurs in a row in [p]. *)
Fixpoint triple_count (u v w : nat) (p : list nat) : nat :=
  match p with
  | a :: ((b :: c :: _) as p') =>
      (if decide (a = u ∧ b = v ∧ c = w) then 1 else 0) + triple_count u v w p'
  | _ => 0
  end.

(** A listed path that runs from the smaller to the greater of its ends:
    the one representative of an undirected path. *)
Definition forward (p : list nat) : bool :=
  match head p, last p with
  | Some s, Some t => bool_decide (s < t)
  | _, _ => false
  end.

Definition undirected_shortest_paths (G : Graph) : list (list nat) :=
  filter (λ p, forward p = true) (all_pairs_shortest_paths G).

(** The number of times an undirected shortest path passes through
    [u, v, w] in a row, in one direction or the other. *)
Definition traversals (G : Graph) (u v w : nat) : nat :=
  sum_list ((λ p, triple_count u v w p + triple_count w v u p)
              <$> undirected_shortest_paths G).

Lemma elem_of_permutations2 {A} (l : list A) (x y : A) :
  (x, y) ∈ permutations2 l ↔ ∃ i j, i ≠ j ∧ l !! i = Some x ∧ l !! j = Some y.
Proof.
  unfold permutations2, enumerate. rewrite list_elem_of_bind. split.
  - intros ([i x'] & Hin & (i' & x'' & [= <- <-] & Hx)%elem_of_lookup_imap).
    apply list_elem_of_bind in Hin
      as ([j y'] & Hin & (j' & y'' & [= <- <-] & Hy)%elem_of_lookup_imap).
    simpl in Hin. case_bool_decide; [by apply elem_of_nil in Hin|].
    apply list_elem_of_singleton in Hin as [= -> ->]. eauto.
  - intros (i & j & Hij & Hx & Hy). exists (i, x). split.
    + apply list_elem_of_bind. exists (j, y). split.
      * simpl. rewrite bool_decide_eq_false_2 by done. left.
      * apply elem_of_lookup_imap. eauto.
    + apply elem_of_lookup_imap. eauto.
Qed.

Lemma permutations2_sym {A} (l : list A) (x y : A) :
  (x, y) ∈ permutations2 l → (y, x) ∈ permutations2 l.
Proof.
  rewrite !elem_of_permutations2. intros (i & j & ? & ? & ?). exists j, i. eauto.
Qed.

Lemma permutations2_distinct {A} (l : list A) (x y : A) :
  x ∈ l → y ∈ l → x ≠ y → (x, y) ∈ permutations2 l.
Proof.
  intros [i Hi]%list_elem_of_lookup [j Hj]%list_elem_of_lookup Hne.
  apply elem_of_permutations2. exists i, j. split; [|done]. intros ->. congruence.
Qed.

Lemma permutations2_elem {A} (l : list A) (x y : A) :
  (x, y) ∈ permutations2 l → x ∈ l ∧ y ∈ l.
Proof.
  rewrite elem_of_permutations2. intros (i & j & _ & ? & ?).
  split; by eapply list_elem_of_lookup_2.
Qed.

(** *** The seed *)

Lemma seed_fold_lookup (keys : list (nat * nat)) (d : pb_table) k :
  foldl (λ d uw, <[uw := 0%Z]> d) d keys !! k
  = if decide (k ∈ keys) then Some 0%Z else d !! k.
Proof.
  revert d. induction keys as [|k' keys IH]; intros d; simpl.
  - destruct (decide (k ∈ @nil (nat * nat))) as [H|]; [by apply elem_of_nil in H|done].
  - rewrite IH. destruct (decide (k ∈ keys)) as [Hin|Hnin].
    + rewrite decide_True by by right. done.
    + destruct (decide (k = k')) as [->|Hne].
      * rewrite decide_True by left. by rewrite lookup_insert_eq.
      * rewrite decide_False by (intros [?|?]%elem_of_cons; done).
        by rewrite lookup_insert_ne.
Qed.

Lemma pb_seed_lookup G v k :
  pb_seed G v !! k
  = if decide (k ∈ permutations2 (neighbors G v)) then Some 0%Z else None.
Proof. unfold pb_seed. by rewrite seed_fold_lookup, lookup_empty. Qed.

Lemma odict_set_keys_NoDup {K V} `{EqDecision K} (d : odict K V) k v :
  NoDup (odict_keys d) → NoDup (odict_keys (odict_set k v d)).
Proof.
  intros Hnd. destruct (odict_get k d) as [v0|] eqn:Hget.
  - by rewrite (odict_keys_set_in _ _ _ v0).
  - rewrite odict_keys_set_new by done. apply NoDup_app. split; [done|]. split.
    + intros k' Hk' ->%list_elem_of_singleton.
      apply odict_get_is_Some in Hk' as [??]. congruence.
    + apply NoDup_singleton.
Qed.

Lemma pb_init_fold (G : Graph) (arr : list nat) (d : pb_dict) :
  NoDup (odict_keys d) →
  let d' := foldl (λ d vertex, odict_set vertex (pb_seed G vertex) d) d arr in
  NoDup (odict_keys d')
  ∧ ∀ v, odict_get v d'
         = if decide (v ∈ arr) then Some (pb_seed G v) else odict_get v d.
Proof.
  revert d. induction arr as [|a arr IH]; intros d Hnd; simpl.
  - split; [done|]. intros v. destruct (decide (v ∈ @nil nat)) as [H|]; [by apply elem_of_nil in H|done].
  - destruct (IH (odict_set a (pb_seed G a) d)) as [Hnd' Hget].
    { by apply odict_set_keys_NoDup. }
    split; [done|]. intros v. rewrite Hget.
    destruct (decide (v ∈ arr)) as [Hin|Hnin].
    + rewrite decide_True by by right. done.
    + rewrite odict_get_set. destruct (decide (a = v)) as [->|Hne].
      * rewrite decide_True by left. done.
      * rewrite decide_False by (intros [?|?]%elem_of_cons; done). done.
Qed.

Lemma pb_init_get G arr v :
  odict_get v (pb_init G arr) = if decide (v ∈ arr) then Some (pb_seed G v) else None.
Proof.
  unfold pb_init. destruct (pb_init_fold G arr []) as [_ H]; [constructor|].
  by rewrite H.
Qed.

Lemma pb_init_NoDup G arr : NoDup (odict_keys (pb_init G arr)).
Proof. unfold pb_init. by destruct (pb_init_fold G arr []) as [H _]; [constructor|]. Qed.

(** With the candidates listed once each, the dictionary lists them in
    the same order. *)
Lemma pb_init_keys G arr :
  NoDup arr → odict_keys (pb_init G arr) = arr.
Proof.
  unfold pb_init. intros Hnd.
  assert (∀ d : pb_dict,
            (∀ a, a ∈ arr → odict_get a d = None) →
            odict_keys (foldl (λ d vertex, odict_set vertex (pb_seed G vertex) d) d arr)
            = odict_keys d ++ arr) as H.
  { induction Hnd as [|a arr Ha Hnd IH]; intros d Hfresh; simpl.
    - by rewrite app_nil_r.
    - rewrite IH.
      + rewrite odict_keys_set_new by (apply Hfresh; left). by rewrite <-app_assoc.
      + intros b Hb. rewrite odict_get_set_ne; [apply Hfresh; by right|].
        intros ->. done. }
  by rewrite H.
Qed.

(** *** What the counting loop keeps true *)

(** The dictionary holds, for each of its vertices and each seeded pair,
    twice the number of triples counted so far in either direction. *)
Definition pb_repr (G : Graph) (keys : list nat) (cnt : nat → nat → nat → nat)
    (dic : pb_dict) : Prop :=
  odict_keys dic = keys
  ∧ ∀ v tbl, odict_get v dic = Some tbl →
      ∀ u w, tbl !! (u, w)
             = if decide ((u, w) ∈ permutations2 (neighbors G v))
               then Some (2 * Z.of_nat (cnt v u w + cnt v w u))%Z
               else None.

Lemma pb_repr_ext G keys cnt cnt' dic :
  (∀ v u w, cnt v u w = cnt' v u w) →
  pb_repr G keys cnt dic → pb_repr G keys cnt' dic.
Proof.
  intros Heq [Hk Hd]. split; [done|]. intros v tbl Hv u w.
  rewrite (Hd v tbl Hv). by rewrite !Heq.
Qed.

Lemma pb_repr_init G arr :
  pb_repr G (odict_keys (pb_init G arr)) (λ _ _ _, 0) (pb_init G arr).
Proof.
  split; [done|]. intros v tbl. rewrite pb_init_get.
  case_decide; [|done]. intros [= <-] u w. by rewrite pb_seed_lookup.
Qed.

Lemma incr2_twice (tbl : pb_table) a c x y :
  tbl !! (a, c) = Some x → tbl !! (c, a) = Some y →
  ∃ tbl', (let* d1 := incr2 (a, c) tbl in incr2 (c, a) d1) = Ok tbl'
          ∧ ∀ k, tbl' !! k
                 = (λ z, z + (if decide (k = (a, c)) then 2 else 0)
                           + (if decide (k = (c, a)) then 2 else 0))%Z <$> tbl !! k.
Proof.
  intros Hx Hy. unfold incr2. rewrite Hx. simpl.
  destruct (decide ((a, c) = (c, a))) as [Heq|Hne].
  - rewrite <-Heq. rewrite lookup_insert_eq. simpl. eexists. split; [done|].
    intros k. rewrite insert_insert_eq, lookup_insert.
    destruct (decide ((a, c) = k)) as [<-|Hk].
    + rewrite Hx. simpl. rewrite !decide_True by done. f_equal; lia.
    + rewrite !decide_False by done. destruct (tbl !! k); simpl; f_equal; lia.
  - rewrite lookup_insert_ne by done. rewrite Hy. simpl. eexists. split; [done|].
    intros k. rewrite !lookup_insert.
    destruct (decide ((c, a) = k)) as [Hk1|Hk1];
      destruct (decide ((a, c) = k)) as [Hk2|Hk2].
    + congruence.
    + rewrite <-Hk1, Hy. simpl. rewrite decide_False, decide_True by done. f_equal; lia.
    + rewrite <-Hk2, Hx. simpl. rewrite decide_True, decide_False by done. f_equal; lia.
    + rewrite !decide_False by done. destruct (tbl !! k); simpl; f_equal; lia.
Qed.

Lemma count_triplet_repr G keys cnt dic a b c :
  pb_repr G keys cnt dic →
  (b ∈ keys → (a, c) ∈ permutations2 (neighbors G b)) →
  ∃ dic', count_triplet a b c dic = Ok dic'
          ∧ pb_repr G keys
              (λ v u w, cnt v u w + if decide (v = b ∧ u = a ∧ w = c) then 1 else 0)
              dic'.
Proof.
  intros [Hk Hd] Hkey. unfold count_triplet.
  destruct (odict_get b dic) as [tbl|] eqn:Hb.
  - assert (b ∈ keys) as Hbk.
    { rewrite <-Hk. apply odict_get_is_Some. eauto. }
    specialize (Hkey Hbk). pose proof (permutations2_sym _ _ _ Hkey) as Hkey'.
    pose proof (Hd b tbl Hb) as Htbl.
    destruct (incr2_twice tbl a c (2 * Z.of_nat (cnt b a c + cnt b c a))
                (2 * Z.of_nat (cnt b c a + cnt b a c))) as (tbl' & Hrun & Hlook).
    { rewrite (Htbl a c). by rewrite decide_True. }
    { rewrite (Htbl c a). by rewrite decide_True. }
    exists (odict_set b tbl' dic). split.
    { destruct (incr2 (a, c) tbl) as [d1|]; simpl in *; [|done]. by rewrite Hrun. }
    split; [by erewrite odict_keys_set_in|].
    intros v tbl0. rewrite odict_get_set.
    destruct (decide (b = v)) as [<-|Hne].
    + intros [= <-] u w. rewrite Hlook, (Htbl u w).
      destruct (decide ((u, w) ∈ permutations2 (neighbors G b))); [|done].
      simpl. f_equal;
      repeat case_decide; simplify_eq; try lia; naive_solver.
    + intros Hv u w. rewrite (Hd v tbl0 Hv). case_decide; [|done].
      f_equal; repeat case_decide; try lia; naive_solver.
  - eexists. split; [done|]. split; [done|]. intros v tbl Hv u w.
    rewrite (Hd v tbl Hv). case_decide; [|done].
    f_equal; repeat case_decide; try lia; naive_solver.
Qed.

Lemma count_triplets_repr G keys cnt dic p :
  pb_repr G keys cnt dic →
  (∀ a b c, has_triple a b c p → b ∈ keys → (a, c) ∈ permutations2 (neighbors G b)) →
  ∃ dic', count_triplets p dic = Ok dic'
          ∧ pb_repr G keys (λ v u w, cnt v u w + triple_count u v w p) dic'.
Proof.
  revert cnt dic. induction p as [|a [|b [|c p]] IH]; intros cnt dic Hrepr Hkeys;
    try (eexists; split; [done|]; eapply pb_repr_ext; [|done]; intros; simpl; lia).
  destruct (count_triplet_repr G keys cnt dic a b c Hrepr) as (dic1 & Hrun1 & Hrepr1).
  { intros Hb. apply Hkeys; [|done]. by left. }
  destruct (IH _ dic1 Hrepr1) as (dic2 & Hrun2 & Hrepr2).
  { intros a' b' c' Ht. apply Hkeys. by right. }
  exists dic2. split.
  - change (count_triplets (a :: b :: c :: p) dic)
      with (rbind (count_triplet a b c dic) (count_triplets (b :: c :: p))).
    by rewrite Hrun1.
  - eapply pb_repr_ext; [|done]. intros v u w.
    change (triple_count u v w (a :: b :: c :: p))
      with ((if decide (a = u ∧ b = v ∧ c = w) then 1 else 0)
            + triple_count u v w (b :: c :: p)).
    repeat case_decide; try lia; naive_solver.
Qed.

(** *** The loop over all shortest paths *)

(** The triples counted in a list of paths. *)
Definition triples_in (ps : list (list nat)) (v u w : nat) : nat :=
  sum_list (triple_count u v w <$> ps).

(** What [seen] holds while the paths from source [s] are visited, [pre]
    being those visited already: the swapped ends of every listed path
    that runs from a smaller source to a greater or equal end. *)
Definition seen_ok (G : Graph) (s : nat) (pre : list (list nat))
    (seen : gset (nat * nat)) : Prop :=
  ∀ a b, (a, b) ∈ seen ↔
         (b < s ∧ b ≤ a ∧ a ∈ reachable_from G b)
         ∨ (b = s ∧ s ≤ a ∧ ∃ q, q ∈ pre ∧ last q = Some a).

Lemma path_closed_singleton (p : list nat) s :
  head p = Some s → last p = Some s → NoDup p → p = [s].
Proof.
  destruct p as [|x p]; [done|]. intros [= ->] Hl Hnd.
  destruct p as [|y p]; [done|]. exfalso.
  apply NoDup_cons in Hnd as [Hnin _]. apply Hnin.
  apply last_Some_elem_of. by rewrite last_cons_cons in Hl.
Qed.

Lemma forward_spec p s t :
  head p = Some s → last p = Some t → forward p = bool_decide (s < t).
Proof. intros Hh Hl. unfold forward. by rewrite Hh, Hl. Qed.

Lemma triples_in_cons p ps v u w :
  triples_in (p :: ps) v u w = triple_count u v w p + triples_in ps v u w.
Proof. done. Qed.

Lemma triples_in_app ps qs v u w :
  triples_in (ps ++ qs) v u w = triples_in ps v u w + triples_in qs v u w.
Proof. unfold triples_in. by rewrite fmap_app, sum_list_with_app. Qed.

Lemma shortest_path_triples G s p a b c :
  p ∈ get_all_shortest_paths G s → has_triple a b c p →
  (a, c) ∈ permutations2 (neighbors G b).
Proof.
  intros (_ & Hnd & Hwalk & Hlt)%shortest_path_ok Ht.
  destruct (has_triple_neighbors G p a b c) as (? & ? & ?); [done..|].
  by apply permutations2_distinct.
Qed.

Lemma reachable_from_elem G s t :
  t ∈ reachable_from G s ↔ ∃ q, q ∈ get_all_shortest_paths G s ∧ last q = Some t.
Proof. unfold reachable_from. apply list_elem_of_omap. Qed.

Lemma pb_visit_source G keys s pre rest cnt dic seen :
  s < vcount G → pre ++ rest = get_all_shortest_paths G s →
  pb_repr G keys cnt dic → seen_ok G s pre seen →
  ∃ dic' seen',
    rfoldl pb_visit (dic, seen) rest = Ok (dic', seen')
    ∧ pb_repr G keys
        (λ v u w, cnt v u w + triples_in (filter (λ p, forward p = true) rest) v u w)
        dic'
    ∧ seen_ok G s (pre ++ rest) seen'.
Proof.
  intros Hs. revert pre cnt dic seen.
  induction rest as [|p rest IH]; intros pre cnt dic seen Hall Hrepr Hseen.
  { exists dic, seen. split; [done|]. split; [|by rewrite app_nil_r].
    eapply pb_repr_ext; [|done]. intros. unfold triples_in. simpl. lia. }
  assert (p ∈ get_all_shortest_paths G s) as Hp.
  { rewrite <-Hall. apply elem_of_app. right. left. }
  pose proof (shortest_path_ok G s p Hp) as (Hhead & Hnd & Hwalk & Hlt).
  destruct (last p) as [t|] eqn:Hlast; last first.
  { apply last_None in Hlast. by subst. }
  assert (t ∈ reachable_from G s) as Hreach.
  { apply reachable_from_elem. eauto. }
  assert (∀ dic1 seen1 cnt1,
            pb_visit (dic, seen) p = Ok (dic1, seen1) →
            pb_repr G keys cnt1 dic1 →
            (∀ v u w, cnt1 v u w
                      = cnt v u w + if forward p then triple_count u v w p else 0) →
            seen_ok G s (pre ++ [p]) seen1 →
            ∃ dic' seen',
              rfoldl pb_visit (dic, seen) (p :: rest) = Ok (dic', seen')
              ∧ pb_repr G keys
                  (λ v u w, cnt v u w
                            + triples_in (filter (λ p, forward p = true) (p :: rest)) v u w)
                  dic'
              ∧ seen_ok G s (pre ++ p :: rest) seen') as Hcont.
  { intros dic1 seen1 cnt1 Hrun Hrepr1 Hcnt1 Hseen1.
    destruct (IH (pre ++ [p]) cnt1 dic1 seen1) as (dic' & seen' & Hrun' & Hrepr' & Hseen');
      [by rewrite <-app_assoc|done..|].
    exists dic', seen'. split; [simpl; by rewrite Hrun|].
    split; [|by rewrite <-app_assoc in Hseen'].
    eapply pb_repr_ext; [|done]. intros v u w. simpl. rewrite Hcnt1, filter_cons.
    destruct (decide (forward p = true)) as [Hf|Hf].
    - rewrite Hf, triples_in_cons. lia.
    - apply not_true_is_false in Hf. rewrite Hf. lia. }
  assert (pb_visit (dic, seen) p
          = if bool_decide ((s, t) ∈ seen) then Ok (dic, seen)
            else let* dic' := count_triplets p dic in Ok (dic', {[ (t, s) ]} ∪ seen))
    as Hvisit.
  { unfold pb_visit. by rewrite Hhead, Hlast. }
  rewrite (forward_spec p s t) in Hcont by done.
  unfold seen_ok in Hseen |- *.
  destruct (decide ((s, t) ∈ seen)) as [Hin|Hnin].
  - (* skipped: the path runs back to a smaller source, or is a second
       path from [s] to itself *)
    rewrite bool_decide_eq_true_2 in Hvisit by done.
    apply Hseen in Hin as Hcase.
    assert (¬ s < t) as Hge by (destruct Hcase as [(?&?&?)|(?&?&?)]; lia).
    rewrite bool_decide_eq_false_2 in Hcont by done.
    eapply Hcont; [done|done|intros; lia|].
    intros a b. rewrite Hseen. split.
    + intros [?|(-> & ? & q & Hq & Hlq)]; [by left|]. right.
      split; [done|]. split; [done|]. exists q. split; [|done].
      apply elem_of_app. by left.
    + intros [?|(-> & Hsa & q & Hq & Hlq)]; [by left|].
      apply elem_of_app in Hq as [Hq|Hq%list_elem_of_singleton].
      * right. eauto.
      * subst q. rewrite Hlast in Hlq. injection Hlq as <-.
        assert (t = s) as -> by lia. apply Hseen in Hin. done.
  - (* visited *)
    rewrite bool_decide_eq_false_2 in Hvisit by done.
    assert (s ≤ t) as Hle.
    { destruct (decide (s ≤ t)) as [|Hgt]; [done|]. exfalso. apply Hnin, Hseen. left.
      split; [lia|]. split; [lia|]. by apply reachable_from_sym. }
    destruct (count_triplets_repr G keys cnt dic p Hrepr) as (dic1 & Hrun1 & Hrepr1).
    { intros a b c Ht _. by eapply shortest_path_triples. }
    rewrite Hrun1 in Hvisit. simpl in Hvisit.
    eapply Hcont; [done|done| |].
    + intros v u w. case_bool_decide; [done|].
      assert (t = s) as -> by lia.
      rewrite (path_closed_singleton p s) by done. done.
    + intros a b. rewrite elem_of_union, elem_of_singleton, Hseen. split.
      * intros [[= -> ->]|[?|(-> & ? & q & Hq & Hlq)]].
        -- right. split; [done|]. split; [done|]. exists p. split; [|done].
           apply elem_of_app. right. left.
        -- by left.
        -- right. split; [done|]. split; [done|]. exists q. split; [|done].
           apply elem_of_app. by left.
      * intros [?|(-> & Hsa & q & Hq & Hlq)]; [right; by left|].
        apply elem_of_app in Hq as [Hq|Hq%list_elem_of_singleton].
        -- right. right. eauto.
        -- subst q. rewrite Hlast in Hlq. injection Hlq as <-. by left.
Qed.

Lemma pb_visit_sources G keys m s cnt dic seen :
  s + m = vcount G → pb_repr G keys cnt dic → seen_ok G s [] seen →
  ∃ dic' seen',
    rfoldl pb_visit (dic, seen) (concat (get_all_shortest_paths G <$> seq s m))
    = Ok (dic', seen')
    ∧ pb_repr G keys
        (λ v u w, cnt v u w
                  + triples_in (filter (λ p, forward p = true)
                                  (concat (get_all_shortest_paths G <$> seq s m))) v u w)
        dic'.
Proof.
  revert s cnt dic seen. induction m as [|m IH]; intros s cnt dic seen Hsm Hrepr Hseen.
  { exists dic, seen. split; [done|]. eapply pb_repr_ext; [|done].
    intros. unfold triples_in. simpl. lia. }
  simpl. rewrite rfoldl_app.
  destruct (pb_visit_source G keys s [] (get_all_shortest_paths G s) cnt dic seen)
    as (dic1 & seen1 & Hrun1 & Hrepr1 & Hseen1); [lia|done..|].
  rewrite Hrun1. simpl.
  destruct (IH (S s) _ dic1 seen1 ltac:(lia) Hrepr1) as (dic2 & seen2 & Hrun2 & Hrepr2).
  { intros a b. rewrite (Hseen1 a b). simpl. split.
    - intros [(? & ? & ?)|(-> & ? & ?)]; left.
      + split; [lia|]. done.
      + split; [lia|]. split; [done|]. by apply reachable_from_elem.
    - intros [(Hb & ? & Hr)|(_ & _ & q & ?%elem_of_nil & _)]; [|done].
      destruct (decide (b = s)) as [->|].
      + right. split; [done|]. split; [done|]. by apply reachable_from_elem.
      + left. split; [lia|]. done. }
  exists dic2, seen2. split; [done|]. eapply pb_repr_ext; [|done].
  intros v u w. simpl. rewrite filter_app, triples_in_app. by rewrite Nat.add_assoc.
Qed.

(** [pair_betweenness] does not fail, lists the vertices of [arr] in
    order and holds, for each of them and each seeded pair, twice the
    number of traversals by undirected shortest paths. *)
Lemma pair_betweenness_spec G arr :
  ∃ dic, pair_betweenness G arr = Ok dic
         ∧ pb_repr G (odict_keys (pb_init G arr))
             (triples_in (undirected_shortest_paths G)) dic.
Proof.
  unfold pair_betweenness, all_pairs_shortest_paths, shortest_paths_table.
  destruct (pb_visit_sources G (odict_keys (pb_init G arr)) (vcount G) 0
              (λ _ _ _, 0) (pb_init G arr) ∅)
    as (dic & seen & Hrun & Hrepr); [done|apply pb_repr_init| |].
  { intros a b. split; [by intros ?%not_elem_of_empty|].
    intros [(? & _)|(_ & _ & q & ?%elem_of_nil & _)]; [lia|done]. }
  exists dic. rewrite Hrun. split; [done|].
  eapply pb_repr_ext; [|done]. intros v u w. simpl.
  unfold undirected_shortest_paths, all_pairs_shortest_paths, shortest_paths_table.
  done.
Qed.

Lemma traversals_triples G u v w :
  traversals G u v w
  = triples_in (undirected_shortest_paths G) v u w
    + triples_in (undirected_shortest_paths G) v w u.
Proof.
  unfold traversals, triples_in.
  induction (undirected_shortest_paths G) as [|p ps IH]; [done|].
  rewrite !fmap_cons. simpl. rewrite IH. lia.
Qed.

Lemma traversals_sym G u v w : traversals G u v w = traversals G w v u.
Proof. rewrite !traversals_triples. lia. Qed.

(** The table of a vertex of [arr], as [pair_betweenness] returns it. *)
Lemma pair_betweenness_table G arr dic v :
  pair_betweenness G arr = Ok dic → v ∈ arr →
  ∃ tbl, odict_get v dic = Some tbl
         ∧ ∀ u w, tbl !! (u, w)
                  = if decide ((u, w) ∈ permutations2 (neighbors G v))
                    then Some (2 * Z.of_nat (traversals G u v w))%Z
                    else None.
Proof.
  intros Hrun Hv. destruct (pair_betweenness_spec G arr) as (dic' & Hrun' & Hk & Hd).
  rewrite Hrun in Hrun'. injection Hrun' as <-.
  assert (is_Some (odict_get v dic)) as [tbl Htbl].
  { apply odict_get_is_Some. rewrite Hk. apply odict_get_is_Some.
    rewrite pb_init_get. rewrite decide_True by done. eauto. }
  exists tbl. split; [done|]. intros u w. rewrite (Hd v tbl Htbl).
  by rewrite traversals_triples.
Qed.

Lemma pair_betweenness_keys G arr dic :
  pair_betweenness G arr = Ok dic → NoDup arr → odict_keys dic = arr.
Proof.
  intros Hrun Hnd. destruct (pair_betweenness_spec G arr) as (dic' & Hrun' & Hk & _).
  rewrite Hrun in Hrun'. injection Hrun' as <-. by rewrite Hk, pb_init_keys.
Qed.

(** ** C3 *)

(** C3. [pair_betweenness] returns a table for every graph and every
    list [arr] of candidates.  For every vertex [v] of [arr] and all
    distinct neighbours [u], [w] of [v]: the pair [(u, w)] is seeded with
    zero; the entries for [(u, w)] and [(w, u)] are present and equal;
    and their value is twice the number of times an undirected shortest
    path (listed once, from its smaller end) traverses [u, v, w] in a
    row in either direction, so each such path adds 2 to both entries. *)
Theorem pair_betweenness_symmetric (G : Graph) (arr : list nat) :
  ∃ dic,
    pair_betweenness G arr = Ok dic
    ∧ ∀ v, v ∈ arr →
        ∃ seed tbl,
          odict_get v (pb_init G arr) = Some seed
          ∧ odict_get v dic = Some tbl
          ∧ ∀ u w, u ∈ neighbors G v → w ∈ neighbors G v → u ≠ w →
              seed !! (u, w) = Some 0%Z
              ∧ tbl !! (u, w) = Some (2 * Z.of_nat (traversals G u v w))%Z
              ∧ tbl !! (w, u) = tbl !! (u, w).
Proof.
  destruct (pair_betweenness_spec G arr) as (dic & Hrun & _).
  exists dic. split; [done|]. intros v Hv.
  destruct (pair_betweenness_table G arr dic v Hrun Hv) as (tbl & Htbl & Hval).
  exists (pb_seed G v), tbl. split; [|split; [done|]].
  { rewrite pb_init_get. by rewrite decide_True. }
  intros u w Hu Hw Hne.
  pose proof (permutations2_distinct _ u w Hu Hw Hne) as Huw.
  pose proof (permutations2_sym _ _ _ Huw) as Hwu.
  rewrite pb_seed_lookup, !Hval, !decide_True by done.
  by rewrite (traversals_sym G w v u).
Qed.

(** ** Matrices *)

(** An [n] by [n] matrix. *)
Definition square (n : nat) (M : matrix) : Prop :=
  length M = n ∧ Forall (λ row, length row = n) M.

(** The cell at [(i, j)]; [0] outside the matrix. *)
Definition entry (M : matrix) (i j : nat) : Z :=
  default 0%Z (M !! i ≫= (.!! j)).

Definition is_symmetric (M : matrix) : Prop :=
  ∀ i j, entry M i j = entry M j i.

Definition zero_diagonal (M : matrix) : Prop :=
  ∀ i, entry M i i = 0%Z.

Lemma square_lookup n (M : matrix) i j :
  square n M → i < n → j < n → M !! i ≫= (.!! j) = Some (entry M i j).
Proof.
  intros [Hlen Hrows] Hi Hj. unfold entry.
  destruct (M !! i) as [row|] eqn:Hrow; simpl.
  - rewrite Forall_lookup in Hrows. apply Hrows in Hrow as Hl.
    destruct (lookup_lt_is_Some_2 row j) as [x Hx]; [lia|]. by rewrite Hx.
  - apply lookup_ge_None in Hrow. lia.
Qed.

Lemma square_row n (M : matrix) i :
  square n M → i < n → ∃ row, M !! i = Some row ∧ length row = n.
Proof.
  intros [Hlen Hrows] Hi.
  destruct (lookup_lt_is_Some_2 M i) as [row Hrow]; [lia|].
  exists row. split; [done|]. rewrite Forall_lookup in Hrows. eauto.
Qed.

Lemma square_ncols n (M : matrix) : square n M → ncols M = n.
Proof.
  intros [Hlen Hrows]. unfold ncols. destruct M as [|row M]; simpl in *; [done|].
  by inversion Hrows.
Qed.

Lemma square_nrows n (M : matrix) : square n M → nrows M = n.
Proof. by intros [? _]. Qed.

Lemma mat_get_square n (M : matrix) i j :
  square n M → i < n → j < n → mat_get M i j = Ok (entry M i j).
Proof. intros. unfold mat_get. by erewrite square_lookup. Qed.

(** Row-major flattening of a matrix whose rows all have length [n]. *)
Lemma concat_lookup_uniform {A} n (L : list (list A)) i j :
  Forall (λ row, length row = n) L → j < n →
  concat L !! (i * n + j) = L !! i ≫= (.!! j).
Proof.
  intros HL Hj. revert i. induction HL as [|row L Hrow HL IH]; intros i; simpl.
  - by rewrite !lookup_nil.
  - destruct i as [|i]; simpl.
    + rewrite lookup_app_l; [done|lia].
    + rewrite lookup_app_r; [|lia]. rewrite <-IH. f_equal. lia.
Qed.

Lemma length_concat_uniform {A} n (L : list (list A)) :
  Forall (λ row, length row = n) L → length (concat L) = length L * n.
Proof. induction 1; simpl; [done|]. rewrite length_app. lia. Qed.

Lemma fill_diagonal_lookup {A} (L : list (list A)) (x : A) i j :
  fill_diagonal L x !! i ≫= (.!! j)
  = row ← L !! i; if bool_decide (i = j ∧ j < length row) then Some x else row !! j.
Proof.
  unfold fill_diagonal. rewrite list_lookup_imap.
  destruct (L !! i) as [row|]; simpl; [|done].
  case_bool_decide as Hij.
  - destruct Hij as [-> ?]. by rewrite list_lookup_insert_eq.
  - destruct (decide (i = j)) as [->|].
    + rewrite list_insert_ge; [done|lia].
    + by rewrite list_lookup_insert_ne.
Qed.

Lemma fill_diagonal_square {A} n (L : list (list A)) (x : A) :
  length L = n ∧ Forall (λ row, length row = n) L →
  length (fill_diagonal L x) = n ∧ Forall (λ row, length row = n) (fill_diagonal L x).
Proof.
  intros [Hlen Hrows]. unfold fill_diagonal. split; [by rewrite length_imap|].
  apply Forall_lookup. intros i row. rewrite list_lookup_imap.
  destruct (L !! i) as [row'|] eqn:Hrow; simpl; [|done].
  intros [= <-]. rewrite length_insert. rewrite Forall_lookup in Hrows. eauto.
Qed.

Lemma entry_fill_diagonal n (M : matrix) x i j :
  square n M → i < n → j < n →
  entry (fill_diagonal M x) i j = if decide (i = j) then x else entry M i j.
Proof.
  intros HM Hi Hj. unfold entry at 1. rewrite fill_diagonal_lookup.
  destruct (square_row n M i) as (row & Hrow & Hl); [done..|]. rewrite Hrow. simpl.
  unfold entry. rewrite Hrow. simpl.
  case_bool_decide as Hij; case_decide; try done; lia.
Qed.

Lemma entry_out_of_range n (M : matrix) i j :
  square n M → n ≤ i ∨ n ≤ j → entry M i j = 0%Z.
Proof.
  intros [Hlen Hrows] Hij. unfold entry.
  destruct (M !! i) as [row|] eqn:Hrow; simpl; [|done].
  rewrite Forall_lookup in Hrows. apply Hrows in Hrow as Hl.
  apply lookup_lt_Some in Hrow.
  rewrite lookup_ge_None_2; [done|lia].
Qed.

(** Two square matrices with the same cells are equal. *)
Lemma square_ext n (M N : matrix) :
  square n M → square n N →
  (∀ i j, i < n → j < n → entry M i j = entry N i j) → M = N.
Proof.
  intros HM HN Heq. apply list_eq. intros i.
  destruct (decide (i < n)) as [Hi|Hi].
  - destruct (square_row n M i) as (r1 & Hr1 & Hl1); [done..|].
    destruct (square_row n N i) as (r2 & Hr2 & Hl2); [done..|].
    rewrite Hr1, Hr2. f_equal. apply list_eq. intros j.
    destruct (decide (j < n)) as [Hj|Hj].
    + pose proof (square_lookup n M i j HM Hi Hj) as E1.
      pose proof (square_lookup n N i j HN Hi Hj) as E2.
      rewrite Hr1 in E1. rewrite Hr2 in E2. simpl in *. rewrite E1, E2.
      f_equal. auto.
    + rewrite !lookup_ge_None_2; [done|lia..].
  - destruct HM, HN. rewrite !lookup_ge_None_2; [done|lia..].
Qed.

(** *** The order on cells and [argmin] *)

Lemma cell_ltb_asym x y : cell_ltb x y = true → cell_ltb y x = false.
Proof.
  destruct x, y; simpl; try done.
  rewrite bool_decide_eq_true, bool_decide_eq_false. lia.
Qed.

Lemma cell_ltb_le_trans x y z :
  cell_ltb x y = true → cell_ltb z y = false → cell_ltb x z = true.
Proof.
  destruct x, y, z; simpl; try done.
  rewrite !bool_decide_eq_true, bool_decide_eq_false. lia.
Qed.

Lemma cell_le_trans x y z :
  cell_ltb y x = false → cell_ltb z y = false → cell_ltb z x = false.
Proof.
  destruct x, y, z; simpl; try done.
  rewrite !bool_decide_eq_false. lia.
Qed.

(** [k] is the first position of the least value of [l]. *)
Definition first_min (l : list cell) (k : nat) : Prop :=
  ∃ x, l !! k = Some x
       ∧ (∀ k' y, l !! k' = Some y → cell_ltb y x = false)
       ∧ (∀ k' y, k' < k → l !! k' = Some y → cell_ltb x y = true).

Lemma first_min_unique l k1 k2 : first_min l k1 → first_min l k2 → k1 = k2.
Proof.
  intros (x1 & H1 & Hmin1 & Hfst1) (x2 & H2 & Hmin2 & Hfst2).
  destruct (Nat.lt_trichotomy k1 k2) as [Hlt|[->|Hlt]]; [|done|].
  - apply Hfst2 in H1; [|done]. apply Hmin1 in H2. congruence.
  - apply Hfst1 in H2; [|done]. apply Hmin2 in H1. congruence.
Qed.

Lemma argmin_from_first_min l pre bi b :
  pre !! bi = Some b → first_min pre bi →
  first_min (pre ++ l) (argmin_from bi b (length pre) l).
Proof.
  revert pre bi b. induction l as [|x l IH]; intros pre bi b Hb Hfm; simpl.
  - by rewrite app_nil_r.
  - destruct Hfm as (b' & Hb' & Hmin & Hfst).
    assert (b' = b) as -> by congruence.
    replace (pre ++ x :: l) with ((pre ++ [x]) ++ l) by by rewrite <-app_assoc.
    replace (S (length pre)) with (length (pre ++ [x]))
      by (rewrite length_app; simpl; lia).
    destruct (cell_ltb x b) eqn:Hx.
    + apply IH.
      * by rewrite lookup_app_r, Nat.sub_diag.
      * exists x. split; [by rewrite lookup_app_r, Nat.sub_diag|]. split.
        -- intros k' y Hy. apply lookup_app_Some in Hy as [Hy|[_ Hy]].
           ++ apply cell_ltb_asym. eapply cell_ltb_le_trans; eauto.
           ++ apply list_lookup_singleton_Some in Hy as [_ <-].
              destruct x; simpl; [apply bool_decide_eq_false; lia|done].
        -- intros k' y Hk' Hy. rewrite lookup_app_l in Hy by done.
           eapply cell_ltb_le_trans; eauto.
    + apply IH.
      * apply lookup_app_l_Some. done.
      * exists b. split; [by apply lookup_app_l_Some|]. split.
        -- intros k' y Hy. apply lookup_app_Some in Hy as [Hy|[_ Hy]]; [eauto|].
           by apply list_lookup_singleton_Some in Hy as [_ <-].
        -- intros k' y Hk' Hy. apply lookup_lt_Some in Hb.
           rewrite lookup_app_l in Hy by lia. eauto.
Qed.

Lemma argmin_first_min l :
  l ≠ [] → ∃ k, argmin l = Ok k ∧ first_min l k.
Proof.
  destruct l as [|x l]; [done|]. intros _. simpl. eexists; split; [done|].
  apply (argmin_from_first_min l [x] 0 x); [done|].
  exists x. split; [done|]. split.
  - intros [|k'] y; simpl; [intros [= <-]|by rewrite lookup_nil].
    destruct x; simpl; [apply bool_decide_eq_false; lia|done].
  - intros; lia.
Qed.

Lemma first_min_lt l k : first_min l k → k < length l.
Proof. intros (x & Hx & _). by apply lookup_lt_Some in Hx. Qed.

(** *** [mat_min] *)

(** The matrix [mat_min] searches: the diagonal is masked by infinity. *)
Definition masked (M : matrix) : list (list cell) :=
  fill_diagonal ((λ row : list Z, Fin <$> row) <$> M) Inf.

Lemma masked_uniform n (M : matrix) :
  square n M → length (masked M) = n ∧ Forall (λ row, length row = n) (masked M).
Proof.
  intros [Hlen Hrows]. apply fill_diagonal_square. split.
  - by rewrite length_fmap.
  - apply Forall_fmap. eapply Forall_impl; [done|]. intros row Hr. simpl.
    by rewrite length_fmap.
Qed.

Lemma masked_lookup n (M : matrix) i j :
  square n M → i < n → j < n →
  concat (masked M) !! (i * n + j)
  = Some (if decide (i = j) then Inf else Fin (entry M i j)).
Proof.
  intros HM Hi Hj.
  rewrite (concat_lookup_uniform n); [|by apply masked_uniform|done].
  unfold masked. rewrite fill_diagonal_lookup, list_lookup_fmap.
  destruct (square_row n M i) as (row & Hrow & Hl); [done..|].
  rewrite Hrow. simpl. rewrite length_fmap.
  case_bool_decide as Hij; case_decide; try done; try lia.
  rewrite list_lookup_fmap. pose proof (square_lookup n M i j HM Hi Hj) as E.
  rewrite Hrow in E. simpl in E. by rewrite E.
Qed.

Lemma mat_min_first_min n (M : matrix) :
  square n M → 0 < n →
  ∃ k, mat_min M = Ok (k / n, k `mod` n, fill_diagonal M 0%Z)
       ∧ first_min (concat (masked M)) k ∧ k < n * n.
Proof.
  intros HM Hn. unfold mat_min. fold (masked M).
  destruct (argmin_first_min (concat (masked M))) as (k & -> & Hk).
  { intros Hnil. apply (f_equal length) in Hnil.
    rewrite (length_concat_uniform n) in Hnil by by apply masked_uniform.
    destruct (masked_uniform n M HM) as [Hl _]. rewrite Hl in Hnil. simpl in Hnil. nia. }
  exists k. simpl. rewrite (square_ncols n) by done. split; [done|]. split; [done|].
  apply first_min_lt in Hk.
  rewrite (length_concat_uniform n) in Hk by by apply masked_uniform.
  destruct (masked_uniform n M HM) as [Hl _]. by rewrite Hl in Hk.
Qed.

(** [mat_min] finds a least cell off the diagonal, the first one in
    row-major order; on a is_symmetric matrix that cell lies above the
    diagonal. *)
Lemma mat_min_spec n (M : matrix) :
  square n M → is_symmetric M → 2 ≤ n →
  ∃ i j, mat_min M = Ok (i, j, fill_diagonal M 0%Z)
         ∧ i < j < n
         ∧ (∀ i' j', i' < n → j' < n → i' ≠ j' → (entry M i j ≤ entry M i' j')%Z)
         ∧ (∀ i' j', i' < n → j' < n → i' ≠ j' → i' * n + j' < i * n + j →
              (entry M i j < entry M i' j')%Z).
Proof.
  intros HM Hsym Hn.
  destruct (mat_min_first_min n M) as (k & Hrun & (x & Hx & Hmin & Hfst) & Hk);
    [done|lia|].
  exists (k / n), (k `mod` n). split; [done|].
  set (i := k / n). set (j := k `mod` n).
  assert (k = i * n + j) as Hkij by (unfold i, j; rewrite Nat.mul_comm; apply Nat.div_mod; lia).
  assert (j < n) as Hj by (apply Nat.mod_upper_bound; lia).
  assert (i < n) as Hi by (apply Nat.Div0.div_lt_upper_bound; lia).
  rewrite Hkij in Hx. rewrite (masked_lookup n) in Hx by done.
  assert (i ≠ j) as Hij.
  { intros Heq. rewrite decide_True in Hx by done. injection Hx as <-.
    specialize (Hmin (0 * n + 1) (Fin (entry M 0 1))).
    rewrite (masked_lookup n) in Hmin by (done || lia).
    rewrite decide_False in Hmin by done. by specialize (Hmin eq_refl). }
  rewrite decide_False in Hx by done. injection Hx as <-.
  assert (∀ i' j', i' < n → j' < n → i' ≠ j' → (entry M i j ≤ entry M i' j')%Z) as Hle.
  { intros i' j' Hi' Hj' Hne.
    specialize (Hmin (i' * n + j') (Fin (entry M i' j'))).
    rewrite (masked_lookup n) in Hmin by done.
    rewrite decide_False in Hmin by done. specialize (Hmin eq_refl).
    simpl in Hmin. apply bool_decide_eq_false in Hmin. lia. }
  assert (∀ i' j', i' < n → j' < n → i' ≠ j' → i' * n + j' < i * n + j →
            (entry M i j < entry M i' j')%Z) as Hlt.
  { intros i' j' Hi' Hj' Hne Hbefore.
    specialize (Hfst (i' * n + j') (Fin (entry M i' j'))).
    rewrite (masked_lookup n) in Hfst by done.
    rewrite decide_False in Hfst by done.
    specialize (Hfst ltac:(lia) eq_refl).
    simpl in Hfst. by apply bool_decide_eq_true in Hfst. }
  split; [|done]. split; [|done].
  destruct (decide (i < j)) as [|Hge]; [done|].
  assert (j < i) as Hji by lia.
  specialize (Hlt j i Hj Hi ltac:(lia) ltac:(nia)).
  rewrite (Hsym j i) in Hlt. lia.
Qed.

(** *** Row and column operations *)

(** An [r] by [c] matrix. *)
Definition rect (r c : nat) (M : matrix) : Prop :=
  length M = r ∧ Forall (λ row, length row = c) M.

(** The old index of what sits at index [k] once index [j] is deleted. *)
Definition skip (j k : nat) : nat := if decide (k < j) then k else S k.

Lemma lookup_delete_skip {A} (l : list A) j k :
  delete j l !! k = l !! skip j k.
Proof.
  unfold skip. case_decide.
  - by apply list_lookup_delete_lt.
  - apply list_lookup_delete_ge. lia.
Qed.

Lemma rect_entry r c (M : matrix) i j :
  rect r c M → i < r → j < c → M !! i ≫= (.!! j) = Some (entry M i j).
Proof.
  intros [Hlen Hrows] Hi Hj. unfold entry.
  destruct (lookup_lt_is_Some_2 M i) as [row Hrow]; [lia|]. rewrite Hrow. simpl.
  rewrite Forall_lookup in Hrows. apply Hrows in Hrow as Hl.
  destruct (lookup_lt_is_Some_2 row j) as [x Hx]; [lia|]. by rewrite Hx.
Qed.

Lemma rect_entry_out r c (M : matrix) i j :
  rect r c M → r ≤ i ∨ c ≤ j → entry M i j = 0%Z.
Proof.
  intros [Hlen Hrows] Hij. unfold entry.
  destruct (M !! i) as [row|] eqn:Hrow; simpl; [|done].
  rewrite Forall_lookup in Hrows. apply Hrows in Hrow as Hl.
  apply lookup_lt_Some in Hrow. rewrite lookup_ge_None_2; [done|lia].
Qed.

Lemma rect_ncols r c (M : matrix) : rect r c M → 0 < r → ncols M = c.
Proof.
  intros [Hlen Hrows] Hr. unfold ncols. destruct M as [|row M]; simpl in *; [lia|].
  by inversion Hrows.
Qed.

Lemma add_row_into_spec r c (M : matrix) i j :
  rect r c M → i < r → j < r →
  ∃ M', add_row_into M i j = Ok M' ∧ rect r c M'
        ∧ ∀ a b, entry M' a b
                 = (entry M a b + if decide (a = i) then entry M j b else 0)%Z.
Proof.
  intros HM Hi Hj. pose proof HM as [Hlen Hrows]. unfold add_row_into.
  destruct (lookup_lt_is_Some_2 M i) as [ri Hri]; [lia|].
  destruct (lookup_lt_is_Some_2 M j) as [rj Hrj]; [lia|].
  rewrite Hri, Hrj. simpl. eexists; split; [done|].
  rewrite Forall_lookup in Hrows.
  pose proof (Hrows _ _ Hri) as Hli. pose proof (Hrows _ _ Hrj) as Hlj.
  split.
  - split; [by rewrite length_insert|]. apply Forall_insert; [by apply Forall_lookup|].
    rewrite length_zip_with. lia.
  - intros a b. unfold entry. destruct (decide (a = i)) as [->|Hne].
    + rewrite list_lookup_insert_eq by lia. rewrite Hri, Hrj. simpl.
      rewrite lookup_zip_with.
      destruct (rj !! b) as [x|] eqn:Hx; simpl.
      * destruct (lookup_lt_is_Some_2 ri b) as [y Hy].
        { apply lookup_lt_Some in Hx. lia. }
        rewrite Hy. simpl. lia.
      * rewrite (lookup_ge_None_2 ri b); [done|]. apply lookup_ge_None in Hx. lia.
    + rewrite list_lookup_insert_ne by done. lia.
Qed.

Lemma delete_row_spec r c (M : matrix) j :
  rect (S r) c M → j < S r →
  ∃ M', delete_row M j = Ok M' ∧ rect r c M'
        ∧ ∀ a b, entry M' a b = entry M (skip j a) b.
Proof.
  intros [Hlen Hrows] Hj. unfold delete_row, nrows.
  rewrite bool_decide_eq_true_2 by lia. eexists; split; [done|]. split.
  - split; [rewrite length_delete; [lia|apply lookup_lt_is_Some_2; lia]|].
    by apply Forall_delete.
  - intros a b. unfold entry. by rewrite lookup_delete_skip.
Qed.

Lemma add_col_into_spec r c (M : matrix) i j :
  rect r c M → 0 < r → i < c → j < c →
  ∃ M', add_col_into M i j = Ok M' ∧ rect r c M'
        ∧ ∀ a b, entry M' a b
                 = (entry M a b + if decide (b = i) then entry M a j else 0)%Z.
Proof.
  intros HM Hr Hi Hj. pose proof HM as [Hlen Hrows]. unfold add_col_into.
  rewrite (rect_ncols r c) by done. rewrite bool_decide_eq_true_2 by done.
  eexists; split; [done|]. split.
  - split; [by rewrite length_fmap|]. apply Forall_fmap.
    eapply Forall_impl; [done|]. intros row Hl. simpl. by rewrite length_insert.
  - intros a b. unfold entry. rewrite list_lookup_fmap.
    destruct (M !! a) as [row|] eqn:Hrow; simpl; [|by case_decide].
    rewrite Forall_lookup in Hrows. apply Hrows in Hrow as Hl.
    destruct (decide (b = i)) as [->|Hne].
    + rewrite list_lookup_insert_eq by (rewrite Hl; exact Hi). simpl.
      rewrite !list_lookup_total_alt.
      destruct (lookup_lt_is_Some_2 row i) as [x Hx]; [lia|].
      destruct (lookup_lt_is_Some_2 row j) as [y Hy]; [lia|].
      rewrite Hx, Hy. simpl. lia.
    + rewrite list_lookup_insert_ne by done. lia.
Qed.

Lemma delete_col_spec r c (M : matrix) j :
  rect r (S c) M → 0 < r → j < S c →
  ∃ M', delete_col M j = Ok M' ∧ rect r c M'
        ∧ ∀ a b, entry M' a b = entry M a (skip j b).
Proof.
  intros HM Hr Hj. pose proof HM as [Hlen Hrows]. unfold delete_col.
  rewrite (rect_ncols r (S c)) by done. rewrite bool_decide_eq_true_2 by done.
  eexists; split; [done|]. split.
  - split; [by rewrite length_fmap|]. apply Forall_fmap.
    eapply Forall_impl; [done|]. intros row Hl. simpl in *.
    rewrite length_delete; [lia|apply lookup_lt_is_Some_2; lia].
  - intros a b. unfold entry. rewrite list_lookup_fmap.
    destruct (M !! a) as [row|]; simpl; [|done]. by rewrite lookup_delete_skip.
Qed.

(** *** [reduce_matrix] *)

(** The matrix left when group [j] is merged into group [i]. *)
Definition merged_entry (M : matrix) (i j r c : nat) : Z :=
  if decide (r = c) then 0%Z
  else (entry M (skip j r) (skip j c)
        + (if decide (r = i) then entry M j (skip j c) else 0)
        + (if decide (c = i) then entry M (skip j r) j else 0))%Z.

Lemma reduce_matrix_spec n (M : matrix) :
  square (S n) M → is_symmetric M → 1 ≤ n →
  ∃ i j M',
    mat_min M = Ok (i, j, fill_diagonal M 0%Z)
    ∧ reduce_matrix M = Ok (i, j, M')
    ∧ i < j < S n
    ∧ (∀ i' j', i' < S n → j' < S n → i' ≠ j' → (entry M i j ≤ entry M i' j')%Z)
    ∧ square n M'
    ∧ ∀ r c, r < n → c < n → entry M' r c = merged_entry M i j r c.
Proof.
  intros HM Hsym Hn.
  destruct (mat_min_spec (S n) M) as (i & j & Hmin & Hij & Hleast & _); [done|done|lia|].
  exists i, j. unfold reduce_matrix, merge_at. rewrite Hmin. simpl.
  assert (square (S n) (fill_diagonal M 0%Z)) as HM0 by by apply fill_diagonal_square.
  destruct (add_row_into_spec (S n) (S n) (fill_diagonal M 0%Z) i j)
    as (M1 & -> & HM1 & E1); [done|lia..|]. simpl.
  destruct (delete_row_spec n (S n) M1 j) as (M2 & -> & HM2 & E2); [done|lia|]. simpl.
  destruct (add_col_into_spec n (S n) M2 i j) as (M3 & -> & HM3 & E3); [done|lia..|]. simpl.
  destruct (delete_col_spec n n M3 j) as (M4 & -> & HM4 & E4); [done|lia..|]. simpl.
  eexists; split; [done|]. split; [done|]. split; [done|]. split; [done|].
  split; [by apply fill_diagonal_square|].
  intros r c Hr Hc. rewrite (entry_fill_diagonal n) by done.
  unfold merged_entry. destruct (decide (r = c)) as [|Hrc]; [done|].
  rewrite E4, E3, !E2, !E1.
  assert (∀ a b, a < S n → b < S n → a ≠ b →
            entry (fill_diagonal M 0%Z) a b = entry M a b) as Hoff.
  { intros a b ???. rewrite (entry_fill_diagonal (S n)) by done. by rewrite decide_False. }
  assert (skip j r < S n ∧ skip j c < S n ∧ skip j r ≠ skip j c
          ∧ skip j r ≠ j ∧ skip j c ≠ j
          ∧ (skip j r = i ↔ r = i) ∧ (skip j c = i ↔ c = i)) as (?&?&?&?&?&Hri&Hci).
  { unfold skip. repeat case_decide; lia. }
  repeat case_decide; rewrite ?Hoff by (done || lia); try lia; tauto.
Qed.

(** Merging keeps the matrix is_symmetric. *)
Lemma merged_entry_sym (M : matrix) i j r c :
  is_symmetric M → merged_entry M i j r c = merged_entry M i j c r.
Proof.
  intros Hsym. unfold merged_entry. repeat case_decide; try lia;
    rewrite ?(Hsym (skip j r)), ?(Hsym j); lia.
Qed.

Lemma reduce_matrix_symmetric n (M M' : matrix) i j :
  square (S n) M → is_symmetric M → 1 ≤ n →
  reduce_matrix M = Ok (i, j, M') → is_symmetric M'.
Proof.
  intros HM Hsym Hn Hrun.
  destruct (reduce_matrix_spec n M) as (i' & j' & M'' & _ & Hrun' & _ & _ & HM' & E);
    [done..|].
  rewrite Hrun in Hrun'. injection Hrun' as <- <- <-.
  intros r c. destruct (decide (r < n ∧ c < n)) as [[??]|].
  - rewrite !E by done. by apply merged_entry_sym.
  - rewrite !(entry_out_of_range n) by (done || lia). done.
Qed.

(** *** Merging two groups of neighbours *)

Lemma iadd_pop_spec (vMap : list (list nat)) i j :
  i < j < length vMap →
  ∃ gi gj, vMap !! i = Some gi ∧ vMap !! j = Some gj
           ∧ iadd_pop vMap i j = Ok (<[i := gi ++ gj]> (delete j vMap)).
Proof.
  intros Hij. unfold iadd_pop.
  destruct (lookup_lt_is_Some_2 vMap i) as [gi Hgi]; [lia|].
  destruct (lookup_lt_is_Some_2 vMap j) as [gj Hgj]; [lia|].
  exists gi, gj. rewrite Hgi, Hgj. simpl. do 2 (split; [done|]).
  rewrite (bool_decide_eq_true_2 (i < j)) by lia.
  rewrite bool_decide_eq_true_2.
  - by rewrite list_insert_insert_eq.
  - rewrite length_insert, length_delete by (apply lookup_lt_is_Some_2; lia). lia.
Qed.

(** *** [matrix_min], the upper-triangle variant *)

(** The upper triangle from row [r] on. *)
Definition triu_from (n r : nat) : list (nat * nat) :=
  i ← seq r (n - r); (λ j, (i, j)) <$> seq (S i) (n - S i).

Lemma triu_indices_from n : triu_indices n = triu_from n 0.
Proof. unfold triu_indices, triu_from. by rewrite Nat.sub_0_r. Qed.

Lemma triu_from_unfold n r :
  r < n →
  triu_from n r = ((λ j, (r, j)) <$> seq (S r) (n - S r)) ++ triu_from n (S r).
Proof.
  intros Hr. unfold triu_from.
  replace (n - r) with (S (n - S r)) by lia. done.
Qed.

Lemma triu_from_nil n r : n ≤ r → triu_from n r = [].
Proof. intros Hr. unfold triu_from. by replace (n - r) with 0 by lia. Qed.

Lemma triu_from_lookup n r m i j :
  triu_from n r !! m = Some (i, j) → r ≤ i ∧ i < j < n.
Proof.
  remember (n - r) as d eqn:Hd. revert r m Hd.
  induction d as [|d IH]; intros r m Hd.
  - rewrite triu_from_nil by lia. by rewrite lookup_nil.
  - rewrite triu_from_unfold by lia. intros [H|[_ H]]%lookup_app_Some.
    + rewrite list_lookup_fmap in H.
      destruct (seq _ _ !! m) as [j'|] eqn:Hj; [|done].
      apply lookup_seq in Hj. injection H as <- <-. lia.
    + apply IH in H; lia.
Qed.

(** The upper triangle is listed in row-major order. *)
Lemma triu_from_increasing n r m1 m2 i1 j1 i2 j2 :
  triu_from n r !! m1 = Some (i1, j1) → triu_from n r !! m2 = Some (i2, j2) →
  m1 < m2 → i1 * n + j1 < i2 * n + j2.
Proof.
  remember (n - r) as d eqn:Hd. revert r m1 m2 Hd.
  induction d as [|d IH]; intros r m1 m2 Hd.
  - rewrite triu_from_nil by lia. by rewrite lookup_nil.
  - rewrite triu_from_unfold by lia. intros H1 H2 Hlt.
    apply lookup_app_Some in H1 as [H1|[Hm1 H1]];
      apply lookup_app_Some in H2 as [H2|[Hm2 H2]].
    + rewrite list_lookup_fmap in H1, H2.
      destruct (seq _ _ !! m1) as [a|] eqn:Ha; [|done].
      destruct (seq _ _ !! m2) as [b|] eqn:Hb; [|done].
      apply lookup_seq in Ha, Hb. simplify_eq/=. lia.
    + rewrite list_lookup_fmap in H1.
      destruct (seq _ _ !! m1) as [a|] eqn:Ha; [|done].
      apply lookup_seq in Ha. apply triu_from_lookup in H2. simplify_eq/=. nia.
    + apply lookup_lt_Some in H2. lia.
    + eapply IH; [| done | done |]; lia.
Qed.

Lemma triu_from_elem n r i j :
  r ≤ i → i < j < n → ∃ m, triu_from n r !! m = Some (i, j).
Proof.
  intros Hr Hij. apply list_elem_of_lookup_1. unfold triu_from.
  apply list_elem_of_bind. exists i. split.
  - apply list_elem_of_fmap. exists j. split; [done|]. apply elem_of_seq. lia.
  - apply elem_of_seq. lia.
Qed.

Lemma matrix_min_loop_spec n fuel r m :
  r < n → n - r ≤ fuel → m < length (triu_from n r) →
  ∃ m' t' row,
    matrix_min_loop fuel m (n - 1 - r) r = Ok (m', t', row)
    ∧ triu_from n r !! m = Some (row, n - t' + m').
Proof.
  revert r m. induction fuel as [|fuel IH]; intros r m Hr Hfuel Hm; [lia|].
  rewrite triu_from_unfold in Hm |- * by done.
  rewrite length_app, length_fmap, length_seq in Hm.
  simpl. case_bool_decide as Hrow.
  - assert (n - 1 - r ≠ 0) as Hne.
    { intros Hz. rewrite triu_from_nil in Hm by lia. simpl in Hm. lia. }
    rewrite bool_decide_eq_false_2 by done.
    destruct (IH (S r) (m - (n - 1 - r))) as (m' & t' & row & Hrun & Hlook); [lia..|].
    exists m', t', row. replace (n - 1 - r - 1) with (n - 1 - S r) by lia.
    split; [done|]. rewrite lookup_app_r; rewrite length_fmap, length_seq; [|lia].
    by replace (m - (n - S r)) with (m - (n - 1 - r)) by lia.
  - exists m, (n - 1 - r), r. split; [done|].
    rewrite lookup_app_l by (rewrite length_fmap, length_seq; lia).
    rewrite list_lookup_fmap, lookup_seq_lt by lia. simpl. do 2 f_equal. lia.
Qed.

Lemma upper_values n (M : matrix) (l : list (nat * nat)) acc :
  square n M → Forall (λ ij, ij.1 < n ∧ ij.2 < n) l →
  rfoldl (λ acc ij, let* x := mat_get M ij.1 ij.2 in Ok (acc ++ [Fin x])) acc l
  = Ok (acc ++ ((λ ij, Fin (entry M ij.1 ij.2)) <$> l)).
Proof.
  intros HM Hl. revert acc. induction Hl as [|[i j] l [Hi Hj] Hl IH]; intros acc; simpl.
  - by rewrite app_nil_r.
  - simpl in *. rewrite (mat_get_square n) by done. simpl. rewrite IH.
    by rewrite <-app_assoc.
Qed.

Lemma fill_diagonal_zero_id n (M : matrix) :
  square n M → zero_diagonal M → fill_diagonal M 0%Z = M.
Proof.
  intros HM Hz. apply (square_ext n); [by apply fill_diagonal_square|done|].
  intros i j Hi Hj. rewrite (entry_fill_diagonal n) by done.
  case_decide; [subst; by rewrite Hz|done].
Qed.

Lemma matrix_min_spec n (M : matrix) i j M' :
  square n M → is_symmetric M → 2 ≤ n →
  mat_min M = Ok (i, j, M') → matrix_min M = Ok (i, j).
Proof.
  intros HM Hsym Hn Hmin.
  destruct (mat_min_spec n M) as (i' & j' & Hmin' & Hij & Hle & Hlt); [done..|].
  rewrite Hmin in Hmin'. injection Hmin' as <- <- ->.
  unfold matrix_min. rewrite (square_nrows n) by done.
  rewrite (upper_values n); [|done|]; last first.
  { apply Forall_forall. intros [a b] [m Hm]%list_elem_of_lookup.
    rewrite triu_indices_from in Hm. apply triu_from_lookup in Hm. simpl. lia. }
  simpl. set (upper := (λ ij : nat * nat, Fin (entry M ij.1 ij.2)) <$> triu_indices n).
  destruct (triu_from_elem n 0 i j) as [m Hm]; [lia..|].
  assert (first_min upper m) as Hfm.
  { exists (Fin (entry M i j)). split; [|split].
    - unfold upper. by rewrite list_lookup_fmap, triu_indices_from, Hm.
    - intros k' y. unfold upper. rewrite list_lookup_fmap, triu_indices_from.
      destruct (triu_from n 0 !! k') as [[a b]|] eqn:Hk'; [|done].
      apply triu_from_lookup in Hk'. intros [= <-]. simpl.
      apply bool_decide_eq_false. specialize (Hle a b). lia.
    - intros k' y Hlt'. unfold upper. rewrite list_lookup_fmap, triu_indices_from.
      destruct (triu_from n 0 !! k') as [[a b]|] eqn:Hk'; [|done].
      intros [= <-]. simpl. apply bool_decide_eq_true.
      pose proof (triu_from_increasing n 0 k' m a b i j Hk' Hm Hlt').
      apply triu_from_lookup in Hk'. apply Hlt; lia. }
  destruct (argmin_first_min upper) as (k & -> & Hk).
  { intros Hnil. destruct Hfm as (? & Hx & _). by rewrite Hnil, lookup_nil in Hx. }
  assert (k = m) as -> by by eapply first_min_unique.
  simpl. destruct (matrix_min_loop_spec n n 0 m) as (m' & t' & row & Hrun & Hlook);
    [lia|lia|by apply lookup_lt_Some in Hm|].
  rewrite Nat.sub_0_r in Hrun. rewrite Hrun. simpl.
  rewrite Hm in Hlook. by injection Hlook as <- <-.
Qed.

(** ** C9 *)

(** C9. On a symmetric square matrix of dimension at least 2, [mat_min]
    succeeds and returns a pair [(i, j)] with [i < j] inside the matrix.
    Consequently [vMap[i] += vMap.pop(j)] stores the merged group at
    index [i], every other group below [j] keeps its index and the groups
    above [j] move down by one; and the row and column deletions of
    [reduce_matrix] are in bounds, so that it returns a symmetric square
    matrix one smaller. *)
Theorem mat_min_above_diagonal n (M : matrix) :
  square n M → is_symmetric M → 2 ≤ n →
  ∃ i j,
    mat_min M = Ok (i, j, fill_diagonal M 0%Z)
    ∧ i < j < n
    ∧ (∀ vMap : list (list nat), length vMap = n →
         ∃ gi gj vMap',
           vMap !! i = Some gi ∧ vMap !! j = Some gj
           ∧ iadd_pop vMap i j = Ok vMap'
           ∧ length vMap' = n - 1
           ∧ vMap' !! i = Some (gi ++ gj)
           ∧ ∀ k, k ≠ i → vMap' !! k = vMap !! (if decide (k < j) then k else S k))
    ∧ ∃ M', reduce_matrix M = Ok (i, j, M')
            ∧ square (n - 1) M' ∧ is_symmetric M'.
Proof.
  intros HM Hsym Hn. destruct n as [|n]; [lia|].
  destruct (reduce_matrix_spec n M) as (i & j & M' & Hmin & Hred & Hij & _ & HM' & E);
    [done|done|lia|].
  exists i, j. split; [done|]. split; [done|]. split.
  - intros vMap Hlen.
    destruct (iadd_pop_spec vMap i j) as (gi & gj & Hgi & Hgj & Hrun); [lia|].
    exists gi, gj. eexists. do 3 (split; [done|]).
    assert (length (delete j vMap) = n) as Hdel.
    { rewrite length_delete by (apply lookup_lt_is_Some_2; lia). lia. }
    split; [rewrite length_insert; lia|]. split.
    + apply list_lookup_insert_eq. lia.
    + intros k Hk. rewrite list_lookup_insert_ne by done. apply lookup_delete_skip.
  - exists M'. replace (S n - 1) with n by lia. split; [done|]. split; [done|].
    eapply reduce_matrix_symmetric; [done|done|lia|done].
Qed.

Definition mat_min_example : matrix :=
  [[0; 4; 2]; [4; 0; 2]; [2; 2; 0]]%Z.

Lemma mat_min_above_diagonal_witness :
  ∃ i j,
    mat_min mat_min_example = Ok (i, j, fill_diagonal mat_min_example 0%Z)
    ∧ i < j < 3
    ∧ (∀ vMap : list (list nat), length vMap = 3 →
         ∃ gi gj vMap',
           vMap !! i = Some gi ∧ vMap !! j = Some gj
           ∧ iadd_pop vMap i j = Ok vMap'
           ∧ length vMap' = 3 - 1
           ∧ vMap' !! i = Some (gi ++ gj)
           ∧ ∀ k, k ≠ i → vMap' !! k = vMap !! (if decide (k < j) then k else S k))
    ∧ ∃ M', reduce_matrix mat_min_example = Ok (i, j, M')
            ∧ square (3 - 1) M' ∧ is_symmetric M'.
Proof.
  apply (mat_min_above_diagonal 3 mat_min_example).
  - split; [reflexivity|]. repeat constructor.
  - intros [|[|[|i]]] [|[|[|j]]]; reflexivity.
  - lia.
Defined.

(** ** C10 *)

(** C10. On a symmetric square matrix of dimension at least 2 with a zero
    diagonal, [matrix_min] (the first least cell of the upper triangle)
    and [mat_min] (the first least cell off the diagonal) return the same
    index pair, [mat_min] leaves the matrix as it found it, and
    [reduce_matrix] computes the same result with either of them. *)
Theorem matrix_min_agrees_with_mat_min n (M : matrix) :
  square n M → is_symmetric M → zero_diagonal M → 2 ≤ n →
  ∃ i j,
    mat_min M = Ok (i, j, M)
    ∧ matrix_min M = Ok (i, j)
    ∧ i < j < n
    ∧ reduce_matrix_upper M = reduce_matrix M.
Proof.
  intros HM Hsym Hz Hn.
  destruct (mat_min_spec n M) as (i & j & Hmin & Hij & _); [done..|].
  rewrite (fill_diagonal_zero_id n) in Hmin by done.
  pose proof (matrix_min_spec n M i j M HM Hsym Hn Hmin) as Hupper.
  exists i, j. do 3 (split; [done|]).
  unfold reduce_matrix_upper, reduce_matrix. by rewrite Hmin, Hupper.
Qed.

Lemma matrix_min_agrees_with_mat_min_witness :
  ∃ i j,
    mat_min mat_min_example = Ok (i, j, mat_min_example)
    ∧ matrix_min mat_min_example = Ok (i, j)
    ∧ i < j < 3
    ∧ reduce_matrix_upper mat_min_example = reduce_matrix mat_min_example.
Proof.
  apply (matrix_min_agrees_with_mat_min 3 mat_min_example).
  - split; [reflexivity|]. repeat constructor.
  - intros [|[|[|i]]] [|[|[|j]]]; reflexivity.
  - intros [|[|[|i]]]; reflexivity.
  - lia.
Defined.

(** ** The clique matrix of a vertex *)

Lemma index_mapping_fold (l : list nat) (m : gmap nat nat) n x i :
  foldl (λ m ix, <[ix.2 := ix.1]> m) m (imap (λ k y, (n + k, y)) l) !! x = Some i →
  (n ≤ i ∧ l !! (i - n) = Some x) ∨ (m !! x = Some i ∧ x ∉ l).
Proof.
  revert m n. induction l as [|y l IH]; intros m n; simpl.
  - intros Hm. right. split; [done|]. by intros ?%elem_of_nil.
  - assert (imap ((λ k z, (n + k, z)) ∘ S) l = imap (λ k z, (S n + k, z)) l) as ->.
    { apply imap_ext. intros k z _. simpl. f_equal. lia. }
    intros [[Hn Hl]|[Hm Hx]]%IH.
    + left. split; [lia|]. replace (i - n) with (S (i - S n)) by lia. done.
    + simpl in Hm. rewrite Nat.add_0_r in Hm.
      apply lookup_insert_Some in Hm as [[-> <-]|[Hne Hm]].
      * left. split; [done|]. by rewrite Nat.sub_diag.
      * right. split; [done|]. by intros [?|?]%elem_of_cons.
Qed.

Lemma index_mapping_fold_keep (l : list nat) (m : gmap nat nat) n x :
  is_Some (m !! x) →
  is_Some (foldl (λ m ix, <[ix.2 := ix.1]> m) m (imap (λ k y, (n + k, y)) l) !! x).
Proof.
  revert m n. induction l as [|z l IH]; intros m n Hm; [done|]. simpl.
  assert (imap ((λ k z, (n + k, z)) ∘ S) l = imap (λ k z, (S n + k, z)) l) as ->.
  { apply imap_ext. intros k z' _. simpl. f_equal. lia. }
  apply IH. rewrite lookup_insert. case_decide; eauto.
Qed.

Lemma index_mapping_fold_elem (l : list nat) (m : gmap nat nat) n x :
  x ∈ l → is_Some (foldl (λ m ix, <[ix.2 := ix.1]> m) m (imap (λ k y, (n + k, y)) l) !! x).
Proof.
  revert m n. induction l as [|y l IH]; intros m n Hx; [by apply elem_of_nil in Hx|].
  simpl.
  assert (imap ((λ k z, (n + k, z)) ∘ S) l = imap (λ k z, (S n + k, z)) l) as ->.
  { apply imap_ext. intros k z _. simpl. f_equal. lia. }
  destruct (decide (x ∈ l)) as [Hin|Hnin]; [by apply IH|].
  apply elem_of_cons in Hx as [->|?]; [|done].
  apply index_mapping_fold_keep. rewrite lookup_insert_eq. eauto.
Qed.

(** The mapping sends a neighbour to a position where it stands. *)
Lemma index_mapping_lookup (nbrs : list nat) x i :
  index_mapping nbrs !! x = Some i → nbrs !! i = Some x.
Proof.
  unfold index_mapping, enumerate. intros Hm.
  assert (imap pair nbrs = imap (λ k y, (0 + k, y)) nbrs) as Himap by done.
  rewrite Himap in Hm. apply index_mapping_fold in Hm as [[_ Hl]|[Hm _]].
  - by rewrite Nat.sub_0_r in Hl.
  - by rewrite lookup_empty in Hm.
Qed.

Lemma index_mapping_elem (nbrs : list nat) x :
  x ∈ nbrs → is_Some (index_mapping nbrs !! x).
Proof.
  intros Hx. unfold index_mapping, enumerate.
  by apply (index_mapping_fold_elem nbrs ∅ 0 x).
Qed.

Lemma index_mapping_inj (nbrs : list nat) x y i :
  index_mapping nbrs !! x = Some i → index_mapping nbrs !! y = Some i → x = y.
Proof. intros Hx%index_mapping_lookup Hy%index_mapping_lookup. congruence. Qed.

Lemma index_mapping_NoDup (nbrs : list nat) x i :
  NoDup nbrs → nbrs !! i = Some x → index_mapping nbrs !! x = Some i.
Proof.
  intros Hnd Hi. destruct (index_mapping_elem nbrs x) as [j Hj].
  { by eapply list_elem_of_lookup_2. }
  pose proof (index_mapping_lookup _ _ _ Hj) as Hj'.
  by rewrite (NoDup_lookup _ _ _ _ Hnd Hi Hj').
Qed.

Lemma mat_set_spec n (M : matrix) i j x :
  square n M → i < n → j < n →
  ∃ M', mat_set M i j x = Ok M' ∧ square n M'
        ∧ ∀ i' j', entry M' i' j'
                   = if decide (i' = i ∧ j' = j) then x else entry M i' j'.
Proof.
  intros HM Hi Hj. destruct (square_row n M i HM Hi) as (row & Hrow & Hl).
  unfold mat_set. rewrite Hrow. rewrite bool_decide_eq_true_2 by lia.
  eexists. split; [done|]. destruct HM as [Hlen Hrows]. split.
  - split; [by rewrite length_insert|]. apply Forall_insert; [done|].
    by rewrite length_insert.
  - intros i' j'. unfold entry. destruct (decide (i' = i)) as [->|Hne].
    + rewrite list_lookup_insert_eq by lia. simpl. rewrite Hrow. simpl.
      destruct (decide (j' = j)) as [->|Hne'].
      * rewrite decide_True by done. by rewrite list_lookup_insert_eq by lia.
      * rewrite decide_False by naive_solver. by rewrite list_lookup_insert_ne.
    + rewrite list_lookup_insert_ne by done. rewrite decide_False by naive_solver. done.
Qed.

Lemma zeros_square n : square n (zeros n n).
Proof.
  unfold zeros. split; [by rewrite length_replicate|].
  apply Forall_replicate. by rewrite length_replicate.
Qed.

Lemma entry_zeros n i j : entry (zeros n n) i j = 0%Z.
Proof.
  unfold entry, zeros. destruct (replicate n _ !! i) as [row|] eqn:Hrow; [|done].
  apply lookup_replicate in Hrow as [-> _]. simpl.
  destruct (replicate n 0%Z !! j) as [x|] eqn:Hx; [|done].
  by apply lookup_replicate in Hx as [-> _].
Qed.

(** The score the table holds for the neighbours that stand, for the
    mapping, at positions [i] and [j]. *)
Definition clique_cell (nbrs : list nat) (pb : pb_table) (i j : nat) : Z :=
  match nbrs !! i, nbrs !! j with
  | Some u, Some w =>
      if decide (index_mapping nbrs !! u = Some i ∧ index_mapping nbrs !! w = Some j)
      then default 0%Z (pb !! (u, w))
      else 0%Z
  | _, _ => 0%Z
  end.

Lemma clique_cell_insert (nbrs : list nat) (pb : pb_table) u w x i j i' j' :
  pb !! (u, w) = None →
  index_mapping nbrs !! u = Some i → index_mapping nbrs !! w = Some j →
  clique_cell nbrs (<[(u, w) := x]> pb) i' j'
  = if decide (i' = i ∧ j' = j) then x else clique_cell nbrs pb i' j'.
Proof.
  intros Hnone Hu Hw. unfold clique_cell.
  pose proof (index_mapping_lookup _ _ _ Hu) as Hu'.
  pose proof (index_mapping_lookup _ _ _ Hw) as Hw'.
  destruct (decide (i' = i ∧ j' = j)) as [[-> ->]|Hne].
  - rewrite Hu', Hw'. rewrite decide_True by done. by rewrite lookup_insert_eq.
  - destruct (nbrs !! i') as [u'|] eqn:Hi'; [|done].
    destruct (nbrs !! j') as [w'|] eqn:Hj'; [|done].
    case_decide as Hmap; [|done]. destruct Hmap as [Hmu Hmw].
    rewrite lookup_insert_ne; [done|]. intros [= -> ->]. apply Hne. split; congruence.
Qed.

Lemma create_clique_spec (G : Graph) (v : nat) (pb : pb_table) :
  (∀ u w, is_Some (pb !! (u, w)) → u ∈ neighbors G v ∧ w ∈ neighbors G v) →
  ∃ clique,
    create_clique G v pb = Ok clique
    ∧ square (length (neighbors G v)) clique
    ∧ ∀ i j, entry clique i j
             = if decide (i = j) then 0%Z else clique_cell (neighbors G v) pb i j.
Proof.
  intros Hkeys. unfold create_clique. cbv zeta.
  set (nbrs := neighbors G v) in *. set (n := length nbrs).
  set (f := λ (uw : nat * nat) (score : Z) (acc : result matrix),
         let* clique := acc in
         let* i := of_option KeyError (index_mapping nbrs !! uw.1) in
         let* j := of_option KeyError (index_mapping nbrs !! uw.2) in
         mat_set clique i j score).
  assert ((∀ u w, is_Some (pb !! (u, w)) → u ∈ nbrs ∧ w ∈ nbrs) →
          ∃ M, map_fold f (Ok (zeros n n)) pb = Ok M ∧ square n M
               ∧ ∀ i j, entry M i j = clique_cell nbrs pb i j) as Hfold.
  { apply (map_fold_weak_ind
             (λ r (m : pb_table),
                (∀ u w, is_Some (m !! (u, w)) → u ∈ nbrs ∧ w ∈ nbrs) →
                ∃ M, r = Ok M ∧ square n M
                     ∧ ∀ i j, entry M i j = clique_cell nbrs m i j)).
    - intros _. exists (zeros n n). split; [done|]. split; [apply zeros_square|].
      intros i j. rewrite entry_zeros. unfold clique_cell.
      repeat case_match; try done; by rewrite lookup_empty.
    - intros [u w] x m r Hnone IH Hk.
      destruct IH as (M & -> & HM & Hentry).
      { intros u' w' Hs. apply Hk. rewrite lookup_insert_ne; [done|].
        intros [= <- <-]. rewrite Hnone in Hs. by destruct Hs. }
      destruct (Hk u w) as [Hu Hw]; [rewrite lookup_insert_eq; eauto|].
      destruct (index_mapping_elem nbrs u Hu) as [i Hi].
      destruct (index_mapping_elem nbrs w Hw) as [j Hj].
      pose proof (lookup_lt_Some _ _ _ (index_mapping_lookup _ _ _ Hi)) as Hilt.
      pose proof (lookup_lt_Some _ _ _ (index_mapping_lookup _ _ _ Hj)) as Hjlt.
      destruct (mat_set_spec n M i j x HM Hilt Hjlt) as (M' & Hset & HM' & Hentry').
      exists M'. split; [|split; [done|]].
      + unfold f. simpl. rewrite Hi, Hj. simpl. done.
      + intros i' j'. rewrite Hentry', Hentry.
        by rewrite (clique_cell_insert nbrs m u w x i j). }
  destruct (Hfold Hkeys) as (M & -> & HM & Hentry). simpl.
  eexists. split; [done|]. split; [by apply fill_diagonal_square|].
  intros i j. destruct (decide (i < n ∧ j < n)) as [[Hi Hj]|Hout].
  - rewrite (entry_fill_diagonal n) by done. case_decide; [done|]. apply Hentry.
  - rewrite (entry_out_of_range n); [|by apply fill_diagonal_square|lia].
    case_decide; [done|]. unfold clique_cell.
    destruct (nbrs !! i) as [u|] eqn:Hu; [|done].
    destruct (nbrs !! j) as [w|] eqn:Hw; [|done].
    apply lookup_lt_Some in Hu, Hw. unfold n in Hout. lia.
Qed.

(** Without parallel edges at the vertex, cell [(i, j)] holds the score
    of the [i]-th and the [j]-th neighbour. *)
Lemma clique_cell_NoDup (nbrs : list nat) (pb : pb_table) i j u w :
  NoDup nbrs → nbrs !! i = Some u → nbrs !! j = Some w →
  clique_cell nbrs pb i j = default 0%Z (pb !! (u, w)).
Proof.
  intros Hnd Hu Hw. unfold clique_cell. rewrite Hu, Hw.
  rewrite decide_True; [done|]. split; by apply index_mapping_NoDup.
Qed.

Lemma clique_cell_sym (nbrs : list nat) (pb : pb_table) i j :
  (∀ u w, pb !! (u, w) = pb !! (w, u)) →
  clique_cell nbrs pb i j = clique_cell nbrs pb j i.
Proof.
  intros Hsym. unfold clique_cell.
  destruct (nbrs !! i) as [u|], (nbrs !! j) as [w|]; try done.
  rewrite (Hsym u w). repeat case_decide; try done; tauto.
Qed.

Lemma clique_cell_nonneg (nbrs : list nat) (pb : pb_table) i j :
  (∀ k x, pb !! k = Some x → (0 ≤ x)%Z) → (0 ≤ clique_cell nbrs pb i j)%Z.
Proof.
  intros Hnn. unfold clique_cell.
  destruct (nbrs !! i) as [u|], (nbrs !! j) as [w|]; try done.
  case_decide; [|done]. destruct (pb !! (u, w)) as [x|] eqn:Hx; simpl; [eauto|done].
Qed.

Lemma clique_cell_pos (nbrs : list nat) (pb : pb_table) u w x :
  pb !! (u, w) = Some x → u ∈ nbrs → w ∈ nbrs → u ≠ w →
  ∃ i j, i ≠ j ∧ i < length nbrs ∧ j < length nbrs ∧ clique_cell nbrs pb i j = x.
Proof.
  intros Hx Hu Hw Hne.
  destruct (index_mapping_elem nbrs u Hu) as [i Hi].
  destruct (index_mapping_elem nbrs w Hw) as [j Hj].
  pose proof (index_mapping_lookup _ _ _ Hi) as Hi'.
  pose proof (index_mapping_lookup _ _ _ Hj) as Hj'.
  exists i, j. split; [congruence|].
  split; [by eapply lookup_lt_Some|]. split; [by eapply lookup_lt_Some|].
  unfold clique_cell. rewrite Hi', Hj', decide_True by done. by rewrite Hx.
Qed.

(** ** The greedy collapse *)

(** [(i, j)] is a least cell off the diagonal. *)
Definition least_off_diagonal (M : matrix) (i j : nat) : Prop :=
  i < length M ∧ j < length M ∧ i ≠ j
  ∧ ∀ i' j', i' < length M → j' < length M → i' ≠ j' →
             (entry M i j ≤ entry M i' j')%Z.

(** One step of the collapse, as the specification words it: for a least
    cell [(i, j)] off the diagonal, row and column [j] are added to row
    and column [i] and deleted, and group [j] is appended to group [i]. *)
Inductive greedy_merge :
  matrix * list (list nat) → matrix * list (list nat) → Prop :=
| greedy_merge_intro (M M' : matrix) (vMap : list (list nat)) i j gi gj :
    least_off_diagonal M i j → i < j →
    square (length M - 1) M' →
    (∀ r c, r < length M - 1 → c < length M - 1 →
            entry M' r c = merged_entry M i j r c) →
    vMap !! i = Some gi → vMap !! j = Some gj →
    greedy_merge (M, vMap) (M', <[i := gi ++ gj]> (delete j vMap)).

(** What every state of the collapse satisfies. *)
Definition collapse_ok (n : nat) (st : matrix * list (list nat)) : Prop :=
  square n st.1 ∧ is_symmetric st.1 ∧ (∀ i j, 0 ≤ entry st.1 i j)%Z
  ∧ length st.2 = n ∧ Forall (λ g, g ≠ []) st.2.

(** Some cell off the diagonal is positive. *)
Definition has_positive_cell (n : nat) (M : matrix) : Prop :=
  ∃ i j, i < n ∧ j < n ∧ i ≠ j ∧ (0 < entry M i j)%Z.

Lemma merged_entry_nonneg (M : matrix) i j r c :
  (∀ i j, 0 ≤ entry M i j)%Z → (0 ≤ merged_entry M i j r c)%Z.
Proof.
  intros Hnn. unfold merged_entry.
  pose proof (Hnn (skip j r) (skip j c)). pose proof (Hnn j (skip j c)).
  pose proof (Hnn (skip j r) j). repeat case_decide; lia.
Qed.

Lemma concat_Permutation {A} (l k : list (list A)) :
  l ≡ₚ k → concat l ≡ₚ concat k.
Proof.
  induction 1 as [|x l k _ IH|x y l|l k m _ IH1 _ IH2]; simpl.
  - done.
  - by rewrite IH.
  - rewrite !app_assoc. f_equiv. apply Permutation_app_comm.
  - by rewrite IH1.
Qed.

Lemma greedy_merge_ok n st st' :
  collapse_ok (S n) st → 1 ≤ n → greedy_merge st st' →
  collapse_ok n st' ∧ concat st'.2 ≡ₚ concat st.2.
Proof.
  intros (HM & Hsym & Hnn & Hlen & Hne) Hn Hstep.
  destruct Hstep as [M M' vMap i j gi gj Hleast Hij HM' Hentry Hgi Hgj].
  cbn [fst snd] in *. pose proof HM as [HlenM _]. rewrite HlenM in *.
  replace (S n - 1) with n in * by lia.
  destruct Hleast as (Hi & Hj & _ & _). rewrite HlenM in Hi, Hj.
  assert (length (delete j vMap) = n) as Hdel.
  { rewrite length_delete by (apply lookup_lt_is_Some_2; lia). lia. }
  unfold collapse_ok. cbn [fst snd].
  split; [split; [done|split; [|split; [|split]]]|].
  - intros r c. destruct (decide (r < n ∧ c < n)) as [[??]|].
    + rewrite !Hentry by done. by apply merged_entry_sym.
    + rewrite !(entry_out_of_range n) by (done || lia). done.
  - intros r c. destruct (decide (r < n ∧ c < n)) as [[??]|].
    + rewrite Hentry by done. by apply merged_entry_nonneg.
    + rewrite (entry_out_of_range n) by (done || lia). done.
  - by rewrite length_insert.
  - apply Forall_insert; [by apply Forall_delete|].
    rewrite Forall_lookup in Hne. specialize (Hne _ _ Hgi). by destruct gi.
  - set (D := delete j vMap) in *.
    assert (D !! i = Some gi) as HDi by (unfold D; by rewrite list_lookup_delete_lt).
    assert (<[i := gi ++ gj]> D ≡ₚ (gi ++ gj) :: delete i D) as Hins.
    { rewrite (delete_Permutation (<[i := gi ++ gj]> D) i (gi ++ gj)).
      - f_equiv. assert (delete i (<[i := gi ++ gj]> D) = delete i D) as ->; [|done].
        apply list_eq. intros k. rewrite !list_lookup_delete.
        case_decide; rewrite list_lookup_insert_ne by lia; done.
      - apply list_lookup_insert_eq. lia. }
    rewrite (concat_Permutation _ _ Hins).
    rewrite (concat_Permutation vMap (gj :: D)) by by apply delete_Permutation.
    cbn [concat].
    rewrite (concat_Permutation D (gi :: delete i D)) by by apply delete_Permutation.
    cbn [concat]. rewrite (app_assoc gj gi). f_equiv. apply Permutation_app_comm.
Qed.

Lemma greedy_merge_positive n st st' :
  collapse_ok (S n) st → 2 ≤ n → greedy_merge st st' →
  has_positive_cell (S n) st.1 → has_positive_cell n st'.1.
Proof.
  intros (HM & Hsym & Hnn & _) Hn Hstep Hpos.
  destruct Hstep as [M M' vMap i j gi gj Hleast Hij HM' Hentry Hgi Hgj].
  cbn [fst snd] in *. pose proof HM as [HlenM _]. rewrite HlenM in *.
  replace (S n - 1) with n in * by lia.
  destruct Hleast as (Hi & Hj & _ & Hmin). rewrite HlenM in Hi, Hj, Hmin.
  unfold has_positive_cell in *. cbn [fst snd] in *.
  (* a positive cell with at most one index among [i] and [j] *)
  assert (∃ a b, a < S n ∧ b < S n ∧ a ≠ b ∧ (0 < entry M a b)%Z
                 ∧ ¬ (a ∈ [i; j] ∧ b ∈ [i; j])) as (a & b & Ha & Hb & Hab & Hpab & Hnot).
  { destruct Hpos as (a & b & Ha & Hb & Hab & Hpab).
    destruct (decide (a ∈ [i; j] ∧ b ∈ [i; j])) as [[Hain Hbin]|]; [|by exists a, b].
    assert (0 < entry M i j)%Z as Hpij.
    { assert ((a = i ∧ b = j) ∨ (a = j ∧ b = i)) as [[-> ->]|[-> ->]] by set_solver;
        [done|by rewrite Hsym]. }
    assert (∃ k, k < S n ∧ k ≠ i ∧ k ≠ j) as (k & Hk & Hki & Hkj).
    { destruct (decide (0 ≠ i ∧ 0 ≠ j)); [exists 0; lia|].
      destruct (decide (1 ≠ i ∧ 1 ≠ j)); [exists 1; lia|]. exists 2. lia. }
    exists i, k. split; [lia|]. split; [done|]. split; [done|]. split.
    - specialize (Hmin i k). lia.
    - set_solver. }
  set (unskip := λ k, if decide (k < j) then k else k - 1).
  assert (∀ k, k < S n → k ≠ j → unskip k < n ∧ skip j (unskip k) = k) as Hun.
  { intros k ??. unfold unskip, skip. repeat case_decide; lia. }
  assert (skip j i = i) as Hsi by (unfold skip; case_decide; lia).
  assert (i < n) as Hin by lia.
  destruct (decide (a ∈ [i; j])) as [Hain|Hanin];
    destruct (decide (b ∈ [i; j])) as [Hbin|Hbnin]; [tauto|..].
  - (* the row is merged *)
    assert (b ≠ i ∧ b ≠ j) as [??] by set_solver.
    destruct (Hun b) as [Hlt Hsk]; [done..|].
    exists i, (unskip b). split; [done|]. split; [done|].
    assert (i ≠ unskip b) as Hne by (intros Heq; rewrite <-Heq in Hsk; congruence).
    split; [done|]. rewrite Hentry by done. unfold merged_entry.
    rewrite decide_False by done. rewrite decide_True by done.
    rewrite (decide_False (P := unskip b = i)) by done. rewrite Hsi, Hsk.
    pose proof (Hnn i b). pose proof (Hnn j b).
    assert (a = i ∨ a = j) as [->| ->] by set_solver; lia.
  - (* the column is merged *)
    assert (a ≠ i ∧ a ≠ j) as [??] by set_solver.
    destruct (Hun a) as [Hlt Hsk]; [done..|].
    exists (unskip a), i. split; [done|]. split; [done|].
    assert (unskip a ≠ i) as Hne by (intros Heq; rewrite Heq in Hsk; congruence).
    split; [done|]. rewrite Hentry by done. unfold merged_entry.
    rewrite decide_False by done. rewrite (decide_False (P := unskip a = i)) by done.
    rewrite decide_True by done. rewrite Hsi, Hsk.
    pose proof (Hnn a i). pose proof (Hnn a j).
    assert (b = i ∨ b = j) as [->| ->] by set_solver; lia.
  - (* the cell is kept *)
    assert (a ≠ i ∧ a ≠ j ∧ b ≠ i ∧ b ≠ j) as (?&?&?&?) by set_solver.
    destruct (Hun a) as [Hlta Hska]; [done..|].
    destruct (Hun b) as [Hltb Hskb]; [done..|].
    exists (unskip a), (unskip b). split; [done|]. split; [done|].
    assert (unskip a ≠ unskip b) as Hne by congruence.
    assert (unskip a ≠ i) by (intros Heq; rewrite Heq in Hska; congruence).
    assert (unskip b ≠ i) by (intros Heq; rewrite Heq in Hskb; congruence).
    split; [done|]. rewrite Hentry by done. unfold merged_entry.
    rewrite !decide_False by done. rewrite Hska, Hskb. lia.
Qed.

Lemma mat_size_square n (M : matrix) : square n M → mat_size M = n * n.
Proof.
  intros HM. unfold mat_size. rewrite (square_nrows n), (square_ncols n) by done. done.
Qed.

(** The [while clique.size > 4] loop makes [n - 2] greedy merges and
    stops at a 2 by 2 matrix. *)
Lemma collapse_spec n fuel st :
  collapse_ok n st → 2 ≤ n → n - 2 ≤ fuel →
  ∃ st', collapse fuel st.1 st.2 = Ok st'
         ∧ nsteps greedy_merge (n - 2) st st'
         ∧ collapse_ok 2 st'
         ∧ concat st'.2 ≡ₚ concat st.2
         ∧ (has_positive_cell n st.1 → has_positive_cell 2 st'.1).
Proof.
  revert fuel st. induction n as [|n IH]; intros fuel st Hok Hn Hfuel; [lia|].
  destruct st as [M vMap]. pose proof Hok as (HM & Hsym & Hnn & Hlen & Hne).
  cbn [fst snd] in *.
  destruct (decide (n = 1)) as [->|Hn1].
  { exists (M, vMap). split; [|split; [|done]].
    - destruct fuel; simpl; rewrite (mat_size_square 2) by done;
        by rewrite bool_decide_eq_false_2 by lia.
    - apply nsteps_O. }
  destruct fuel as [|fuel]; [lia|]. simpl.
  rewrite (mat_size_square (S n)) by done.
  rewrite bool_decide_eq_true_2 by nia.
  destruct (reduce_matrix_spec n M) as (i & j & M' & _ & Hred & Hij & Hleast & HM' & Hentry);
    [done|done|lia|].
  rewrite Hred. simpl.
  destruct (iadd_pop_spec vMap i j) as (gi & gj & Hgi & Hgj & Hpop); [lia|].
  rewrite Hpop. simpl.
  set (vMap' := <[i := gi ++ gj]> (delete j vMap)).
  assert (greedy_merge (M, vMap) (M', vMap')) as Hstep.
  { pose proof HM as [HlenM _]. unfold vMap'.
    apply greedy_merge_intro; rewrite ?HlenM; replace (S n - 1) with n by lia.
    - unfold least_off_diagonal. rewrite HlenM.
      split; [lia|]. split; [lia|]. split; [lia|]. done.
    - lia.
    - done.
    - done.
    - done.
    - done. }
  assert (1 ≤ n) as Hn1' by lia. assert (2 ≤ n) as Hn2 by lia.
  assert (n - 2 ≤ fuel) as Hfuel' by lia.
  destruct (greedy_merge_ok n _ _ Hok Hn1' Hstep) as [Hok' Hperm].
  destruct (IH fuel (M', vMap') Hok' Hn2 Hfuel')
    as (st' & Hrun & Hsteps & Hok2 & Hperm2 & Hpos2).
  exists st'. cbn [fst snd] in *. split; [done|]. split; [|split; [done|split]].
  - replace (n - 1) with (S (n - 2)) by lia. by eapply nsteps_l.
  - by rewrite Hperm2.
  - intros Hpos. apply Hpos2.
    by apply (greedy_merge_positive n _ _ Hok Hn2 Hstep).
Qed.

(** *** The split of one vertex *)

(** What [pair_betweenness] guarantees of the table of a vertex. *)
Definition table_ok (G : Graph) (v : nat) (pb : pb_table) : Prop :=
  (∀ u w, is_Some (pb !! (u, w)) → u ∈ neighbors G v ∧ w ∈ neighbors G v)
  ∧ (∀ u w, pb !! (u, w) = pb !! (w, u))
  ∧ (∀ k x, pb !! k = Some x → (0 ≤ x)%Z).

(** The split betweenness of a vertex and the two groups of its
    neighbours: what one turn of [for v in dic] computes. *)
Definition split_betweenness (G : Graph) (entry : nat * pb_table)
  : result (Z * list (list nat)) :=
  let* (clique, vMap) := split_of G entry.1 entry.2 in
  let* score := mat_get clique 0 1 in
  Ok (score, vMap).

Lemma split_of_spec (G : Graph) (v : nat) (pb : pb_table) :
  table_ok G v pb → 2 ≤ length (neighbors G v) →
  ∃ clique st',
    create_clique G v pb = Ok clique
    ∧ split_of G v pb = Ok st'
    ∧ nsteps greedy_merge (length (neighbors G v) - 2)
        (clique, (λ ve, [ve]) <$> neighbors G v) st'
    ∧ collapse_ok 2 st'
    ∧ concat st'.2 ≡ₚ neighbors G v
    ∧ split_betweenness G (v, pb) = Ok (entry st'.1 0 1, st'.2)
    ∧ ((∃ u w x, pb !! (u, w) = Some x ∧ u ≠ w ∧ (0 < x)%Z) →
       (0 < entry st'.1 0 1)%Z).
Proof.
  intros (Hkeys & Hsym & Hnn) Hdeg. set (n := length (neighbors G v)) in *.
  destruct (create_clique_spec G v pb Hkeys) as (clique & Hcl & HM & Hentry).
  fold n in HM.
  set (vMap := (λ ve, [ve]) <$> neighbors G v).
  assert (collapse_ok n (clique, vMap)) as Hok.
  { split; [done|]. split; [|split; [|split]]; cbn [fst snd].
    - intros i j. rewrite !Hentry. repeat case_decide; try done; try lia.
      by apply clique_cell_sym.
    - intros i j. rewrite Hentry. case_decide; [done|]. by apply clique_cell_nonneg.
    - unfold vMap. by rewrite length_fmap.
    - unfold vMap. apply Forall_fmap, Forall_forall. by intros. }
  assert (n - 2 ≤ n) as Hfuel by lia.
  destruct (collapse_spec n n (clique, vMap) Hok Hdeg Hfuel)
    as (st' & Hrun & Hsteps & Hok2 & Hperm & Hpos).
  cbn [fst snd] in *.
  assert (split_of G v pb = Ok st') as Hsplit.
  { unfold split_of. rewrite Hcl. simpl. by rewrite (square_nrows n). }
  exists clique, st'. do 4 (split; [done|]). split; [|split].
  - rewrite Hperm. unfold vMap. clear.
    induction (neighbors G v) as [|x l IH]; [done|]. simpl. by rewrite IH.
  - unfold split_betweenness. cbn [fst snd]. rewrite Hsplit. simpl.
    destruct st' as [M2 vMap2]. destruct Hok2 as (HM2 & _). cbn [fst snd] in *.
    by rewrite (mat_get_square 2) by (done || lia).
  - intros (u & w & x & Hx & Hne & Hxpos).
    destruct (Hkeys u w) as [Hu Hw]; [eauto|].
    destruct (clique_cell_pos (neighbors G v) pb u w x Hx Hu Hw Hne)
      as (i & j & Hij & Hi & Hj & Hcell).
    destruct Hpos as (a & b & Ha & Hb & Hab & Hpab).
    { exists i, j. do 3 (split; [done|]). rewrite Hentry.
      rewrite decide_False by done. by rewrite Hcell. }
    destruct Hok2 as (_ & Hsym2 & _).
    assert ((a = 0 ∧ b = 1) ∨ (a = 1 ∧ b = 0)) as [[-> ->]|[-> ->]] by lia;
      [done|by rewrite Hsym2].
Qed.

(** *** The best split *)

(** What [max_split_betweenness] holds after the entries [pre]: the
    greatest split betweenness seen, if it is positive, with the first
    vertex that attains it and its groups. *)
Definition msb_ok (G : Graph) (pre : pb_dict) (st : msb_state) : Prop :=
  (∀ e s g, e ∈ pre → split_betweenness G e = Ok (s, g) → (s ≤ st.1)%Z)
  ∧ match st.2 with
    | None => st.1 = 0%Z
    | Some (v, g) =>
        (0 < st.1)%Z
        ∧ ∃ k e, pre !! k = Some e ∧ e.1 = v
                 ∧ split_betweenness G e = Ok (st.1, g)
                 ∧ ∀ k' e' s' g', k' < k → pre !! k' = Some e' →
                     split_betweenness G e' = Ok (s', g') → (s' < st.1)%Z
    end.

Lemma msb_visit_split G st e :
  msb_visit G st e
  = let* sg := split_betweenness G e in
    if bool_decide (st.1 < sg.1)%Z then Ok (sg.1, Some (e.1, sg.2)) else Ok st.
Proof.
  unfold msb_visit, split_betweenness.
  destruct (split_of G e.1 e.2) as [[clique vMap]|]; simpl; [|done].
  destruct (mat_get clique 0 1); simpl; done.
Qed.

Lemma msb_fold_spec (G : Graph) (pre rest : pb_dict) (st : msb_state) :
  msb_ok G pre st →
  (∀ e, e ∈ rest → is_ok (split_betweenness G e)) →
  ∃ st', rfoldl (msb_visit G) st rest = Ok st' ∧ msb_ok G (pre ++ rest) st'.
Proof.
  revert pre st. induction rest as [|e rest IH]; intros pre st Hok Hall.
  { exists st. split; [done|]. by rewrite app_nil_r. }
  destruct (Hall e) as [[s g] Hsg]; [left|].
  destruct Hok as [Hmax Hbest].
  set (st1 := if bool_decide (st.1 < s)%Z then (s, Some (e.1, g)) else st).
  assert (msb_visit G st e = Ok st1) as Hvisit.
  { rewrite msb_visit_split, Hsg. simpl. unfold st1. by case_bool_decide. }
  destruct (IH (pre ++ [e]) st1) as (st' & Hrun & Hok').
  - unfold st1, msb_ok. case_bool_decide as Hlt; cbn [fst snd]; split.
    + intros e' s' g' [Hin|Hin%list_elem_of_singleton]%elem_of_app Hs'.
      * specialize (Hmax _ _ _ Hin Hs'). lia.
      * subst e'. rewrite Hsg in Hs'. injection Hs' as <- <-. lia.
    + split.
      { destruct st as [m [[v' g']|]]; cbn [fst snd] in *; [|lia].
        destruct Hbest. lia. }
      exists (length pre), e. split; [by rewrite lookup_app_r, Nat.sub_diag|].
      split; [done|]. split; [done|].
      intros k' e' s' g' Hk' He' Hs'. rewrite lookup_app_l in He' by done.
      apply list_elem_of_lookup_2 in He'. specialize (Hmax _ _ _ He' Hs'). lia.
    + intros e' s' g' [Hin|Hin%list_elem_of_singleton]%elem_of_app Hs'.
      * eauto.
      * subst e'. rewrite Hsg in Hs'. injection Hs' as <- <-. lia.
    + destruct st as [m [[v' g']|]]; cbn [fst snd] in *; [|done].
      destruct Hbest as (Hpos & k & e0 & Hk & Hv & Hs0 & Hfirst).
      split; [done|]. exists k, e0. split; [by apply lookup_app_l_Some|].
      split; [done|]. split; [done|].
      intros k' e' s' g'' Hk' He' Hs'. apply lookup_lt_Some in Hk.
      rewrite lookup_app_l in He' by lia. eauto.
  - intros e' He'. apply Hall. by right.
  - exists st'. split; [simpl; by rewrite Hvisit|]. by rewrite <-app_assoc in Hok'.
Qed.

(** [max_split_betweenness] returns the greatest split betweenness, the
    first vertex that attains it and its groups; it fails when no split
    betweenness is positive, its locals [vNum] and [vSpl] being unbound. *)
Lemma max_split_betweenness_spec (G : Graph) (dic : pb_dict) :
  (∀ e, e ∈ dic → is_ok (split_betweenness G e)) →
  ∃ st, msb_ok G dic st
        ∧ max_split_betweenness G dic
          = match st.2 with
            | Some (vNum, vSpl) => Ok (st.1, vNum, vSpl)
            | None => Raise UnboundLocalError
            end.
Proof.
  intros Hall. destruct (msb_fold_spec G [] dic (0%Z, None)) as (st & Hrun & Hok).
  - split; [by intros ??? ?%elem_of_nil|done].
  - done.
  - exists st. split; [done|]. unfold max_split_betweenness. by rewrite Hrun.
Qed.

(** ** Degrees and the measure of progress *)

(** The degree of a vertex: the length of its adjacency list. *)
Definition degree (G : Graph) (v : nat) : nat := length (neighbors G v).

(** What is left to split off the vertices: a vertex of degree [d > 0]
    can be cut at most [d - 1] times. *)
Definition potential (G : Graph) : nat :=
  sum_list ((λ v, degree G v - 1) <$> seq 0 (vcount G)).

(** Every iteration of the driver lowers this number. *)
Definition measure (G : Graph) : nat := length (es G) + potential G.

(** The share of one edge in [adj_count G v u]. *)
Definition adj_term (v u : nat) (e : nat * nat) : nat :=
  (if bool_decide (e.1 = v ∧ e.2 = u) then 1 else 0)
  + (if bool_decide (e.2 = v ∧ e.1 = u) then 1 else 0).

Lemma adj_count_unfold G v u : adj_count G v u = sum_list (adj_term v u <$> es G).
Proof. done. Qed.

Lemma degree_sum G v :
  degree G v = sum_list (adj_count G v <$> seq 0 (vcount G)).
Proof.
  unfold degree, neighbors. induction (seq 0 (vcount G)) as [|u l IH]; [done|].
  simpl. rewrite length_app, length_replicate, IH. done.
Qed.

Lemma sum_list_fmap_cons {A} (f : A → nat) (x : A) (l : list A) :
  sum_list (f <$> x :: l) = f x + sum_list (f <$> l).
Proof. done. Qed.

Lemma sum_list_fmap_add {A} (f g : A → nat) (l : list A) :
  sum_list ((λ x, f x + g x) <$> l) = sum_list (f <$> l) + sum_list (g <$> l).
Proof.
  induction l as [|x l IH]; [done|]. rewrite !fmap_cons. cbn [sum_list_with].
  rewrite IH. cbv [id]. lia.
Qed.

Lemma sum_list_fmap_ext {A} (f g : A → nat) (l : list A) :
  (∀ x, x ∈ l → f x = g x) → sum_list (f <$> l) = sum_list (g <$> l).
Proof.
  intros H. induction l as [|x l IH]; [done|]. rewrite !fmap_cons. cbn [sum_list_with].
  rewrite IH; [|intros ??; apply H; by right]. cbv [id]. by rewrite H by left.
Qed.

Lemma sum_list_fmap_zero {A} (f : A → nat) (l : list A) :
  (∀ x, x ∈ l → f x = 0) → sum_list (f <$> l) = 0.
Proof.
  intros H. induction l as [|x l IH]; [done|]. rewrite !fmap_cons. cbn [sum_list_with].
  rewrite IH; [|intros ??; apply H; by right]. cbv [id]. rewrite H by left. done.
Qed.

(** The sum of an indicator of one point over a range. *)
Lemma sum_list_indicator (n a : nat) (l : list nat) :
  NoDup l →
  sum_list ((λ x, if bool_decide (x = a) then n else 0) <$> l)
  = if bool_decide (a ∈ l) then n else 0.
Proof.
  induction 1 as [|x l Hx Hnd IH]; [done|]. rewrite fmap_cons. cbn [sum_list_with].
  rewrite IH. cbv [id]. repeat case_bool_decide; subst; try lia; set_solver.
Qed.

Lemma sum_list_seq_indicator (n a m : nat) :
  sum_list ((λ x, if bool_decide (x = a) then n else 0) <$> seq 0 m)
  = if bool_decide (a < m) then n else 0.
Proof.
  rewrite sum_list_indicator by apply NoDup_seq.
  repeat case_bool_decide; try done.
  - exfalso. apply elem_of_seq in H. lia.
  - exfalso. apply H. apply elem_of_seq. lia.
Qed.

(** The share of one edge in the degree of [v]. *)
Lemma sum_adj_term n v (e : nat * nat) :
  e.1 < n → e.2 < n →
  sum_list ((λ u, adj_term v u e) <$> seq 0 n)
  = (if bool_decide (e.1 = v) then 1 else 0) + (if bool_decide (e.2 = v) then 1 else 0).
Proof.
  intros H1 H2. unfold adj_term.
  rewrite (sum_list_fmap_add
             (λ u, if bool_decide (e.1 = v ∧ e.2 = u) then 1 else 0)
             (λ u, if bool_decide (e.2 = v ∧ e.1 = u) then 1 else 0)).
  f_equal.
  - rewrite (sum_list_fmap_ext _ (λ u, if bool_decide (u = e.2)
                                       then (if bool_decide (e.1 = v) then 1 else 0)
                                       else 0)).
    + rewrite sum_list_seq_indicator. by rewrite bool_decide_eq_true_2.
    + intros u _. repeat case_bool_decide; try done; naive_solver.
  - rewrite (sum_list_fmap_ext _ (λ u, if bool_decide (u = e.1)
                                       then (if bool_decide (e.2 = v) then 1 else 0)
                                       else 0)).
    + rewrite sum_list_seq_indicator. by rewrite bool_decide_eq_true_2.
    + intros u _. repeat case_bool_decide; try done; naive_solver.
Qed.

(** The number of edge ends at [v]. *)
Definition ends_at (v : nat) (l : list (nat * nat)) : nat :=
  sum_list ((λ e : nat * nat,
               (if bool_decide (e.1 = v) then 1 else 0)
               + (if bool_decide (e.2 = v) then 1 else 0)) <$> l).

Lemma ends_at_cons v e l :
  ends_at v (e :: l)
  = (if bool_decide (e.1 = v) then 1 else 0) + (if bool_decide (e.2 = v) then 1 else 0)
    + ends_at v l.
Proof. done. Qed.

Lemma sum_adj_terms n v (l : list (nat * nat)) :
  Forall (λ e : nat * nat, e.1 < n ∧ e.2 < n) l →
  sum_list ((λ u, sum_list (adj_term v u <$> l)) <$> seq 0 n) = ends_at v l.
Proof.
  induction 1 as [|e l [H1 H2] Hl IH].
  - by apply sum_list_fmap_zero.
  - rewrite (sum_list_fmap_ext _ (λ u, adj_term v u e + sum_list (adj_term v u <$> l)))
      by done.
    rewrite (sum_list_fmap_add (λ u, adj_term v u e)
               (λ u, sum_list (adj_term v u <$> l))).
    by rewrite IH, sum_adj_term, ends_at_cons.
Qed.

(** In a well-formed graph the degree of a vertex is the number of edge
    ends at it. *)
Lemma degree_ends G v : wf_graph G → degree G v = ends_at v (es G).
Proof.
  intros Hwf. rewrite degree_sum. by apply sum_adj_terms.
Qed.

Lemma ends_at_app v l k : ends_at v (l ++ k) = ends_at v l + ends_at v k.
Proof. unfold ends_at. by rewrite fmap_app, sum_list_with_app. Qed.

Lemma ends_at_delete v (l : list (nat * nat)) i e :
  l !! i = Some e →
  ends_at v l
  = ends_at v (delete i l)
    + (if bool_decide (e.1 = v) then 1 else 0) + (if bool_decide (e.2 = v) then 1 else 0).
Proof.
  intros Hi. rewrite <-(take_drop_middle l i e Hi) at 1.
  assert (delete i l = take i l ++ drop (S i) l) as ->.
  { rewrite <-(take_drop_middle l i e Hi) at 1.
    pose proof (lookup_lt_Some _ _ _ Hi).
    replace i with (length (take i l)) at 1 by (rewrite length_take; lia).
    by rewrite delete_middle. }
  rewrite !ends_at_app, ends_at_cons. lia.
Qed.

Lemma adj_count_app_edge G G' v u a b :
  es G' = es G ++ [(a, b)] →
  adj_count G' v u = adj_count G v u + adj_term v u (a, b).
Proof.
  intros Hes. rewrite !adj_count_unfold, Hes, fmap_app, sum_list_with_app.
  change (sum_list (adj_term v u <$> [(a, b)])) with (adj_term v u (a, b) + 0). lia.
Qed.

Lemma adj_count_delete G G' v u i e :
  es G !! i = Some e → es G' = delete i (es G) →
  adj_count G v u = adj_count G' v u + adj_term v u e.
Proof.
  intros Hi Hes. rewrite !adj_count_unfold, Hes.
  rewrite <-(take_drop_middle (es G) i e Hi) at 1.
  assert (delete i (es G) = take i (es G) ++ drop (S i) (es G)) as ->.
  { rewrite <-(take_drop_middle (es G) i e Hi) at 1.
    pose proof (lookup_lt_Some _ _ _ Hi).
    replace i with (length (take i (es G))) at 1 by (rewrite length_take; lia).
    by rewrite delete_middle. }
  rewrite !fmap_app, !sum_list_with_app.
  change (sum_list (adj_term v u <$> e :: drop (S i) (es G)))
    with (adj_term v u e + sum_list (adj_term v u <$> drop (S i) (es G))). lia.
Qed.

Lemma count_replicate (x u k : nat) :
  length (filter (λ y, y = x) (replicate k u)) = if bool_decide (u = x) then k else 0.
Proof.
  induction k as [|k IHk].
  - simpl. by case_bool_decide.
  - cbn [replicate]. rewrite filter_cons.
    destruct (decide (u = x)) as [->|Hne].
    + rewrite bool_decide_eq_true_2 in * by done. cbn [length]. by rewrite IHk.
    + rewrite bool_decide_eq_false_2 in * by done. done.
Qed.

(** How often [x] stands in the adjacency list of [v]. *)
Lemma count_neighbors G v x :
  length (filter (λ y, y = x) (neighbors G v))
  = if bool_decide (x < vcount G) then adj_count G v x else 0.
Proof.
  unfold neighbors.
  assert (∀ l : list nat, NoDup l →
            length (filter (λ y, y = x)
                      (flat_map (λ u, replicate (adj_count G v u) u) l))
            = if bool_decide (x ∈ l) then adj_count G v x else 0) as H.
  { induction 1 as [|u l Hu Hnd IH]; [done|].
    cbn [flat_map]. rewrite filter_app, length_app, IH, count_replicate.
    destruct (decide (u = x)) as [->|Hne].
    - rewrite bool_decide_eq_true_2 by done.
      rewrite (bool_decide_eq_false_2 (x ∈ l)) by done.
      rewrite bool_decide_eq_true_2 by left. lia.
    - rewrite (bool_decide_eq_false_2 (u = x)) by done.
      destruct (decide (x ∈ l)) as [Hin|Hnin].
      + rewrite !bool_decide_eq_true_2; [done|by right|done].
      + rewrite !bool_decide_eq_false_2; [done| |done].
        intros [?|?]%elem_of_cons; congruence. }
  rewrite H by apply NoDup_seq.
  destruct (decide (x < vcount G)) as [Hlt|Hge].
  - rewrite !bool_decide_eq_true_2; [done|done|]. apply elem_of_seq. lia.
  - rewrite !bool_decide_eq_false_2; [done|done|]. intros ?%elem_of_seq. lia.
Qed.

(** Changing the degree of the vertices of a range. *)
Lemma potential_change (f g : nat → nat) (n v : nat) :
  v < n → (∀ x, x < n → x ≠ v → f x = g x) →
  sum_list ((λ x, g x - 1) <$> seq 0 n) + (f v - 1)
  = sum_list ((λ x, f x - 1) <$> seq 0 n) + (g v - 1).
Proof.
  intros Hv Hfg'.
  assert (∀ l : list nat, NoDup l → (∀ x, x ∈ l → x < n) →
            sum_list ((λ x, g x - 1) <$> l) + (if bool_decide (v ∈ l) then f v - 1 else 0)
            = sum_list ((λ x, f x - 1) <$> l)
              + (if bool_decide (v ∈ l) then g v - 1 else 0)) as H.
  { induction 1 as [|x l Hx Hnd IH]; intros Hl; [done|].
    assert (∀ y, y ≠ v → y = x → f y = g y) as Hfg.
    { intros y ? ->. apply Hfg'; [|done]. apply Hl. by left. }
    assert (∀ x, x ∈ l → x < n) as Hl' by (intros ??; apply Hl; by right).
    specialize (IH Hl').
    rewrite !sum_list_fmap_cons.
    destruct (decide (x = v)) as [->|Hne].
    - rewrite bool_decide_eq_true_2 by left.
      rewrite (bool_decide_eq_false_2 (v ∈ l)) in IH by done. lia.
    - rewrite (Hfg x Hne eq_refl).
      destruct (decide (v ∈ l)) as [Hin|Hnin].
      + rewrite bool_decide_eq_true_2 by by right.
        rewrite (bool_decide_eq_true_2 (v ∈ l)) in IH by done. lia.
      + rewrite bool_decide_eq_false_2 by (intros [?|?]%elem_of_cons; done).
        rewrite (bool_decide_eq_false_2 (v ∈ l)) in IH by done. lia. }
  specialize (H (seq 0 n) (NoDup_seq 0 n)).
  assert (∀ x, x ∈ seq 0 n → x < n) as Hseq by (intros x ?%elem_of_seq; lia).
  specialize (H Hseq).
  rewrite bool_decide_eq_true_2 in H by (apply elem_of_seq; lia). done.
Qed.

(** ** The graphs the driver works on *)

(** The column [CONGA_orig] holds an original id for every vertex. *)
Definition orig_ok (G : Graph) : Prop :=
  ∃ col, vattrs G !! CONGA_orig = Some col ∧ length col = vcount G
         ∧ Forall (λ o : option nat, is_Some o) col.

(** The working graph of [conga]: its edges join existing vertices,
    none is a loop, and every vertex knows its original. *)
Definition graph_ok (G : Graph) : Prop := wf_graph G ∧ loop_free G ∧ orig_ok G.

(** The graph [G] without its edge number [i]. *)
Definition without_edge (G : Graph) (i : nat) : Graph :=
  mkGraph (vcount G) (delete i (es G)) (vattrs G).

(** How often [x] stands in [l]. *)
Definition count (x : nat) (l : list nat) : nat := length (filter (λ y, y = x) l).

Lemma sum_list_fmap_le {A} (f g : A → nat) (l : list A) :
  (∀ x, x ∈ l → f x ≤ g x) → sum_list (f <$> l) ≤ sum_list (g <$> l).
Proof.
  intros H. induction l as [|x l IH]; [done|]. rewrite !sum_list_fmap_cons.
  pose proof (H x ltac:(left)). assert (sum_list (f <$> l) ≤ sum_list (g <$> l)).
  { apply IH. intros ??. apply H. by right. }
  lia.
Qed.

Lemma potential_ends G :
  wf_graph G →
  potential G = sum_list ((λ x, ends_at x (es G) - 1) <$> seq 0 (vcount G)).
Proof.
  intros Hwf. unfold potential. apply sum_list_fmap_ext. intros x _.
  by rewrite degree_ends.
Qed.

Lemma ends_at_out n v (l : list (nat * nat)) :
  Forall (λ e : nat * nat, e.1 < n ∧ e.2 < n) l → n ≤ v → ends_at v l = 0.
Proof.
  intros Hl Hv. induction Hl as [|e l [H1 H2] Hl IH]; [done|].
  rewrite ends_at_cons, IH. rewrite !bool_decide_eq_false_2 by lia. done.
Qed.

(** *** Deleting an edge *)

Lemma delete_edges_inv G e G' :
  delete_edges G e = Ok G' →
  ∃ i e', es G !! i = Some e' ∧ joins e.1 e.2 e' = true ∧ G' = without_edge G i.
Proof.
  unfold delete_edges. destruct (list_find _ _) as [[i e']|] eqn:Hfind; [|done].
  intros [= <-]. apply list_find_Some in Hfind as (Hi & Hj & _). by exists i, e'.
Qed.

Lemma delete_edges_spec G a b :
  0 < adj_count G a b →
  ∃ i e, es G !! i = Some e ∧ joins a b e = true
         ∧ delete_edges G (a, b) = Ok (without_edge G i).
Proof.
  intros (e & He & Hj)%adj_count_joins. unfold delete_edges. cbn [fst snd].
  destruct (list_find_elem_of (λ e', joins a b e' = true) (es G) e He Hj)
    as [[i e'] Hfind].
  rewrite Hfind. apply list_find_Some in Hfind as (Hi & Hj' & _). by exists i, e'.
Qed.

Lemma without_edge_wf G i : wf_graph G → wf_graph (without_edge G i).
Proof. unfold wf_graph. simpl. apply Forall_delete. Qed.

Lemma without_edge_loop_free G i : loop_free G → loop_free (without_edge G i).
Proof. unfold loop_free. simpl. apply Forall_delete. Qed.

Lemma without_edge_ok G i : graph_ok G → graph_ok (without_edge G i).
Proof.
  intros (Hwf & Hlf & Hor). split; [by apply without_edge_wf|].
  split; [by apply without_edge_loop_free|done].
Qed.

(** Deleting an edge lowers the measure. *)
Lemma measure_without_edge G i e :
  wf_graph G → es G !! i = Some e → measure (without_edge G i) < measure G.
Proof.
  intros Hwf Hi. unfold measure.
  assert (potential (without_edge G i) ≤ potential G) as Hpot.
  { rewrite !potential_ends by (done || by apply without_edge_wf).
    cbn [without_edge vcount es]. apply sum_list_fmap_le. intros x _.
    rewrite (ends_at_delete x (es G) i e Hi). lia. }
  cbn [without_edge es] in *. rewrite length_delete by eauto.
  apply lookup_lt_Some in Hi. lia.
Qed.

(** [check_for_split] tells whether the two vertices are separated. *)
Lemma check_for_split_spec G a b :
  a ≠ b → a < vcount G → b < vcount G →
  ∃ r, check_for_split G (a, b) = Ok r ∧ (r = true ↔ ¬ connected G a b).
Proof.
  intros Hab Ha Hb. unfold check_for_split, edge_disjoint_paths_is_zero. cbn [fst snd].
  rewrite bool_decide_eq_false_2 by done. rewrite bool_decide_eq_true_2 by done.
  eexists. split; [done|]. rewrite bool_decide_eq_true.
  by rewrite reachable_from_spec.
Qed.

Lemma delete_edge_spec G k e :
  graph_ok G → es G !! k = Some e →
  ∃ r i e',
    delete_edge G e = Ok (r, without_edge G i)
    ∧ es G !! i = Some e' ∧ joins e.1 e.2 e' = true
    ∧ (r = true ↔ ¬ connected (without_edge G i) e.1 e.2).
Proof.
  intros (Hwf & Hlf & _) Hk.
  pose proof (list_elem_of_lookup_2 _ _ _ Hk) as He.
  pose proof (proj1 (Forall_forall _ _) Hwf e He) as [H1 H2].
  pose proof (proj1 (Forall_forall _ _) Hlf e He) as Hne. cbn beta in *.
  destruct (delete_edges_spec G e.1 e.2) as (i & e' & Hi & Hj & Hdel).
  { apply adj_count_joins. exists e. split; [done|]. apply joins_spec. by left. }
  destruct (check_for_split_spec (without_edge G i) e.1 e.2) as (r & Hr & Hconn);
    [done|done|done|].
  exists r, i, e'. split; [|done]. unfold delete_edge.
  destruct e as [a b]. cbn [fst snd] in *. rewrite Hdel. simpl. by rewrite Hr.
Qed.

(** *** Splitting a vertex *)

Lemma count_cons x y l :
  count x (y :: l) = (if bool_decide (y = x) then 1 else 0) + count x l.
Proof.
  unfold count. rewrite filter_cons.
  destruct (decide (y = x)) as [->|Hne].
  - by rewrite bool_decide_eq_true_2.
  - by rewrite bool_decide_eq_false_2.
Qed.

Lemma adj_count_loop_free G v : loop_free G → adj_count G v v = 0.
Proof.
  intros Hlf. destruct (adj_count G v v) eqn:Hc; [done|].
  assert (0 < adj_count G v v) as (e & He & [[??]|[??]]%joins_spec)%adj_count_joins
    by lia;
    pose proof (proj1 (Forall_forall _ _) Hlf e He) as Hne; cbn beta in Hne; congruence.
Qed.

Lemma adj_count_lt G v u : wf_graph G → 0 < adj_count G v u → v < vcount G ∧ u < vcount G.
Proof.
  intros Hwf (e & He & Hj)%adj_count_joins.
  pose proof (proj1 (Forall_forall _ _) Hwf e He) as [H1 H2]. cbn beta in *.
  apply joins_spec in Hj as [[<- <-]|[<- <-]]; done.
Qed.

(** One turn of the loop of [split_vertex] hands one edge end of [v]
    to the new vertex. *)
Lemma move_edge_spec (v new partner : nat) (H : Graph) :
  wf_graph H → loop_free H → v ≠ new → new < vcount H → partner ≠ new →
  0 < adj_count H v partner →
  ∃ H', move_edge v new H partner = Ok H'
    ∧ vcount H' = vcount H ∧ vattrs H' = vattrs H
    ∧ wf_graph H' ∧ loop_free H'
    ∧ length (es H') = length (es H)
    ∧ (∀ y, adj_count H v y
            = adj_count H' v y + if bool_decide (y = partner) then 1 else 0)
    ∧ (∀ x, ends_at x (es H') + (if bool_decide (x = v) then 1 else 0)
            = ends_at x (es H) + (if bool_decide (x = new) then 1 else 0)).
Proof.
  intros Hwf Hlf Hvn Hnew Hpn Hadj.
  destruct (adj_count_lt H v partner Hwf Hadj) as [Hv Hp].
  assert (v ≠ partner) as Hvp.
  { intros <-. rewrite adj_count_loop_free in Hadj by done. lia. }
  set (H1 := mkGraph (vcount H) (es H ++ [(new, partner)]) (vattrs H)).
  assert (add_edge H new partner = Ok H1) as Hadd.
  { unfold add_edge. by rewrite bool_decide_eq_true_2. }
  assert (wf_graph H1) as Hwf1.
  { unfold wf_graph, H1. cbn [es vcount]. apply Forall_app. split; [done|].
    by apply Forall_singleton. }
  assert (loop_free H1) as Hlf1.
  { unfold loop_free, H1. cbn [es]. apply Forall_app. split; [done|].
    apply Forall_singleton. cbn [fst snd]. congruence. }
  assert (∀ y, adj_count H1 v y = adj_count H v y) as Hadj1.
  { intros y. rewrite (adj_count_app_edge H H1 v y new partner) by done.
    unfold adj_term. cbn [fst snd]. rewrite !bool_decide_eq_false_2; [lia| |];
      intros [??]; congruence. }
  destruct (delete_edges_spec H1 v partner) as (i & e & Hi & Hj & Hdel).
  { by rewrite Hadj1. }
  exists (without_edge H1 i). split.
  { unfold move_edge. rewrite Hadd. simpl. done. }
  split; [done|]. split; [done|].
  split; [by apply without_edge_wf|]. split; [by apply without_edge_loop_free|].
  split; [|split].
  - cbn [without_edge es]. rewrite length_delete by eauto.
    unfold H1. cbn [es]. rewrite length_app. simpl. lia.
  - intros y. rewrite <-Hadj1.
    rewrite (adj_count_delete H1 (without_edge H1 i) v y i e) by done.
    f_equal. unfold adj_term. apply joins_spec in Hj.
    destruct e as [a b]. cbn [fst snd] in *.
    destruct Hj as [[-> ->]|[-> ->]]; repeat case_bool_decide; try lia;
      exfalso; naive_solver.
  - intros x. cbn [without_edge es].
    pose proof (ends_at_delete x (es H1) i e Hi) as Hdelx.
    assert (ends_at x (es H1)
            = ends_at x (es H) + (if bool_decide (new = x) then 1 else 0)
              + (if bool_decide (partner = x) then 1 else 0)) as Happ.
    { unfold H1. cbn [es]. rewrite ends_at_app, ends_at_cons. cbn [fst snd].
      change (ends_at x []) with 0. lia. }
    assert ((if bool_decide (e.1 = x) then 1 else 0)
            + (if bool_decide (e.2 = x) then 1 else 0)
            = (if bool_decide (v = x) then 1 else 0)
              + (if bool_decide (partner = x) then 1 else 0)) as Hends.
    { apply joins_spec in Hj as [[-> ->]|[-> ->]]; lia. }
    rewrite (bool_decide_ext (x = v) (v = x)) by done.
    rewrite (bool_decide_ext (x = new) (new = x)) by done. lia.
Qed.

(** The whole loop: the new vertex takes over the edges to the members
    of [grp]. *)
Lemma move_edges_spec (v new : nat) (grp : list nat) (H : Graph) :
  wf_graph H → loop_free H → v ≠ new → new < vcount H →
  Forall (λ x, x ≠ new) grp →
  (∀ y, count y grp ≤ adj_count H v y) →
  ∃ H', rfoldl (move_edge v new) H grp = Ok H'
    ∧ vcount H' = vcount H ∧ vattrs H' = vattrs H
    ∧ wf_graph H' ∧ loop_free H'
    ∧ length (es H') = length (es H)
    ∧ (∀ x, ends_at x (es H') + (if bool_decide (x = v) then length grp else 0)
            = ends_at x (es H) + (if bool_decide (x = new) then length grp else 0)).
Proof.
  revert H. induction grp as [|p grp IH]; intros H Hwf Hlf Hvn Hnew Hgrp Hcount.
  { exists H. split; [done|]. do 5 (split; [done|]). intros x.
    by repeat case_bool_decide. }
  apply Forall_cons in Hgrp as [Hp Hgrp].
  destruct (move_edge_spec v new p H) as
    (H1 & Hmove & Hvc1 & Hat1 & Hwf1 & Hlf1 & Hlen1 & Hadj1 & Hends1); try done.
  { specialize (Hcount p). rewrite count_cons, bool_decide_eq_true_2 in Hcount by done.
    lia. }
  destruct (IH H1) as (H' & Hrun & Hvc & Hat & Hwf' & Hlf' & Hlen & Hends);
    try done.
  { by rewrite Hvc1. }
  { intros y. specialize (Hcount y). rewrite count_cons in Hcount.
    rewrite (Hadj1 y) in Hcount.
    rewrite (bool_decide_ext (p = y) (y = p)) in Hcount by done. lia. }
  exists H'. split; [simpl; by rewrite Hmove|].
  split; [congruence|]. split; [congruence|]. do 2 (split; [done|]).
  split; [congruence|]. intros x. specialize (Hends x). specialize (Hends1 x).
  cbn [length]. repeat case_bool_decide; lia.
Qed.

Lemma add_vertex_orig G :
  orig_ok G → ∀ v, v < vcount G →
  ∃ o col, get_vattr (add_vertex G) CONGA_orig v = Ok (Some o)
           ∧ vattrs G !! CONGA_orig = Some col ∧ col !! v = Some (Some o).
Proof.
  intros (col & Hcol & Hlen & Hall) v Hv.
  destruct (lookup_lt_is_Some_2 col v) as [o Ho]; [lia|].
  pose proof (proj1 (Forall_forall _ _) Hall o (list_elem_of_lookup_2 _ _ _ Ho))
    as [n ->].
  exists n, col. split; [|done]. unfold get_vattr, add_vertex. cbn [vattrs].
  rewrite lookup_fmap, Hcol. simpl. rewrite lookup_app_l by lia. by rewrite Ho.
Qed.

(** [split_vertex] succeeds for a group of neighbours of [v]; the new
    vertex takes the edges of the group and the original of [v]. *)
Lemma split_vertex_spec G v grp :
  graph_ok G → v < vcount G →
  (∀ y, count y grp ≤ adj_count G v y) →
  ∃ r G', split_vertex G v grp = Ok (r, G')
    ∧ graph_ok G' ∧ vcount G' = S (vcount G)
    ∧ length (es G') = length (es G)
    ∧ (∀ x, ends_at x (es G') + (if bool_decide (x = v) then length grp else 0)
            = ends_at x (es G)
              + (if bool_decide (x = vcount G) then length grp else 0))
    ∧ (r = true ↔ ¬ connected G' v (vcount G)).
Proof.
  intros (Hwf & Hlf & Hor) Hv Hcount.
  destruct (add_vertex_orig G Hor v Hv) as (o & col & Hget & Hcol & Ho).
  destruct Hor as (col' & Hcol' & Hlen & Hall).
  assert (col' = col) as -> by congruence.
  set (new := vcount G).
  set (G1 := mkGraph (S (vcount G)) (es G)
               (<[CONGA_orig := <[new := Some o]> (col ++ [None])]>
                  ((λ c, c ++ [None]) <$> vattrs G))).
  assert (set_vattr (add_vertex G) CONGA_orig new (Some o) = Ok G1) as Hset.
  { unfold set_vattr, add_vertex. cbn [vcount vattrs es].
    rewrite bool_decide_eq_true_2 by (unfold new; lia).
    rewrite lookup_fmap, Hcol. done. }
  assert (Forall (λ x, x ≠ new) grp) as Hgrp.
  { apply Forall_forall. intros x Hx ->.
    assert (0 < count new grp) as Hc.
    { unfold count. destruct (filter _ grp) as [|] eqn:Hf; [|simpl; lia].
      assert (new ∈ filter (λ y, y = new) grp) as Hin
        by (apply list_elem_of_filter; done).
      rewrite Hf in Hin. by apply elem_of_nil in Hin. }
    specialize (Hcount new).
    assert (0 < adj_count G v new) as Hadj by lia.
    apply (adj_count_lt G v new Hwf) in Hadj. unfold new in Hadj. lia. }
  destruct (move_edges_spec v new grp G1) as
    (G' & Hrun & Hvc & Hat & Hwf' & Hlf' & Hlen' & Hends).
  - unfold wf_graph, G1. cbn [es vcount]. eapply Forall_impl; [exact Hwf|].
    intros e [??]. cbn beta. lia.
  - done.
  - unfold new. lia.
  - unfold G1, new. cbn [vcount]. lia.
  - done.
  - done.
  - destruct (check_for_split_spec G' v new) as (r & Hr & Hconn).
    { unfold new. lia. }
    { rewrite Hvc. unfold G1. cbn [vcount]. lia. }
    { rewrite Hvc. unfold G1, new. cbn [vcount]. lia. }
    exists r, G'. split.
    { unfold split_vertex. fold new. rewrite Hget. simpl. rewrite Hset. simpl.
      rewrite Hrun. simpl. by rewrite Hr. }
    split; [|split; [by rewrite Hvc|split; [by rewrite Hlen'|split; [done|done]]]].
    split; [done|]. split; [done|].
    exists (<[new := Some o]> (col ++ [None])). rewrite Hat, Hvc. unfold G1.
    cbn [vattrs vcount]. split; [by rewrite lookup_insert_eq|].
    split; [rewrite length_insert, length_app; simpl; lia|].
    apply Forall_forall. intros x [k Hk]%list_elem_of_lookup.
    destruct (decide (k = new)) as [->|Hne].
    + rewrite list_lookup_insert_eq in Hk by (rewrite length_app; simpl; unfold new; lia).
      injection Hk as <-. eauto.
    + rewrite list_lookup_insert_ne in Hk by done.
      pose proof (lookup_lt_Some _ _ _ Hk) as Hlt. rewrite length_app in Hlt.
      simpl in Hlt. rewrite lookup_app_l in Hk by (unfold new in Hne; lia).
      apply (proj1 (Forall_forall _ _) Hall x). by eapply list_elem_of_lookup_2.
Qed.

(** Splitting off a proper, non-empty part of the edge ends of [v]
    lowers the measure by one. *)
Lemma measure_split G G' v k :
  wf_graph G → wf_graph G' → v < vcount G → vcount G' = S (vcount G) →
  length (es G') = length (es G) →
  (∀ x, ends_at x (es G') + (if bool_decide (x = v) then k else 0)
        = ends_at x (es G) + (if bool_decide (x = vcount G) then k else 0)) →
  0 < k → k < degree G v →
  measure G' < measure G.
Proof.
  intros Hwf Hwf' Hv Hvc Hlen Hends Hk Hdeg. unfold measure. rewrite Hlen.
  apply Nat.add_lt_mono_l. rewrite !potential_ends by done. rewrite Hvc.
  rewrite seq_S, fmap_app, sum_list_with_app. rewrite Nat.add_0_l.
  rewrite degree_ends in Hdeg by done.
  pose proof (potential_change (λ x, ends_at x (es G)) (λ x, ends_at x (es G'))
                (vcount G) v Hv) as Hchange. cbn beta in Hchange.
  assert (∀ x, x < vcount G → x ≠ v → ends_at x (es G) = ends_at x (es G')) as Hsame.
  { intros x Hx Hne. specialize (Hends x).
    rewrite !bool_decide_eq_false_2 in Hends by lia. lia. }
  specialize (Hchange Hsame).
  pose proof (Hends v) as Hv'. rewrite bool_decide_eq_true_2 in Hv' by done.
  rewrite bool_decide_eq_false_2 in Hv' by lia.
  pose proof (Hends (vcount G)) as Hn. rewrite bool_decide_eq_false_2 in Hn by lia.
  rewrite bool_decide_eq_true_2 in Hn by done.
  rewrite (ends_at_out (vcount G) (vcount G) (es G)) in Hn by done.
  rewrite sum_list_fmap_cons. change (sum_list (_ <$> [])) with 0. lia.
Qed.

(** ** The candidates *)

Lemma has_triple_count u v w p : has_triple u v w p → 0 < triple_count u v w p.
Proof.
  induction p as [|a [|b [|c p]] IH]; try done.
  intros [Heq|Hrest].
  - change (triple_count u v w (a :: b :: c :: p))
      with ((if decide (a = u ∧ b = v ∧ c = w) then 1 else 0)
            + triple_count u v w (b :: c :: p)).
    rewrite decide_True by done. lia.
  - change (triple_count u v w (a :: b :: c :: p))
      with ((if decide (a = u ∧ b = v ∧ c = w) then 1 else 0)
            + triple_count u v w (b :: c :: p)).
    specialize (IH Hrest). lia.
Qed.

Lemma two_elements {A} (l : list A) x y : x ∈ l → y ∈ l → x ≠ y → 2 ≤ length l.
Proof.
  destruct l as [|a [|b l]]; simpl; [by intros ?%elem_of_nil| |lia].
  intros ->%list_elem_of_singleton ->%list_elem_of_singleton. done.
Qed.

(** A vertex of positive betweenness lies inside a shortest path,
    between two distinct neighbours. *)
Lemma positive_betweenness_triple G v b :
  betweenness G !! v = Some b → (0 < b)%Q →
  ∃ u w, u ∈ neighbors G v ∧ w ∈ neighbors G v ∧ u ≠ w
         ∧ 0 < traversals G u v w.
Proof.
  intros Hb Hpos.
  destruct (betweenness_pos G v b Hb Hpos) as (s & t & p & Hst & Hp & Hlast & Hint).
  destruct (interior_has_triple v p Hint) as (u & w & Htr).
  pose proof (shortest_path_ok G s p Hp) as (Hhead & Hnd & Hwalk & Hlt).
  destruct (has_triple_neighbors G p u v w Hwalk Hnd Hlt Htr) as (Hu & Hw & Hne).
  exists u, w. do 3 (split; [done|]).
  unfold traversals. apply sum_list_pos.
  exists (triple_count u v w p + triple_count w v u p). split.
  - apply list_elem_of_fmap. exists p. split; [done|].
    unfold undirected_shortest_paths. apply list_elem_of_filter. split.
    + rewrite (forward_spec p s t) by done. by apply bool_decide_eq_true_2.
    + unfold all_pairs_shortest_paths. apply list_elem_of_In, in_concat.
      exists (get_all_shortest_paths G s). split; [|by apply list_elem_of_In].
      apply list_elem_of_In, list_elem_of_lookup. exists s. apply shortest_paths_table_lookup.
      split; [|done]. destruct p as [|x p]; [done|]. injection Hhead as ->.
      by apply Forall_cons in Hlt as [? _].
  - pose proof (has_triple_count u v w p Htr). lia.
Qed.

(** What [pair_betweenness] hands to [max_split_betweenness] for a
    candidate. *)
Lemma pair_betweenness_table_ok G arr dic v tbl :
  pair_betweenness G arr = Ok dic → NoDup arr → (v, tbl) ∈ dic →
  v ∈ arr ∧ table_ok G v tbl
  ∧ ∀ u w, u ∈ neighbors G v → w ∈ neighbors G v → u ≠ w →
           tbl !! (u, w) = Some (2 * Z.of_nat (traversals G u v w))%Z.
Proof.
  intros Hrun Hnd Hin.
  pose proof (pair_betweenness_keys G arr dic Hrun Hnd) as Hkeys.
  assert (v ∈ arr) as Hv.
  { rewrite <-Hkeys. unfold odict_keys. apply list_elem_of_fmap. by exists (v, tbl). }
  destruct (pair_betweenness_table G arr dic v Hrun Hv) as (tbl' & Hget & Hval).
  assert (odict_get v dic = Some tbl) as Hget'.
  { apply odict_elem_get; [|done]. by rewrite Hkeys. }
  assert (tbl' = tbl) as -> by congruence.
  split; [done|]. split; [split; [|split]|].
  - intros u w [x Hx]. rewrite Hval in Hx. case_decide as Huw; [|done].
    by apply permutations2_elem in Huw.
  - intros u w. rewrite !Hval.
    destruct (decide ((u, w) ∈ permutations2 (neighbors G v))) as [Huw|Huw].
    + rewrite decide_True by by apply permutations2_sym.
      by rewrite (traversals_sym G w v u).
    + rewrite decide_False; [done|]. intros Hwu. by apply Huw, permutations2_sym.
  - intros [u w] x. rewrite Hval. case_decide; [|done]. intros [= <-]. lia.
  - intros u w Hu Hw Hne. rewrite Hval. rewrite decide_True; [done|].
    by apply permutations2_distinct.
Qed.

(** ** The best split among the candidates *)

(** The split betweenness of a candidate of positive betweenness. *)
Lemma candidate_split G vi pb v tbl :
  NoDup vi →
  (∀ v, v ∈ vi → ∃ b, betweenness G !! v = Some b ∧ (0 < b)%Q) →
  pair_betweenness G vi = Ok pb → (v, tbl) ∈ pb →
  ∃ s g0 g1,
    split_betweenness G (v, tbl) = Ok (s, [g0; g1])
    ∧ v ∈ vi ∧ 2 ≤ length (neighbors G v) ∧ table_ok G v tbl
    ∧ (0 < s)%Z ∧ g0 ≠ [] ∧ g1 ≠ [] ∧ g0 ++ g1 ≡ₚ neighbors G v.
Proof.
  intros Hnd Hvi Hrun Hin.
  destruct (pair_betweenness_table_ok G vi pb v tbl Hrun Hnd Hin) as (Hv & Hok & Hval).
  destruct (Hvi v Hv) as (b & Hb & Hpos).
  destruct (positive_betweenness_triple G v b Hb Hpos) as (u & w & Hu & Hw & Hne & Htr).
  pose proof (two_elements _ u w Hu Hw Hne) as Hdeg.
  destruct (split_of_spec G v tbl Hok Hdeg)
    as (clique & st' & _ & _ & _ & Hok2 & Hperm & Hsb & Hspos).
  destruct st' as [M2 vMap2]. destruct Hok2 as (_ & _ & _ & Hlen & Hne2).
  cbn [fst snd] in *.
  destruct vMap2 as [|g0 [|g1 [|? ?]]]; try done.
  apply Forall_cons in Hne2 as [Hg0 Hne2]. apply Forall_cons in Hne2 as [Hg1 _].
  exists (entry M2 0 1), g0, g1. split; [done|]. do 3 (split; [done|]).
  split; [|split; [done|split; [done|]]].
  - apply Hspos. exists u, w, (2 * Z.of_nat (traversals G u v w))%Z.
    split; [by apply Hval|]. split; [done|]. lia.
  - rewrite <-Hperm. simpl. by rewrite app_nil_r.
Qed.

Lemma best_split_spec G vi pb :
  NoDup vi → vi ≠ [] →
  (∀ v, v ∈ vi → ∃ b, betweenness G !! v = Some b ∧ (0 < b)%Q) →
  pair_betweenness G vi = Ok pb →
  ∃ maxSplit vNum g0 g1 k tbl,
    max_split_betweenness G pb = Ok (maxSplit, vNum, [g0; g1])
    ∧ vNum ∈ vi ∧ g0 ≠ [] ∧ g1 ≠ [] ∧ g0 ++ g1 ≡ₚ neighbors G vNum
    ∧ (0 < maxSplit)%Z
    ∧ (∀ e s g, e ∈ pb → split_betweenness G e = Ok (s, g) → (s ≤ maxSplit)%Z)
    ∧ pb !! k = Some (vNum, tbl)
    ∧ split_betweenness G (vNum, tbl) = Ok (maxSplit, [g0; g1])
    ∧ (∀ k' e' s' g', k' < k → pb !! k' = Some e' →
         split_betweenness G e' = Ok (s', g') → (s' < maxSplit)%Z).
Proof.
  intros Hnd Hne Hvi Hrun.
  destruct (max_split_betweenness_spec G pb) as (st & [Hmax Hbest] & Hres).
  { intros [v tbl] Hin.
    destruct (candidate_split G vi pb v tbl Hnd Hvi Hrun Hin) as (s & g0 & g1 & Hs & _).
    by eexists. }
  destruct st as [m [[vNum vSpl]|]]; cbn [fst snd] in *.
  - destruct Hbest as (Hpos & k & [v tbl] & Hk & Hv & Hsb & Hfirst).
    cbn [fst] in Hv. subst v.
    destruct (candidate_split G vi pb vNum tbl Hnd Hvi Hrun)
      as (s & g0 & g1 & Hs & Hin & _ & _ & _ & Hg0 & Hg1 & Hperm).
    { by eapply list_elem_of_lookup_2. }
    rewrite Hsb in Hs. injection Hs as <- ->.
    exists m, vNum, g0, g1, k, tbl. done.
  - exfalso. subst m.
    pose proof (pair_betweenness_keys G vi pb Hrun Hnd) as Hkeys.
    destruct pb as [|[v tbl] pb]; [by destruct vi|].
    destruct (candidate_split G vi ((v, tbl) :: pb) v tbl Hnd Hvi Hrun)
      as (s & g0 & g1 & Hs & _ & _ & _ & Hpos & _); [left|].
    assert (s ≤ 0)%Z by (eapply Hmax; [left|done]). lia.
Qed.

(** ** One step of the decomposition *)

Lemma step_spec G :
  wf_graph G → loop_free G → es G ≠ [] →
  ∃ maxIndex maxEb edge,
    max_enumerate (edge_betweenness G) = Ok (maxIndex, maxEb)
    ∧ first_max (edge_betweenness G) maxIndex maxEb
    ∧ es G !! maxIndex = Some edge ∧ (0 < maxEb)%Q
    ∧ ((candidates (betweenness G) maxEb = []
        ∧ remove_edge_or_split_vertex G = delete_edge G edge)
       ∨ (∃ pb maxSplit vNum g0 g1,
            candidates (betweenness G) maxEb ≠ []
            ∧ pair_betweenness G (candidates (betweenness G) maxEb) = Ok pb
            ∧ max_split_betweenness G pb = Ok (maxSplit, vNum, [g0; g1])
            ∧ vNum ∈ candidates (betweenness G) maxEb
            ∧ g0 ≠ [] ∧ g1 ≠ [] ∧ g0 ++ g1 ≡ₚ neighbors G vNum
            ∧ remove_edge_or_split_vertex G
              = if Qltb maxEb (inject_Z maxSplit) then split_vertex G vNum g0
                else delete_edge G edge)).
Proof.
  intros Hwf Hlf Hes.
  destruct (max_enumerate_spec (edge_betweenness G)) as (k & x & Hmax & Hfirst).
  { intros Heb. apply (f_equal length) in Heb.
    rewrite length_edge_betweenness in Heb. by destruct (es G). }
  pose proof Hfirst as (Hk & Hle & _).
  destruct (lookup_lt_is_Some_2 (es G) k) as [edge Hedge].
  { apply lookup_lt_Some in Hk. by rewrite length_edge_betweenness in Hk. }
  assert (0 < x)%Q as Hpos.
  { destruct (es G) as [|e0 l] eqn:Hl; [done|].
    assert (es G !! 0 = Some e0) as H0 by by rewrite Hl.
    pose proof (proj1 (Forall_forall _ _) Hwf e0) as Hwf0.
    pose proof (proj1 (Forall_forall _ _) Hlf e0) as Hlf0.
    rewrite Hl in Hwf0, Hlf0. cbn beta in *.
    destruct Hwf0 as [H1 H2]; [left|]. specialize (Hlf0 ltac:(left)).
    destruct (edge_betweenness_pos G 0 e0 H0 H1 H2 Hlf0) as (x0 & Hx0 & Hx0pos).
    eapply Qlt_le_trans; [exact Hx0pos|]. by eapply Hle. }
  exists k, x, edge. do 4 (split; [done|]).
  remember (candidates (betweenness G) x) as vi eqn:Hvi.
  assert (remove_edge_or_split_vertex G
          = match vi with
            | [] => delete_edge G edge
            | _ =>
                let* pb := pair_betweenness G vi in
                let* (maxSplit, vNum, splitInstructions) := max_split_betweenness G pb in
                if Qltb x (inject_Z maxSplit) then
                  let* group := of_option IndexError (splitInstructions !! 0) in
                  split_vertex G vNum group
                else delete_edge G edge
            end) as Hstep.
  { unfold remove_edge_or_split_vertex. rewrite Hmax. cbn [rbind]. rewrite Hedge.
    rewrite <-Hvi. done. }
  assert (NoDup vi) as Hnd by (rewrite Hvi; apply candidates_NoDup).
  assert (∀ v, v ∈ vi → ∃ b, betweenness G !! v = Some b ∧ (0 < b)%Q) as Hcand.
  { intros v. rewrite Hvi. intros (b & Hb & Hxb)%elem_of_candidates.
    exists b. split; [done|]. by eapply Qlt_le_trans. }
  clear Hvi. destruct vi as [|v0 vi']; [left; done|]. right.
  cbv beta iota in Hstep.
  destruct (pair_betweenness_spec G (v0 :: vi')) as (pb & Hpb & _).
  destruct (best_split_spec G (v0 :: vi') pb)
    as (maxSplit & vNum & g0 & g1 & _ & _ & Hmsb & Hin & Hg0 & Hg1 & Hperm & _);
    [done..|].
  exists pb, maxSplit, vNum, g0, g1.
  split; [done|]. do 6 (split; [done|]).
  rewrite Hstep, Hpb. cbn [rbind]. rewrite Hmsb. cbn [rbind].
  destruct (Qltb x (inject_Z maxSplit)); done.
Qed.

(** ** Every step makes progress *)

(** A group of the split holds no neighbour more often than [v] has
    edges to it. *)
Lemma group_count G v g0 g1 y :
  g0 ++ g1 ≡ₚ neighbors G v → count y g0 ≤ adj_count G v y.
Proof.
  intros Hperm.
  assert (count y (g0 ++ g1) = count y (neighbors G v)) as Hc.
  { unfold count. by rewrite Hperm. }
  unfold count in *. rewrite filter_app, length_app, count_neighbors in Hc.
  case_bool_decide; lia.
Qed.

Lemma candidate_lt G maxEb v : v ∈ candidates (betweenness G) maxEb → v < vcount G.
Proof.
  intros (b & Hb & _)%elem_of_candidates. apply lookup_lt_Some in Hb.
  by rewrite length_betweenness in Hb.
Qed.

(** One call of [remove_edge_or_split_vertex] on a graph that still
    has an edge returns, keeps the graph in order, and lowers its
    measure. *)
Lemma step_progress G :
  graph_ok G → es G ≠ [] →
  ∃ r G', remove_edge_or_split_vertex G = Ok (r, G')
          ∧ graph_ok G' ∧ measure G' < measure G.
Proof.
  intros Hok Hes. pose proof Hok as (Hwf & Hlf & Hor).
  destruct (step_spec G Hwf Hlf Hes) as (k & x & edge & _ & _ & Hedge & _ & Hcase).
  assert (∃ r G', delete_edge G edge = Ok (r, G')
                  ∧ graph_ok G' ∧ measure G' < measure G) as Hdelete.
  { destruct (delete_edge_spec G k edge Hok Hedge) as (r & i & e' & Hdel & Hi & _).
    exists r, (without_edge G i). split; [done|].
    split; [by apply without_edge_ok|]. by eapply measure_without_edge. }
  destruct Hcase as [[_ ->]|Hsplit]; [done|].
  destruct Hsplit as (pb & maxSplit & vNum & g0 & g1 & _ & _ & _ & Hin & Hg0 & Hg1
                      & Hperm & ->).
  destruct (Qltb x (inject_Z maxSplit)); [|done].
  pose proof (candidate_lt G x vNum Hin) as Hv.
  destruct (split_vertex_spec G vNum g0 Hok Hv)
    as (r & G' & Hrun & Hok' & Hvc & Hlen & Hends & _).
  { intros y. by eapply group_count. }
  exists r, G'. split; [done|]. split; [done|].
  destruct Hok' as (Hwf' & _).
  apply (measure_split G G' vNum (length g0)); try done.
  - destruct g0; [done|simpl; lia].
  - unfold degree. rewrite <-Hperm, length_app. destruct g1; [done|simpl; lia].
Qed.

(** The measure is at most three times the number of edges. *)
Lemma sum_ends_at n (l : list (nat * nat)) :
  Forall (λ e : nat * nat, e.1 < n ∧ e.2 < n) l →
  sum_list ((λ x, ends_at x l) <$> seq 0 n) = 2 * length l.
Proof.
  induction 1 as [|e l [H1 H2] Hl IH]; [by apply sum_list_fmap_zero|].
  rewrite (sum_list_fmap_ext _
             (λ x, ((if bool_decide (x = e.1) then 1 else 0)
                    + (if bool_decide (x = e.2) then 1 else 0)) + ends_at x l)).
  2:{ intros x _. rewrite ends_at_cons.
      rewrite (bool_decide_ext (e.1 = x) (x = e.1)) by done.
      by rewrite (bool_decide_ext (e.2 = x) (x = e.2)) by done. }
  rewrite (sum_list_fmap_add
             (λ x, (if bool_decide (x = e.1) then 1 else 0)
                   + (if bool_decide (x = e.2) then 1 else 0))
             (λ x, ends_at x l)).
  rewrite (sum_list_fmap_add (λ x, if bool_decide (x = e.1) then 1 else 0)
             (λ x, if bool_decide (x = e.2) then 1 else 0)).
  rewrite !sum_list_seq_indicator, IH, !bool_decide_eq_true_2 by done.
  cbn [length]. lia.
Qed.

Lemma measure_bound G : wf_graph G → measure G ≤ 3 * length (es G).
Proof.
  intros Hwf. unfold measure. rewrite potential_ends by done.
  pose proof (sum_ends_at (vcount G) (es G) Hwf) as Hsum.
  pose proof (sum_list_fmap_le (λ x, ends_at x (es G) - 1) (λ x, ends_at x (es G))
                (seq 0 (vcount G))) as Hle.
  cbn beta in Hle. assert (∀ x, x ∈ seq 0 (vcount G) →
                             ends_at x (es G) - 1 ≤ ends_at x (es G)) as H by (intros; lia).
  specialize (Hle H). lia.
Qed.

(** ** The driver *)

Lemma length_membership g : length (membership g) = vcount g.
Proof. unfold membership. by rewrite length_fmap, length_seq. Qed.

Lemma get_vattr_orig g i :
  orig_ok g → i < vcount g → ∃ o, get_vattr g CONGA_orig i = Ok (Some o).
Proof.
  intros (col & Hcol & Hlen & Hall) Hi.
  destruct (lookup_lt_is_Some_2 col i) as [o Ho]; [lia|].
  pose proof (proj1 (Forall_forall _ _) Hall o (list_elem_of_lookup_2 _ _ _ Ho))
    as [n ->].
  exists n. unfold get_vattr. rewrite Hcol. simpl. by rewrite Ho.
Qed.

(** [get_cover] returns once every vertex knows its original. *)
Lemma get_cover_ok g comm :
  orig_ok g → length comm = vcount g → is_ok (get_cover g comm).
Proof.
  intros Hor Hlen. unfold get_cover.
  set (visit := λ (d : odict nat (list nat)) (ic : nat * nat),
                  let* o := get_vattr g CONGA_orig ic.1 in
                  let* orig := of_option TypeError o in
                  Ok (odict_set ic.2 (default [] (odict_get ic.2 d) ++ [orig]) d)).
  assert (∀ (d : odict nat (list nat)) (ic : nat * nat),
            ic ∈ enumerate comm → True → ∃ d', visit d ic = Ok d' ∧ True) as Hvisit.
  { intros d [i c] Hin _. unfold enumerate in Hin.
    apply elem_of_lookup_imap in Hin as (k & y & Heq & Hk). injection Heq as -> ->.
    apply lookup_lt_Some in Hk.
    destruct (get_vattr_orig g k Hor) as [o Ho]; [lia|].
    unfold visit. cbn [fst snd]. rewrite Ho. simpl. eauto. }
  destruct (rfoldl_is_ok (λ _, True) visit (enumerate comm) Hvisit [] I)
    as (d & Hd & _).
  rewrite Hd. simpl. by eexists.
Qed.

Section driver_facts.
Context {modularity_value : Type}.
Variable modularity : Graph → list nat → modularity_value.

(** The table of modularities is kept exactly when no measure was
    named, and then it covers the recorded cluster counts. *)
Definition history_ok (calculate_modularities : option string)
    (h : history (modularity_value := modularity_value)) : Prop :=
  match calculate_modularities with
  | None => ∃ d, modDict h = Some d ∧ dom d = dom (allCovers h)
  | Some _ => modDict h = None
  end.

Lemma record_split_ok cm g h :
  orig_ok g → history_ok cm h →
  ∃ h', record_split modularity cm g h = Ok h' ∧ history_ok cm h'.
Proof.
  intros Hor Hh. unfold record_split.
  destruct (get_cover_ok g (membership g) Hor (length_membership g)) as [cover Hc].
  rewrite Hc. cbn [rbind]. destruct cm as [name|]; simpl in *.
  - eexists. split; [done|]. done.
  - destruct Hh as (d & Hd & Hdom). rewrite Hd. simpl.
    eexists. split; [done|]. simpl. eexists. split; [done|].
    by rewrite !dom_insert_L, Hdom.
Qed.

Lemma record_split_history cm g h h' :
  record_split modularity cm g h = Ok h' → history_ok cm h → history_ok cm h'.
Proof.
  unfold record_split. intros Hrun Hh.
  destruct (get_cover g (membership g)) as [cover|]; [|done]. cbn [rbind] in Hrun.
  destruct cm as [name|]; simpl in *.
  - by injection Hrun as <-.
  - destruct Hh as (d & Hd & Hdom). rewrite Hd in Hrun. simpl in Hrun.
    injection Hrun as <-. simpl. eexists. split; [done|].
    by rewrite !dom_insert_L, Hdom.
Qed.

(** Whatever the loop returns keeps the table of modularities in step
    with the covers. *)
Lemma conga_loop_history fuel cm G h iters σ h' n σ' :
  conga_loop modularity fuel cm G h iters σ = (Ok (h', n), σ') →
  history_ok cm h → history_ok cm h'.
Proof.
  revert h iters σ. induction fuel as [|fuel IH]; intros h iters σ; simpl.
  - destruct (σ !! G) as [g|]; [|done]. destruct (es g); [|done].
    by intros [= <- _ _].
  - destruct (σ !! G) as [g|]; [|done]. destruct (es g) as [|e l].
    { by intros [= <- _ _]. }
    destruct (remove_edge_or_split_vertex g) as [[split g']|]; [|done].
    destruct split; [|by apply IH].
    destruct (record_split modularity cm g' h) as [h1|] eqn:Hrec; [|done].
    intros Hrun Hh. eapply IH; [done|]. by eapply record_split_history.
Qed.

(** The loop leaves every other object of the store alone. *)
Lemma conga_loop_frame fuel cm G h iters σ l :
  l ≠ G → (conga_loop modularity fuel cm G h iters σ).2 !! l = σ !! l.
Proof.
  intros Hl. revert h iters σ.
  induction fuel as [|fuel IH]; intros h iters σ; simpl.
  - destruct (σ !! G) as [g|]; [|done]. by destruct (es g).
  - destruct (σ !! G) as [g|]; [|done]. destruct (es g) as [|e l']; [done|].
    destruct (remove_edge_or_split_vertex g) as [[split g']|]; [|done].
    destruct split.
    + destruct (record_split modularity cm g' h) as [h'|]; simpl.
      * rewrite IH. by rewrite lookup_insert_ne.
      * by rewrite lookup_insert_ne.
    + rewrite IH. by rewrite lookup_insert_ne.
Qed.

(** With enough fuel the loop runs until no edge is left; it makes at
    most [measure g] turns. *)
Lemma conga_loop_terminates fuel cm G h iters σ g :
  σ !! G = Some g → graph_ok g → measure g ≤ fuel → history_ok cm h →
  ∃ h' n σ',
    conga_loop modularity fuel cm G h iters σ = (Ok (h', iters + n), σ')
    ∧ n ≤ measure g ∧ history_ok cm h'
    ∧ ∃ g', σ' !! G = Some g' ∧ es g' = [].
Proof.
  revert h iters σ g.
  induction fuel as [|fuel IH]; intros h iters σ g HG Hok Hfuel Hh.
  - assert (es g = []) as Hes.
    { unfold measure in Hfuel. destruct (es g); [done|simpl in Hfuel; lia]. }
    exists h, 0, σ. simpl. rewrite HG, Hes, Nat.add_0_r. split; [done|].
    split; [lia|]. split; [done|]. eauto.
  - destruct (es g) as [|e l] eqn:Hes.
    { exists h, 0, σ. simpl. rewrite HG, Hes, Nat.add_0_r. split; [done|].
      split; [lia|]. split; [done|]. eauto. }
    destruct (step_progress g Hok) as (r & g' & Hstep & Hok' & Hlt).
    { by rewrite Hes. }
    assert (measure g' ≤ fuel) as Hfuel' by lia.
    assert (<[G := g']> σ !! G = Some g') as HG' by by rewrite lookup_insert_eq.
    simpl. rewrite HG, Hes, Hstep. destruct r.
    + destruct (record_split_ok cm g' h) as (h1 & Hrec & Hh1);
        [by destruct Hok' as (_ & _ & ?)|done|].
      rewrite Hrec.
      destruct (IH h1 (S iters) _ g' HG' Hok' Hfuel' Hh1)
        as (h' & n & σ' & Hrun & Hn & Hh' & Hfin).
      exists h', (S n), σ'. rewrite Hrun. split; [do 3 f_equal; lia|].
      split; [lia|]. done.
    + destruct (IH h (S iters) _ g' HG' Hok' Hfuel' Hh)
        as (h' & n & σ' & Hrun & Hn & Hh' & Hfin).
      exists h', (S n), σ'. rewrite Hrun. split; [do 3 f_equal; lia|].
      split; [lia|]. done.
Qed.

End driver_facts.

(** ** A small graph to run the definitions on *)

(** A star: vertex 0 is joined to 1, 2 and 3; the column [CONGA_orig]
    is filled as [conga] fills it. *)
Definition star3 : Graph :=
  mkGraph 4 [(0, 1); (0, 2); (0, 3)]
    {[ CONGA_orig := [Some 0; Some 1; Some 2; Some 3] ]}.

Ltac graph_ok_by_computation :=
  split; [repeat constructor; simpl; lia|];
  split; [repeat constructor; simpl; lia|];
  eexists; split; [vm_compute; reflexivity|];
  split; [reflexivity|repeat constructor; by eexists].

(** ** C1 *)

(** [delete_edge G edge] returned [(split, G')]: [G'] is [G] without
    one edge between the ends of [edge], and [split] tells whether these
    ends are separated in [G']. *)
Definition deletes (G : Graph) (edge : nat * nat) (split : bool) (G' : Graph) : Prop :=
  delete_edge G edge = Ok (split, G')
  ∧ (∃ i e', es G !! i = Some e' ∧ joins edge.1 edge.2 e' = true
             ∧ G' = without_edge G i)
  ∧ (split = true ↔ ¬ connected G' edge.1 edge.2).

(** [split_vertex G v grp] returned [(split, G')]: [G'] has one more
    vertex and as many edges, and [split] tells whether [v] and the new
    vertex are separated in [G']. *)
Definition splits (G : Graph) (v : nat) (grp : list nat) (split : bool) (G' : Graph)
  : Prop :=
  split_vertex G v grp = Ok (split, G')
  ∧ vcount G' = S (vcount G) ∧ length (es G') = length (es G)
  ∧ (split = true ↔ ¬ connected G' v (vcount G)).

(** The decision of one iteration. *)
Definition decision_rule (G : Graph) (split : bool) (G' : Graph) : Prop :=
  ∃ maxIndex maxEb edge,
    first_max (edge_betweenness G) maxIndex maxEb
    ∧ es G !! maxIndex = Some edge
    ∧ (∀ v, v ∈ candidates (betweenness G) maxEb
            ↔ ∃ b, betweenness G !! v = Some b ∧ (maxEb <= b)%Q)
    ∧ match candidates (betweenness G) maxEb with
      | [] => deletes G edge split G'
      | vi =>
          ∃ pb maxSplit vNum g0 g1,
            pair_betweenness G vi = Ok pb
            ∧ max_split_betweenness G pb = Ok (maxSplit, vNum, [g0; g1])
            ∧ ((maxEb < inject_Z maxSplit)%Q → splits G vNum g0 split G')
            ∧ ((inject_Z maxSplit <= maxEb)%Q → deletes G edge split G')
      end.

(** C1. On a graph with at least one edge (loop-free, its edges between
    existing vertices, its vertices labelled by [CONGA_orig] as [conga]
    labels them), [remove_edge_or_split_vertex] returns a pair
    [(split, G')] that follows the decision rule: with [maxEb] the
    greatest edge betweenness, first attained at the edge [edge], the
    candidates are exactly the vertices whose betweenness is at least
    [maxEb]; without candidates [edge] is deleted; otherwise the pair
    betweenness of the candidates and the best split are computed, the
    split is applied if its split betweenness is strictly greater than
    [maxEb] and [edge] is deleted if not; [split] tells whether the
    change separated the ends of the deleted edge, or the split vertex
    from its new twin. *)
Theorem remove_edge_or_split_vertex_decision (G : Graph) :
  graph_ok G → es G ≠ [] →
  ∃ split G',
    remove_edge_or_split_vertex G = Ok (split, G') ∧ decision_rule G split G'.
Proof.
  intros Hok Hes. pose proof Hok as (Hwf & Hlf & Hor).
  destruct (step_spec G Hwf Hlf Hes)
    as (k & x & edge & _ & Hfirst & Hedge & _ & Hcase).
  assert (∃ split G', delete_edge G edge = Ok (split, G')
                      ∧ deletes G edge split G') as (sd & Gd & Hdel & Hdeletes).
  { destruct (delete_edge_spec G k edge Hok Hedge) as (r & i & e' & Hdel & Hi & Hj & Hr).
    exists r, (without_edge G i). split; [done|]. split; [done|].
    split; [|done]. by exists i, e'. }
  destruct Hcase as [[Hvi Hrun]|Hcase].
  - exists sd, Gd. split; [by rewrite Hrun|].
    exists k, x, edge. do 2 (split; [done|]).
    split; [intros v; apply elem_of_candidates|]. by rewrite Hvi.
  - destruct Hcase as (pb & maxSplit & vNum & g0 & g1 & Hvi & Hpb & Hmsb & Hin & Hg0
                       & Hg1 & Hperm & Hrun).
    destruct (Qltb x (inject_Z maxSplit)) eqn:Hlt.
    + pose proof (candidate_lt G x vNum Hin) as Hv.
      destruct (split_vertex_spec G vNum g0 Hok Hv)
        as (r & G' & Hsplit & _ & Hvc & Hlen & _ & Hr).
      { intros y. by eapply group_count. }
      exists r, G'. split; [by rewrite Hrun|].
      exists k, x, edge. do 2 (split; [done|]).
      split; [intros v; apply elem_of_candidates|].
      destruct (candidates (betweenness G) x) as [|v0 vi] eqn:Hc; [done|].
      exists pb, maxSplit, vNum, g0, g1. do 2 (split; [done|]). split.
      * intros _. done.
      * intros Hle. apply Qltb_false in Hle. congruence.
    + exists sd, Gd. split; [by rewrite Hrun|].
      exists k, x, edge. do 2 (split; [done|]).
      split; [intros v; apply elem_of_candidates|].
      destruct (candidates (betweenness G) x) as [|v0 vi] eqn:Hc; [done|].
      exists pb, maxSplit, vNum, g0, g1. do 2 (split; [done|]). split.
      * intros Hlt'. apply Qltb_true in Hlt'. congruence.
      * intros _. done.
Qed.

Lemma remove_edge_or_split_vertex_decision_witness :
  graph_ok star3 ∧ es star3 ≠ []
  ∧ ∃ split G',
      remove_edge_or_split_vertex star3 = Ok (split, G')
      ∧ decision_rule star3 split G'.
Proof.
  assert (graph_ok star3) as Hok by graph_ok_by_computation.
  assert (es star3 ≠ []) as Hes by (simpl; discriminate).
  split; [exact Hok|]. split; [exact Hes|].
  exact (remove_edge_or_split_vertex_decision star3 Hok Hes).
Defined.

(** ** C2 *)

(** What the Optimal Split Finder computes for the vertex [v] and its
    table [tbl]: the clique matrix of the neighbours with a zero
    diagonal, collapsed by [n - 2] greedy merges into a 2 by 2 matrix
    whose cell [(0, 1)] is [score], the groups being [groups]. *)
Definition greedy_split (G : Graph) (v : nat) (tbl : pb_table)
    (score : Z) (groups : list (list nat)) : Prop :=
  ∃ clique clique2 g0 g1,
    create_clique G v tbl = Ok clique
    ∧ square (length (neighbors G v)) clique
    ∧ (∀ i j, entry clique i j
              = if decide (i = j) then 0%Z
                else clique_cell (neighbors G v) tbl i j)
    ∧ split_of G v tbl = Ok (clique2, groups)
    ∧ nsteps greedy_merge (length (neighbors G v) - 2)
        (clique, (λ ve, [ve]) <$> neighbors G v) (clique2, groups)
    ∧ square 2 clique2
    ∧ groups = [g0; g1] ∧ g0 ≠ [] ∧ g1 ≠ [] ∧ g0 ++ g1 ≡ₚ neighbors G v
    ∧ mat_get clique2 0 1 = Ok score
    ∧ split_betweenness G (v, tbl) = Ok (score, groups).

Lemma greedy_split_spec (G : Graph) (v : nat) (tbl : pb_table) :
  table_ok G v tbl → 2 ≤ length (neighbors G v) →
  ∃ score groups, greedy_split G v tbl score groups.
Proof.
  intros Hok Hdeg. pose proof Hok as (Hkeys & _).
  destruct (create_clique_spec G v tbl Hkeys) as (clique & Hcl & HM & Hentry).
  destruct (split_of_spec G v tbl Hok Hdeg)
    as (clique' & st' & Hcl' & Hsplit & Hsteps & Hok2 & Hperm & Hsb & _).
  assert (clique' = clique) as -> by congruence.
  destruct st' as [M2 vMap2]. pose proof Hok2 as (HM2 & _ & _ & Hlen & Hne2).
  cbn [fst snd] in *.
  destruct vMap2 as [|g0 [|g1 [|? ?]]]; try done.
  apply Forall_cons in Hne2 as [Hg0 Hne2]. apply Forall_cons in Hne2 as [Hg1 _].
  exists (entry M2 0 1), [g0; g1], clique, M2, g0, g1.
  do 9 (split; [done|]). split; [|split; [|done]].
  - rewrite <-Hperm. simpl. by rewrite app_nil_r.
  - apply (mat_get_square 2); [done|lia|lia].
Qed.

(** What [max_split_betweenness] returns on the tables [pb] of the
    candidates. *)
Definition best_split (G : Graph) (pb : pb_dict)
    (maxSplit : Z) (vNum : nat) (vSpl : list (list nat)) : Prop :=
  ∃ k tbl,
    pb !! k = Some (vNum, tbl)
    ∧ greedy_split G vNum tbl maxSplit vSpl
    ∧ (∀ v tbl' s g, (v, tbl') ∈ pb → greedy_split G v tbl' s g → (s ≤ maxSplit)%Z)
    ∧ (∀ k' v tbl' s g, k' < k → pb !! k' = Some (v, tbl') →
         greedy_split G v tbl' s g → (s < maxSplit)%Z).

(** C2. Let [pb] be the pair-betweenness tables of the candidates for a
    positive bound [maxEb].  For every candidate [v] with its table, of
    degree [n], [n] is at least 2 and the Optimal Split Finder builds the
    [n] by [n] matrix of the neighbours with a zero diagonal, then makes
    [n - 2] greedy merges (a least cell [(i, j)] off the diagonal is
    chosen, row and column [j] are added to row and column [i] and
    deleted, group [j] is appended to group [i]) until a 2 by 2 matrix
    remains; its cell [(0, 1)] is the split betweenness of [v] and the
    two groups, which share out the neighbours, are the split
    instruction.  [max_split_betweenness] returns the greatest split
    betweenness with the first candidate attaining it and its groups. *)
Theorem optimal_split_finder (G : Graph) (maxEb : Q) (pb : pb_dict) :
  (0 < maxEb)%Q → candidates (betweenness G) maxEb ≠ [] →
  pair_betweenness G (candidates (betweenness G) maxEb) = Ok pb →
  (∀ v tbl, (v, tbl) ∈ pb →
     v ∈ candidates (betweenness G) maxEb
     ∧ 2 ≤ length (neighbors G v)
     ∧ ∃ score groups, greedy_split G v tbl score groups)
  ∧ ∃ maxSplit vNum vSpl,
      max_split_betweenness G pb = Ok (maxSplit, vNum, vSpl)
      ∧ best_split G pb maxSplit vNum vSpl.
Proof.
  intros Hpos Hne Hpb. set (vi := candidates (betweenness G) maxEb) in *.
  assert (NoDup vi) as Hnd by apply candidates_NoDup.
  assert (∀ v, v ∈ vi → ∃ b, betweenness G !! v = Some b ∧ (0 < b)%Q) as Hcand.
  { intros v (b & Hb & Hxb)%elem_of_candidates. exists b. split; [done|].
    by eapply Qlt_le_trans. }
  assert (∀ v tbl, (v, tbl) ∈ pb →
            v ∈ vi ∧ 2 ≤ length (neighbors G v)
            ∧ ∃ score groups, greedy_split G v tbl score groups) as Heach.
  { intros v tbl Hin.
    destruct (candidate_split G vi pb v tbl Hnd Hcand Hpb Hin)
      as (s & g0 & g1 & _ & Hv & Hdeg & Hok & _).
    split; [done|]. split; [done|]. by apply greedy_split_spec. }
  split; [done|].
  destruct (best_split_spec G vi pb Hnd Hne Hcand Hpb)
    as (maxSplit & vNum & g0 & g1 & k & tbl & Hmsb & Hin & Hg0 & Hg1 & Hperm & Hmpos
        & Hmax & Hk & Hsb & Hfirst).
  exists maxSplit, vNum, [g0; g1]. split; [done|]. exists k, tbl.
  split; [done|].
  destruct (Heach vNum tbl) as (_ & _ & s & g & Hgs);
    [by eapply list_elem_of_lookup_2|].
  assert (s = maxSplit ∧ g = [g0; g1]) as [-> ->].
  { destruct Hgs as (? & ? & ? & ? & _ & _ & _ & _ & _ & _ & _ & _ & _ & _ & _ & H1).
    rewrite Hsb in H1. by injection H1 as <- <-. }
  split; [done|]. split.
  - intros v tbl' s g Hin' Hgs'. eapply Hmax; [exact Hin'|].
    by destruct Hgs' as (? & ? & ? & ? & _ & _ & _ & _ & _ & _ & _ & _ & _ & _ & _ & H1).
  - intros k' v tbl' s g Hk' Hlook Hgs'. eapply Hfirst; [exact Hk'|exact Hlook|].
    by destruct Hgs' as (? & ? & ? & ? & _ & _ & _ & _ & _ & _ & _ & _ & _ & _ & _ & H1).
Qed.

Lemma optimal_split_finder_witness :
  (0 < 3)%Q ∧ candidates (betweenness star3) 3 ≠ []
  ∧ ∃ pb,
      pair_betweenness star3 (candidates (betweenness star3) 3) = Ok pb
      ∧ (∀ v tbl, (v, tbl) ∈ pb →
           v ∈ candidates (betweenness star3) 3
           ∧ 2 ≤ length (neighbors star3 v)
           ∧ ∃ score groups, greedy_split star3 v tbl score groups)
      ∧ ∃ maxSplit vNum vSpl,
          max_split_betweenness star3 pb = Ok (maxSplit, vNum, vSpl)
          ∧ best_split star3 pb maxSplit vNum vSpl.
Proof.
  assert (0 < 3)%Q as Hpos by reflexivity.
  assert (candidates (betweenness star3) 3 ≠ []) as Hne by (vm_compute; discriminate).
  split; [exact Hpos|]. split; [exact Hne|].
  destruct (pair_betweenness star3 (candidates (betweenness star3) 3))
    as [pb|e] eqn:Hpb.
  - exists pb. split; [reflexivity|].
    exact (optimal_split_finder star3 3 pb Hpos Hne Hpb).
  - vm_compute in Hpb. discriminate Hpb.
Defined.

(** ** C4 *)

(** The reads of [max_split_betweenness] for the vertex [v]: the clique
    matrix has the dimension of the neighbourhood, the collapsed matrix
    is 2 by 2, and [clique[0, 1]] is read inside it. *)
Definition clique_read_in_bounds (G : Graph) (v : nat) (tbl : pb_table) : Prop :=
  ∃ clique clique2 vMap score,
    create_clique G v tbl = Ok clique
    ∧ square (length (neighbors G v)) clique
    ∧ split_of G v tbl = Ok (clique2, vMap)
    ∧ square 2 clique2
    ∧ mat_get clique2 0 1 = Ok score.

(** C4. On a loop-free graph with at least one edge (its edges between
    existing vertices), with [maxEb] the greatest edge betweenness: no
    vertex with fewer than 2 neighbours is a candidate; and for every
    candidate, which has at least 2 neighbours, with its table of pair
    betweenness, the clique matrix has dimension at least 2 and the read
    of [clique[0, 1]] after the collapse is in bounds. *)
Theorem candidates_have_two_neighbors (G : Graph) :
  wf_graph G → loop_free G → es G ≠ [] →
  ∃ maxIndex maxEb pb,
    max_enumerate (edge_betweenness G) = Ok (maxIndex, maxEb)
    ∧ (∀ v, length (neighbors G v) < 2 → v ∉ candidates (betweenness G) maxEb)
    ∧ pair_betweenness G (candidates (betweenness G) maxEb) = Ok pb
    ∧ odict_keys pb = candidates (betweenness G) maxEb
    ∧ ∀ v tbl, (v, tbl) ∈ pb →
        2 ≤ length (neighbors G v) ∧ clique_read_in_bounds G v tbl.
Proof.
  intros Hwf Hlf Hes.
  destruct (step_spec G Hwf Hlf Hes) as (k & x & edge & Hmax & _ & _ & Hpos & _).
  destruct (pair_betweenness_spec G (candidates (betweenness G) x)) as (pb & Hpb & _).
  exists k, x, pb. split; [done|].
  pose proof (candidates_NoDup (betweenness G) x) as Hnd.
  assert (∀ v, v ∈ candidates (betweenness G) x →
            ∃ b, betweenness G !! v = Some b ∧ (0 < b)%Q) as Hcand.
  { intros v (b & Hb & Hxb)%elem_of_candidates. exists b. split; [done|].
    by eapply Qlt_le_trans. }
  split; [|split; [done|split; [exact (pair_betweenness_keys G _ pb Hpb Hnd)|]]].
  - intros v Hdeg Hv. destruct (Hcand v Hv) as (b & Hb & Hbpos).
    destruct (positive_betweenness_triple G v b Hb Hbpos) as (u & w & Hu & Hw & Hne & _).
    pose proof (two_elements _ u w Hu Hw Hne). lia.
  - intros v tbl Hin.
    destruct (candidate_split G _ pb v tbl Hnd Hcand Hpb Hin)
      as (s & g0 & g1 & _ & Hv & Hdeg & Hok & _).
    split; [done|].
    destruct (greedy_split_spec G v tbl Hok Hdeg)
      as (score & groups & clique & clique2 & ? & ? & Hcl & HM & _ & Hsplit & _ & HM2
          & _ & _ & _ & _ & Hget & _).
    by exists clique, clique2, groups, score.
Qed.

Lemma candidates_have_two_neighbors_witness :
  wf_graph star3 ∧ loop_free star3 ∧ es star3 ≠ []
  ∧ ∃ maxIndex maxEb pb,
      max_enumerate (edge_betweenness star3) = Ok (maxIndex, maxEb)
      ∧ (∀ v, length (neighbors star3 v) < 2
              → v ∉ candidates (betweenness star3) maxEb)
      ∧ pair_betweenness star3 (candidates (betweenness star3) maxEb) = Ok pb
      ∧ odict_keys pb = candidates (betweenness star3) maxEb
      ∧ ∀ v tbl, (v, tbl) ∈ pb →
          2 ≤ length (neighbors star3 v) ∧ clique_read_in_bounds star3 v tbl.
Proof.
  assert (wf_graph star3) as Hwf by (repeat constructor; simpl; lia).
  assert (loop_free star3) as Hlf by (repeat constructor; simpl; lia).
  assert (es star3 ≠ []) as Hes by (simpl; discriminate).
  split; [exact Hwf|]. split; [exact Hlf|]. split; [exact Hes|].
  exact (candidates_have_two_neighbors star3 Hwf Hlf Hes).
Defined.

(** ** C8 *)

(** C8. [conga] leaves the caller's graph as it found it: whatever the
    run does (return, raise, or run out of fuel), the object [OG] of the
    store is the same after it as before, vertices, edges and
    attributes; only the working copy, a fresh object, is written. *)
Theorem conga_preserves_input {modularity_value : Type}
    (modularity : Graph → list nat → modularity_value)
    (fuel : nat) (OG : loc) (calculate_modularities : option string)
    (optimal_count : option nat) (σ : store) :
  (conga modularity fuel OG calculate_modularities optimal_count σ).2 !! OG = σ !! OG
  ∧ ∀ l, l ≠ fresh (dom σ) →
      (conga modularity fuel OG calculate_modularities optimal_count σ).2 !! l = σ !! l.
Proof.
  assert (∀ l, l ≠ fresh (dom σ) →
            (conga modularity fuel OG calculate_modularities optimal_count σ).2 !! l
            = σ !! l) as Hframe.
  { intros l Hl. unfold conga, conga_run.
    destruct (σ !! OG) as [og|] eqn:HOG; [|done].
    destruct (set_vattr_column og CONGA_orig _) as [g|e]; simpl.
    - match goal with
      | |- context [conga_loop ?m ?f ?c ?G ?h ?i ?s] =>
          pose proof (conga_loop_frame m f c G h i s l Hl) as Hloop;
          destruct (conga_loop m f c G h i s) as [[[h' n]|e] σ']
      end; simpl in *; rewrite Hloop, !lookup_insert_ne by done; done.
    - by rewrite lookup_insert_ne. }
  split; [|done].
  destruct (σ !! OG) as [og|] eqn:HOG.
  - rewrite <-HOG. apply Hframe. intros ->.
    apply (is_fresh (dom σ)). apply elem_of_dom. eauto.
  - unfold conga, conga_run. by rewrite HOG.
Qed.

(** ** C6 *)

(** Two vertices and no edge. *)
Definition edgeless2 : Graph := mkGraph 2 [] ∅.

(** C6. On a graph without edges [conga] returns without a single call
    of [remove_edge_or_split_vertex]; the history holds exactly one
    snapshot, keyed by the number of connected components of the input.
    That snapshot is [ig.VertexCover(OG)], the one cluster of all the
    vertices, not the cover by the components: on two vertices without
    an edge the key is 2, the components are [[0]] and [[1]], and the
    snapshot is [[0; 1]]. *)
Theorem conga_edgeless_snapshot {modularity_value : Type}
    (modularity : Graph → list nat → modularity_value)
    (fuel : nat) (OG : loc) (calculate_modularities : option string)
    (optimal_count : option nat) (σ : store) (og : Graph) :
  σ !! OG = Some og → es og = [] →
  ∃ r σ',
    conga_run modularity fuel OG calculate_modularities optimal_count σ
    = (Ok (r, 0), σ')
    ∧ co_covers r = {[ length (components og) := [seq 0 (vcount og)] ]}.
Proof.
  intros HOG Hes. unfold conga_run. rewrite HOG.
  assert (set_vattr_column og CONGA_orig (Some <$> seq 0 (vcount og))
          = Ok (mkGraph (vcount og) (es og)
                  (<[CONGA_orig := Some <$> seq 0 (vcount og)]> (vattrs og)))) as ->.
  { unfold set_vattr_column.
    by rewrite bool_decide_eq_true_2 by by rewrite length_fmap, length_seq. }
  destruct fuel; simpl; rewrite lookup_insert_eq; simpl; rewrite Hes;
    eexists _, _; split; reflexivity.
Qed.

Lemma conga_edgeless_snapshot_witness :
  ({[ 0 := edgeless2 ]} : store) !! 0 = Some edgeless2 ∧ es edgeless2 = []
  ∧ components edgeless2 = [[0]; [1]]
  ∧ ∃ r σ',
      conga_run (λ _ _, tt) 0 0 None None {[ 0 := edgeless2 ]} = (Ok (r, 0), σ')
      ∧ co_covers r = {[ 2 := [[0; 1]] ]}.
Proof.
  assert (({[ 0 := edgeless2 ]} : store) !! 0 = Some edgeless2) as HOG by reflexivity.
  assert (es edgeless2 = []) as Hes by reflexivity.
  split; [exact HOG|]. split; [exact Hes|]. split; [reflexivity|].
  exact (conga_edgeless_snapshot (λ _ _, tt) 0 0 None None _ edgeless2 HOG Hes).
Defined.

(** ** C7 *)

(** One edge. *)
Definition edge1 : Graph := mkGraph 2 [(0, 1)] ∅.

(** The table of modularities of a run, if the run returned. *)
Definition modularities_of {modularity_value : Type}
    (run : result (CrispOverlap (modularity_value := modularity_value)) * store)
  : option (option (gmap nat modularity_value)) :=
  match run.1 with
  | Ok r => Some (co_modularities r)
  | Raise _ => None
  end.

(** Naming the measure in [calculate_modularities] leaves the table
    unpopulated; omitting the argument populates it. *)
Lemma modularities_not_populated_on_request :
  modularities_of (conga (λ _ _, tt) 5 0 (Some "lazar"%string) None {[ 0 := edge1 ]})
  = Some None
  ∧ ∃ d, modularities_of (conga (λ _ _, tt) 5 0 None None {[ 0 := edge1 ]}) = Some (Some d)
         ∧ dom d = {[ 1; 2 ]}.
Proof.
  split; [by vm_compute|]. eexists. split; [by vm_compute|]. by vm_compute.
Qed.

(** C7, as the code has it.  The table of modularities handed to
    [CrispOverlap] is populated, with one entry for every recorded
    cluster count, exactly when the argument [calculate_modularities] is
    omitted ([None]), the measure then being [lazar]; when the caller
    names a measure the table is [None] and the measure is handed on for
    the evaluator to compute the modularities later. *)
Theorem modularities_populated_iff_omitted {modularity_value : Type}
    (modularity : Graph → list nat → modularity_value)
    (fuel : nat) (OG : loc) (calculate_modularities : option string)
    (optimal_count : option nat) (σ σ' : store)
    (r : CrispOverlap (modularity_value := modularity_value)) :
  conga modularity fuel OG calculate_modularities optimal_count σ = (Ok r, σ') →
  match calculate_modularities with
  | None =>
      (∃ d, co_modularities r = Some d ∧ dom d = dom (co_covers r))
      ∧ co_modularity_measure r = "lazar"%string
  | Some name => co_modularities r = None ∧ co_modularity_measure r = name
  end.
Proof.
  unfold conga, conga_run. destruct (σ !! OG) as [og|]; [|done].
  destruct (set_vattr_column og CONGA_orig _) as [g|e]; [|done].
  match goal with
  | |- context [conga_loop ?m ?f ?c ?G ?h ?i ?s] =>
      pose proof (conga_loop_history m f c G h i s) as Hloop;
      destruct (conga_loop m f c G h i s) as [[[h' n]|e] σ1]
  end; [|done].
  intros [= <- _]. cbn [co_modularities co_covers co_modularity_measure].
  specialize (Hloop h' n σ1 eq_refl).
  destruct calculate_modularities as [name|]; simpl in *.
  - split; [|done]. by apply Hloop.
  - split; [|done]. apply Hloop. eexists. split; [done|].
    by rewrite !dom_singleton_L.
Qed.

Lemma modularities_populated_iff_omitted_witness :
  ∃ r σ',
    conga (λ _ _, tt) 5 0 None None {[ 0 := edge1 ]} = (Ok r, σ')
    ∧ (∃ d, co_modularities r = Some d ∧ dom d = dom (co_covers r))
    ∧ co_modularity_measure r = "lazar"%string.
Proof.
  destruct (conga (λ _ _, tt) 5 0 None None {[ 0 := edge1 ]}) as [[r|e] σ'] eqn:Hrun.
  - exists r, σ'. split; [reflexivity|].
    exact (modularities_populated_iff_omitted (λ _ _, tt) 5 0 None None _ σ' r Hrun).
  - vm_compute in Hrun. discriminate Hrun.
Defined.

(** ** C5 *)

(** The number of calls of [remove_edge_or_split_vertex] a run made, if
    it returned. *)
Definition iterations_of {modularity_value : Type}
    (run : result (CrispOverlap (modularity_value := modularity_value) * nat) * store)
  : option nat :=
  match run.1 with
  | Ok (_, iters) => Some iters
  | Raise _ => None
  end.

(** A graph of 10 vertices and 31 edges. *)
Definition dense10 : Graph :=
  mkGraph 10
    [(0, 1); (0, 2); (0, 4); (0, 5); (0, 7); (1, 4); (1, 6); (1, 7); (1, 8);
     (1, 9); (2, 3); (2, 5); (2, 6); (2, 8); (3, 4); (3, 5); (3, 6); (3, 8);
     (4, 5); (4, 7); (4, 8); (4, 9); (5, 6); (5, 7); (5, 8); (5, 9); (6, 7);
     (6, 8); (6, 9); (7, 9); (8, 9)] ∅.

(** On [dense10] the loop makes 43 iterations, 12 of them splits: more
    than the 31 edges and 10 vertices the graph starts with. *)
Lemma conga_exceeds_edges_plus_vertices :
  wf_graph dense10 ∧ loop_free dense10
  ∧ iterations_of (conga_run (λ _ _, tt) 100 0 None None {[ 0 := dense10 ]}) = Some 43
  ∧ length (es dense10) + vcount dense10 < 43.
Proof.
  split; [repeat constructor; simpl; lia|].
  split; [repeat constructor; simpl; lia|].
  split; [vm_compute; reflexivity|simpl; lia].
Qed.

(** C5, as the code has it.  On a loop-free graph whose edges join
    existing vertices, [conga] returns, with no edge left in its working
    copy, after at most [measure og] iterations of
    [remove_edge_or_split_vertex]: the number of edges plus, for every
    vertex, its degree less one (nothing for an isolated vertex).  This
    is at most three times the number of edges. *)
Theorem conga_terminates {modularity_value : Type}
    (modularity : Graph → list nat → modularity_value)
    (fuel : nat) (OG : loc) (calculate_modularities : option string)
    (optimal_count : option nat) (σ : store) (og : Graph) :
  σ !! OG = Some og → wf_graph og → loop_free og → measure og ≤ fuel →
  ∃ r iters σ',
    conga_run modularity fuel OG calculate_modularities optimal_count σ
    = (Ok (r, iters), σ')
    ∧ iters ≤ measure og
    ∧ measure og ≤ 3 * length (es og)
    ∧ ∃ g', σ' !! fresh (dom σ) = Some g' ∧ es g' = [].
Proof.
  intros HOG Hwf Hlf Hfuel. unfold conga_run. rewrite HOG.
  set (g := mkGraph (vcount og) (es og)
              (<[CONGA_orig := Some <$> seq 0 (vcount og)]> (vattrs og))).
  assert (set_vattr_column og CONGA_orig (Some <$> seq 0 (vcount og)) = Ok g) as ->.
  { unfold set_vattr_column.
    by rewrite bool_decide_eq_true_2 by by rewrite length_fmap, length_seq. }
  assert (graph_ok g) as Hok.
  { split; [done|]. split; [done|]. exists (Some <$> seq 0 (vcount og)).
    split; [apply lookup_insert_eq|]. split; [by rewrite length_fmap, length_seq|].
    apply Forall_fmap, Forall_forall. intros x _. by eexists. }
  set (G := fresh (dom σ)).
  set (σ0 := <[G := g]> (<[G := og]> σ)).
  set (h0 := mkHistory (length (components og))
               {[ length (components og) := VertexCover_default og ]}
               match calculate_modularities with
               | None => Some {[ length (components og) := modularity g (membership g) ]}
               | Some _ => None
               end).
  assert (history_ok calculate_modularities h0) as Hh0.
  { unfold history_ok, h0. destruct calculate_modularities; simpl; [done|].
    eexists. split; [done|]. by rewrite !dom_singleton_L. }
  assert (σ0 !! G = Some g) as HG by apply lookup_insert_eq.
  destruct (conga_loop_terminates modularity fuel calculate_modularities G h0 0 σ0 g
              HG Hok Hfuel Hh0) as (h' & n & σ' & Hrun & Hn & _ & Hfin).
  fold h0 σ0. rewrite Hrun. eexists _, n, σ'. split; [reflexivity|].
  split; [exact Hn|]. split; [by apply measure_bound|done].
Qed.

Lemma conga_terminates_witness :
  ({[ 0 := star3 ]} : store) !! 0 = Some star3
  ∧ wf_graph star3 ∧ loop_free star3 ∧ measure star3 ≤ 5
  ∧ ∃ r iters σ',
      conga_run (λ _ _, tt) 5 0 None None {[ 0 := star3 ]} = (Ok (r, iters), σ')
      ∧ iters ≤ measure star3
      ∧ measure star3 ≤ 3 * length (es star3)
      ∧ ∃ g', σ' !! fresh (dom ({[ 0 := star3 ]} : store)) = Some g' ∧ es g' = [].
Proof.
  assert (({[ 0 := star3 ]} : store) !! 0 = Some star3) as HOG by reflexivity.
  assert (wf_graph star3) as Hwf by (repeat constructor; simpl; lia).
  assert (loop_free star3) as Hlf by (repeat constructor; simpl; lia).
  assert (measure star3 ≤ 5) as Hfuel by (vm_compute; lia).
  split; [exact HOG|]. split; [exact Hwf|]. split; [exact Hlf|]. split; [exact Hfuel|].
  exact (conga_terminates (λ _ _, tt) 5 0 None None _ star3 HOG Hwf Hlf Hfuel).
Defined.

(** * Further properties of the code *)

(** ** [get_triplets] *)

(** [a[lo:hi]] for [0 ≤ lo]: Python clips both ends to the list. *)
Definition slice {A} (a : list A) (lo hi : nat) : list A := drop lo (take hi a).

(** The [while back <= n] loop of the generator [get_triplets], from
    the value [back]; the list holds what it yields, in order. *)
Fixpoint get_triplets_from {A} (fuel : nat) (a : list A) (n back : nat)
  : result (list (list A)) :=
  if bool_decide (back ≤ n) then
    match fuel with
    | 0 => Raise OutOfFuel
    | S fuel' =>
        let* rest := get_triplets_from fuel' a n (S back) in
        Ok (slice a (back - 3) back :: rest)
    end
  else Ok [].

Definition get_triplets {A} (a : list A) (n : nat) : result (list (list A)) :=
  get_triplets_from n a n 3.

(** What the loop of [pair_betweenness] does with one yielded triplet. *)
Definition count_yielded (dic : pb_dict) (t : list nat) : result pb_dict :=
  match t with
  | [u; v; w] => count_triplet u v w dic
  | _ => Ok dic
  end.

Lemma get_triplets_from_spec {A} (a : list A) (n : nat) fuel back :
  S n - back ≤ fuel →
  get_triplets_from fuel a n back
  = Ok ((λ b, slice a (b - 3) b) <$> seq back (S n - back)).
Proof.
  revert back. induction fuel as [|fuel IH]; intros back Hfuel.
  - simpl. rewrite bool_decide_eq_false_2 by lia.
    by replace (S n - back) with 0 by lia.
  - simpl. case_bool_decide as Hle.
    + rewrite IH by lia. simpl.
      replace (S n - back) with (S (S n - S back)) by lia. done.
    + by replace (S n - back) with 0 by lia.
Qed.

Lemma slice_window {A} (a : list A) k :
  k + 3 ≤ length a → slice a k (k + 3) = take 3 (drop k a).
Proof.
  intros Hk. unfold slice. rewrite take_drop_commute.
  by replace (k + 3 - k) with 3 by lia.
Qed.

Lemma count_triplets_windows (path : list nat) (dic : pb_dict) :
  count_triplets path dic
  = rfoldl count_yielded dic
      ((λ k, take 3 (drop k path)) <$> seq 0 (length path - 2)).
Proof.
  revert dic. induction path as [|u [|v [|w path]] IH]; intros dic; try done.
  replace (length (u :: v :: w :: path) - 2) with (S (length (v :: w :: path) - 2))
    by (simpl; lia).
  rewrite <-cons_seq, fmap_cons, <-fmap_S_seq, <-list_fmap_compose.
  change (count_triplets (u :: v :: w :: path) dic)
    with (let* dic' := count_triplet u v w dic in count_triplets (v :: w :: path) dic').
  cbn [rfoldl]. change (count_yielded dic (take 3 (drop 0 (u :: v :: w :: path))))
    with (count_triplet u v w dic).
  destruct (count_triplet u v w dic) as [dic'|e]; [|done]. cbn [rbind].
  rewrite IH. done.
Qed.

(** X1. [get_triplets(a, len(a))] yields the [len(a) - 2] windows of
    three consecutive elements of [a], front to back, and nothing for a
    list shorter than 3; and the inline loop of [pair_betweenness]
    ([count_triplets]) does to the dictionary exactly what a loop over
    these triplets would do, as its comment says. *)
Theorem get_triplets_windows (path : list nat) (dic : pb_dict) :
  ∃ ts,
    get_triplets path (length path) = Ok ts
    ∧ length ts = length path - 2
    ∧ (∀ k, k < length path - 2 →
         ∃ u v w, path !! k = Some u ∧ path !! S k = Some v ∧ path !! S (S k) = Some w
                  ∧ ts !! k = Some [u; v; w])
    ∧ count_triplets path dic = rfoldl count_yielded dic ts.
Proof.
  unfold get_triplets. rewrite get_triplets_from_spec by lia.
  eexists. split; [done|].
  assert ((λ b, slice path (b - 3) b) <$> seq 3 (S (length path) - 3)
          = (λ k, take 3 (drop k path)) <$> seq 0 (length path - 2)) as ->.
  { replace (S (length path) - 3) with (length path - 2) by lia.
    rewrite <-(fmap_add_seq 3 0), <-list_fmap_compose.
    apply list_fmap_ext. intros i k Hk. apply lookup_seq in Hk as [-> Hk].
    unfold compose. replace (3 + (0 + i) - 3) with i by lia.
    replace (3 + (0 + i)) with (i + 3) by lia. replace (0 + i) with i by lia.
    apply slice_window. lia. }
  split; [by rewrite length_fmap, length_seq|]. split.
  - intros k Hk.
    destruct (lookup_lt_is_Some_2 path k) as [u Hu]; [lia|].
    destruct (lookup_lt_is_Some_2 path (S k)) as [v Hv]; [lia|].
    destruct (lookup_lt_is_Some_2 path (S (S k))) as [w Hw]; [lia|].
    exists u, v, w. do 3 (split; [done|]).
    rewrite list_lookup_fmap, lookup_seq_lt by done.
    change (Some (take 3 (drop k path)) = Some [u; v; w]).
    rewrite (drop_S _ _ _ Hu), (drop_S _ _ _ Hv), (drop_S _ _ _ Hw). done.
  - apply count_triplets_windows.
Qed.

(** ** [get_cover] *)

(** The communities of a membership list, each once, in the order in
    which they first occur. *)
Definition first_occurrences (comm : list nat) : list nat :=
  foldl (λ acc c, if decide (c ∈ acc) then acc else acc ++ [c]) [] comm.

(** The originals of the vertices of community [c], in vertex order. *)
Definition community_members (origs comm : list nat) (c : nat) : list nat :=
  fst <$> filter (λ oc : nat * nat, oc.2 = c) (zip origs comm).

(** One turn of the loop of [get_cover] once the original is read. *)
Definition cover_add (d : odict nat (list nat)) (oc : nat * nat)
  : odict nat (list nat) :=
  odict_set oc.2 (default [] (odict_get oc.2 d) ++ [oc.1]) d.

Lemma odict_values_keys {V} (d : odict nat V) (dflt : V) :
  NoDup (odict_keys d) →
  odict_values d = (λ k, default dflt (odict_get k d)) <$> odict_keys d.
Proof.
  unfold odict_values, odict_keys.
  induction d as [|[k v] d IH]; intros Hnd; [done|].
  rewrite !fmap_cons in *. apply NoDup_cons in Hnd as [Hk Hnd]. cbn [fst snd].
  simpl. rewrite decide_True by done. simpl. f_equal.
  rewrite IH by done. apply list_fmap_ext. intros i k' Hk'.
  apply list_elem_of_lookup_2 in Hk'.
  rewrite decide_False; [done|]. intros ->. done.
Qed.

Lemma cover_add_fold (pairs : list (nat * nat)) (d : odict nat (list nat)) :
  NoDup (odict_keys d) →
  NoDup (odict_keys (foldl cover_add d pairs))
  ∧ odict_keys (foldl cover_add d pairs)
    = foldl (λ acc c, if decide (c ∈ acc) then acc else acc ++ [c])
        (odict_keys d) pairs.*2
  ∧ ∀ c, default [] (odict_get c (foldl cover_add d pairs))
         = default [] (odict_get c d)
           ++ (fst <$> filter (λ oc : nat * nat, oc.2 = c) pairs).
Proof.
  revert d. induction pairs as [|[o c] pairs IH]; intros d Hnd.
  { split; [done|]. split; [done|]. intros c. by rewrite app_nil_r. }
  cbn [foldl]. set (d1 := cover_add d (o, c)).
  assert (NoDup (odict_keys d1)) as Hnd1 by by apply odict_set_keys_NoDup.
  destruct (IH d1 Hnd1) as (Hnd' & Hkeys & Hget).
  split; [done|]. split.
  - rewrite Hkeys. rewrite fmap_cons. cbn [foldl snd]. f_equal.
    unfold d1, cover_add. cbn [fst snd]. case_decide as Hin.
    + apply odict_get_is_Some in Hin as [l Hl]. by eapply odict_keys_set_in.
    + apply odict_keys_set_new. destruct (odict_get c d) eqn:Hg; [|done].
      exfalso. apply Hin. apply odict_get_is_Some. eauto.
  - intros c'. rewrite Hget. unfold d1, cover_add. cbn [fst snd].
    rewrite odict_get_set, filter_cons. cbn [snd].
    destruct (decide (c = c')) as [->|Hne].
    + simpl. by rewrite <-app_assoc.
    + done.
Qed.

Lemma first_occurrences_fold (acc l : list nat) :
  NoDup acc →
  NoDup (foldl (λ acc c, if decide (c ∈ acc) then acc else acc ++ [c]) acc l)
  ∧ ∀ c, c ∈ foldl (λ acc c, if decide (c ∈ acc) then acc else acc ++ [c]) acc l
         ↔ c ∈ acc ∨ c ∈ l.
Proof.
  revert acc. induction l as [|x l IH]; intros acc Hnd.
  { split; [done|]. intros c. rewrite elem_of_nil. tauto. }
  cbn [foldl]. case_decide as Hin.
  - destruct (IH acc Hnd) as [Hnd' Hel]. split; [done|]. intros c.
    rewrite Hel, elem_of_cons. split; [tauto|]. intros [?|[->|?]]; tauto.
  - destruct (IH (acc ++ [x])) as [Hnd' Hel].
    { apply NoDup_app. split; [done|]. split; [|apply NoDup_singleton].
      intros y Hy ->%list_elem_of_singleton. done. }
    split; [done|]. intros c.
    rewrite Hel, elem_of_app, list_elem_of_singleton, elem_of_cons. tauto.
Qed.

(** The loop of [get_cover] over the vertices from [k] on. *)
Lemma get_cover_fold (origs : list nat) (col : list (option nat)) (G : Graph) :
  vattrs G !! CONGA_orig = Some col →
  (∀ i o, origs !! i = Some o → col !! i = Some (Some o)) →
  ∀ (rest : list nat) (d : odict nat (list nat)) k,
    k + length rest ≤ length origs →
    rfoldl (λ (d : odict nat (list nat)) (ic : nat * nat),
              let* o := get_vattr G CONGA_orig ic.1 in
              let* orig := of_option TypeError o in
              Ok (odict_set ic.2 (default [] (odict_get ic.2 d) ++ [orig]) d))
           d (imap (λ i c, (k + i, c)) rest)
    = Ok (foldl cover_add d (zip (drop k origs) rest)).
Proof.
  intros Hcol Hpre rest.
  induction rest as [|c rest IH]; intros d k Hlen.
  { by rewrite zip_with_nil_r. }
  simpl in Hlen.
  destruct (lookup_lt_is_Some_2 origs k) as [o Ho]; [lia|].
  assert (get_vattr G CONGA_orig (k + 0) = Ok (Some o)) as Hget.
  { unfold get_vattr. rewrite Hcol. simpl. rewrite Nat.add_0_r.
    by rewrite (Hpre k o Ho). }
  rewrite (drop_S _ _ _ Ho). cbn [imap rfoldl zip_with foldl]. cbn [fst snd].
  rewrite Hget. cbn [rbind of_option].
  rewrite (imap_ext _ (λ i c, (S k + i, c))).
  2:{ intros i x _. unfold compose. f_equal. lia. }
  rewrite (IH _ (S k)) by lia. done.
Qed.

Lemma get_cover_value (G : Graph) (comm origs : list nat) :
  vattrs G !! CONGA_orig = Some (Some <$> origs) → length comm ≤ length origs →
  get_cover G comm = Ok (community_members origs comm <$> first_occurrences comm).
Proof.
  intros Hcol Hlen.
  assert (∀ i o, origs !! i = Some o → (Some <$> origs) !! i = Some (Some o)) as Hpre.
  { intros i o Ho. by rewrite list_lookup_fmap, Ho. }
  pose proof (get_cover_fold origs _ G Hcol Hpre comm [] 0 Hlen) as Hrun.
  destruct (cover_add_fold (zip origs comm) []) as (Hnd & Hkeys & Hget);
    [constructor|].
  assert ((zip origs comm).*2 = comm) as Hsnd by by apply snd_zip.
  rewrite Hsnd in Hkeys. change (odict_keys []) with (@nil nat) in Hkeys.
  fold (first_occurrences comm) in Hkeys.
  unfold get_cover. unfold enumerate. rewrite drop_0 in Hrun.
  rewrite (imap_ext _ (λ i c, (0 + i, c))) by done. rewrite Hrun. cbn [rbind].
  f_equal. rewrite (odict_values_keys _ []) by done. rewrite Hkeys.
  apply list_fmap_ext. intros i c _. by rewrite Hget.
Qed.

(** X2. When every vertex of [G] holds an original in [CONGA_orig],
    [get_cover] returns one cluster for every community of the
    membership list, in the order in which the communities first occur;
    the cluster of a community lists the originals of its vertices in
    vertex order. *)
Theorem get_cover_clusters (G : Graph) (comm origs : list nat) :
  vattrs G !! CONGA_orig = Some (Some <$> origs) → length comm ≤ length origs →
  NoDup (first_occurrences comm)
  ∧ (∀ c, c ∈ first_occurrences comm ↔ c ∈ comm)
  ∧ get_cover G comm
    = Ok (community_members origs comm <$> first_occurrences comm).
Proof.
  intros Hcol Hlen.
  destruct (first_occurrences_fold [] comm) as [Hnd' Hel]; [constructor|].
  fold (first_occurrences comm) in Hnd', Hel.
  split; [done|]. split.
  - intros c. rewrite Hel, elem_of_nil. tauto.
  - by apply get_cover_value.
Qed.

Lemma get_cover_clusters_witness :
  vattrs star3 !! CONGA_orig = Some (Some <$> [0; 1; 2; 3])
  ∧ length [0; 1; 0; 1] ≤ length [0; 1; 2; 3]
  ∧ NoDup (first_occurrences [0; 1; 0; 1])
  ∧ (∀ c, c ∈ first_occurrences [0; 1; 0; 1] ↔ c ∈ [0; 1; 0; 1])
  ∧ get_cover star3 [0; 1; 0; 1]
    = Ok (community_members [0; 1; 2; 3] [0; 1; 0; 1] <$> first_occurrences [0; 1; 0; 1]).
Proof.
  assert (vattrs star3 !! CONGA_orig = Some (Some <$> [0; 1; 2; 3])) as Hcol
    by (vm_compute; reflexivity).
  assert (length [0; 1; 0; 1] ≤ length [0; 1; 2; 3]) as Hlen by (simpl; lia).
  split; [exact Hcol|]. split; [exact Hlen|].
  exact (get_cover_clusters star3 [0; 1; 0; 1] [0; 1; 2; 3] Hcol Hlen).
Defined.

(** The loop of [get_cover] stops at the first vertex whose original
    cannot be read. *)
Lemma get_cover_stops (origs : list nat) (col : list (option nat)) (G : Graph)
    (comm : list nat) (e : exn) :
  vattrs G !! CONGA_orig = Some col →
  (∀ i o, origs !! i = Some o → col !! i = Some (Some o)) →
  length origs < length comm →
  (let* o := get_vattr G CONGA_orig (length origs) in of_option TypeError o) = Raise e →
  get_cover G comm = Raise e.
Proof.
  intros Hcol Hpre Hlen Hfail. unfold get_cover, enumerate.
  rewrite <-(take_drop (length origs) comm).
  destruct (drop (length origs) comm) as [|c rest] eqn:Hdrop.
  { apply (f_equal length) in Hdrop. rewrite length_drop in Hdrop. simpl in Hdrop. lia. }
  rewrite imap_app, rfoldl_app.
  rewrite (imap_ext _ (λ i c, (0 + i, c))) by done.
  rewrite (get_cover_fold origs col G Hcol Hpre) by (rewrite length_take; lia).
  cbn [rbind imap rfoldl]. unfold compose. cbn [fst snd].
  rewrite length_take, Nat.min_l, Nat.add_0_r by lia.
  destruct (get_vattr G CONGA_orig (length origs)) as [[o|]|e']; simpl in *; congruence.
Qed.

(** X3. [get_cover] fails on the first vertex whose original it cannot
    read.  On a graph with a vertex but without the attribute
    [CONGA_orig] it raises [KeyError] (for a membership list that is not
    empty); when every vertex holds an original and the membership list
    is longer than the vertex sequence it raises [IndexError]; and when
    a vertex of the list holds no original ([None]), the vertices before
    it holding one, it raises [TypeError]. *)
Theorem get_cover_errors (G : Graph) (comm : list nat) :
  (vattrs G !! CONGA_orig = None → 0 < vcount G → comm ≠ [] →
   get_cover G comm = Raise KeyError)
  ∧ (∀ origs, vattrs G !! CONGA_orig = Some (Some <$> origs) →
       length origs = vcount G → vcount G < length comm →
       get_cover G comm = Raise IndexError)
  ∧ (∀ origs rest, vattrs G !! CONGA_orig = Some ((Some <$> origs) ++ None :: rest) →
       length origs + S (length rest) = vcount G → length origs < length comm →
       get_cover G comm = Raise TypeError).
Proof.
  split; [|split].
  - intros Hcol _ Hne. destruct comm as [|c comm]; [done|].
    unfold get_cover, enumerate. cbn [imap rfoldl]. cbn [fst snd].
    unfold get_vattr. by rewrite Hcol.
  - intros origs Hcol Hvc Hlen. rewrite <-Hvc in Hlen.
    apply (get_cover_stops origs _ G comm _ Hcol); [|done|].
    + intros i o Ho. by rewrite list_lookup_fmap, Ho.
    + unfold get_vattr. rewrite Hcol. simpl.
      rewrite (proj2 (lookup_ge_None _ _)); [done|]. by rewrite length_fmap.
  - intros origs rest Hcol _ Hlen.
    apply (get_cover_stops origs _ G comm _ Hcol); [|done|].
    + intros i o Ho. rewrite lookup_app_l by (rewrite length_fmap; by eapply lookup_lt_Some).
      by rewrite list_lookup_fmap, Ho.
    + unfold get_vattr. rewrite Hcol. simpl.
      rewrite lookup_app_r by (by rewrite length_fmap).
      by rewrite length_fmap, Nat.sub_diag.
Qed.

Lemma get_cover_errors_witness :
  get_cover edge1 [0; 0] = Raise KeyError
  ∧ get_cover star3 [0; 0; 0; 0; 0] = Raise IndexError
  ∧ get_cover (add_vertex star3) [0; 0; 0; 0; 0] = Raise TypeError.
Proof.
  split; [|split].
  - apply (proj1 (get_cover_errors edge1 [0; 0]));
      [vm_compute; reflexivity|simpl; lia|discriminate].
  - apply (proj1 (proj2 (get_cover_errors star3 [0; 0; 0; 0; 0])) [0; 1; 2; 3]);
      [vm_compute; reflexivity|reflexivity|simpl; lia].
  - apply (proj2 (proj2 (get_cover_errors (add_vertex star3) [0; 0; 0; 0; 0]))
             [0; 1; 2; 3] []);
      [vm_compute; reflexivity|reflexivity|simpl; lia].
Defined.

(** ** [split_vertex] *)

(** The graph [split_vertex] works on once the new vertex is added and
    labelled with the original [o] of the vertex it splits. *)
Definition with_twin (G : Graph) (col : list (option nat)) (o : nat) : Graph :=
  mkGraph (S (vcount G)) (es G)
    (<[CONGA_orig := <[vcount G := Some o]> (col ++ [None])]>
       ((λ c, c ++ [None]) <$> vattrs G)).

Lemma split_vertex_unfold G v grp col o :
  vattrs G !! CONGA_orig = Some col → length col = vcount G →
  col !! v = Some (Some o) →
  split_vertex G v grp
  = let* G' := rfoldl (move_edge v (vcount G)) (with_twin G col o) grp in
    let* split := check_for_split G' (v, vcount G) in
    Ok (split, G').
Proof.
  intros Hcol Hlen Ho. unfold split_vertex.
  assert (get_vattr (add_vertex G) CONGA_orig v = Ok (Some o)) as ->.
  { unfold get_vattr, add_vertex. cbn [vattrs]. rewrite lookup_fmap, Hcol. simpl.
    rewrite lookup_app_l by (apply lookup_lt_Some in Ho; lia). by rewrite Ho. }
  cbn [rbind].
  assert (set_vattr (add_vertex G) CONGA_orig (vcount G) (Some o)
          = Ok (with_twin G col o)) as ->.
  { unfold set_vattr, add_vertex. cbn [vcount vattrs es].
    rewrite bool_decide_eq_true_2 by lia. by rewrite lookup_fmap, Hcol. }
  done.
Qed.

(** One turn of the loop, edge by edge. *)
Lemma move_edge_adj (v new partner : nat) (H H' : Graph) :
  move_edge v new H partner = Ok H' →
  vcount H' = vcount H ∧ vattrs H' = vattrs H
  ∧ length (es H') = length (es H)
  ∧ ∀ a b, adj_count H' a b + adj_term a b (v, partner)
           = adj_count H a b + adj_term a b (new, partner).
Proof.
  unfold move_edge, add_edge. case_bool_decide; [|done]. cbn [rbind].
  intros (i & e & Hi & Hj & ->)%delete_edges_inv. cbn [fst snd vcount es] in *.
  split; [done|]. split; [done|]. split.
  { cbn [without_edge es]. rewrite length_delete by eauto.
    rewrite length_app. simpl. lia. }
  intros a b.
  set (H1 := mkGraph (vcount H) (es H ++ [(new, partner)]) (vattrs H)) in *.
  pose proof (adj_count_delete H1 (without_edge H1 i) a b i e Hi eq_refl) as Hd.
  pose proof (adj_count_app_edge H H1 a b new partner eq_refl) as Ha.
  assert (adj_term a b e = adj_term a b (v, partner)) as He; [|lia].
  unfold adj_term. apply joins_spec in Hj. destruct e as [x y]. cbn [fst snd] in *.
  destruct Hj as [[-> ->]|[-> ->]]; [done|]. lia.
Qed.

Lemma move_edges_adj (v new : nat) (grp : list nat) (H H' : Graph) :
  rfoldl (move_edge v new) H grp = Ok H' →
  vcount H' = vcount H ∧ vattrs H' = vattrs H
  ∧ length (es H') = length (es H)
  ∧ ∀ a b, adj_count H' a b + sum_list ((λ p, adj_term a b (v, p)) <$> grp)
           = adj_count H a b + sum_list ((λ p, adj_term a b (new, p)) <$> grp).
Proof.
  revert H. induction grp as [|p grp IH]; intros H Hrun.
  { injection Hrun as <-. done. }
  cbn [rfoldl] in Hrun. apply rbind_Ok in Hrun as (H1 & Hmove & Hrun).
  apply move_edge_adj in Hmove as (Hvc1 & Hat1 & Hlen1 & Hadj1).
  apply IH in Hrun as (Hvc & Hat & Hlen & Hadj).
  split; [congruence|]. split; [congruence|]. split; [congruence|]. intros a b.
  rewrite !sum_list_fmap_cons. specialize (Hadj a b). specialize (Hadj1 a b). lia.
Qed.

Lemma count_sum (y : nat) (grp : list nat) :
  count y grp = sum_list ((λ p, if bool_decide (p = y) then 1 else 0) <$> grp).
Proof.
  induction grp as [|p grp IH]; [done|].
  by rewrite count_cons, sum_list_fmap_cons, IH.
Qed.

Lemma split_vertex_adjacency (G : Graph) (v : nat) (grp : list nat) :
  graph_ok G → v < vcount G →
  (∀ y, count y grp ≤ adj_count G v y) →
  ∃ split G',
    split_vertex G v grp = Ok (split, G')
    ∧ vcount G' = S (vcount G) ∧ length (es G') = length (es G)
    ∧ (∀ y, adj_count G' (vcount G) y = count y grp)
    ∧ (∀ y, adj_count G' v y + count y grp = adj_count G v y)
    ∧ (∀ a b, a ≠ v → a ≠ vcount G → b ≠ v → b ≠ vcount G →
         adj_count G' a b = adj_count G a b).
Proof.
  intros Hok Hv Hcount. pose proof Hok as (Hwf & Hlf & col & Hcol & Hlen & Hall).
  destruct (split_vertex_spec G v grp Hok Hv Hcount)
    as (r & G' & Hrun & _ & Hvc & Hes & _ & _).
  exists r, G'. do 3 (split; [done|]).
  destruct (lookup_lt_is_Some_2 col v) as [ov Hov]; [lia|].
  pose proof (proj1 (Forall_forall _ _) Hall ov (list_elem_of_lookup_2 _ _ _ Hov))
    as [o ->].
  rewrite (split_vertex_unfold G v grp col o Hcol Hlen Hov) in Hrun.
  apply rbind_Ok in Hrun as (G'' & Hmoves & Hrest).
  apply rbind_Ok in Hrest as (r' & _ & [= _ ->]).
  apply move_edges_adj in Hmoves as (_ & Hat & _ & Hadj).
  assert (∀ p, p ∈ grp → p ≠ v ∧ p ≠ vcount G) as Hgrp.
  { intros p Hp. assert (0 < count p grp) as Hc.
    { unfold count. destruct (filter _ grp) as [|] eqn:Hf; [|simpl; lia].
      assert (p ∈ filter (λ y, y = p) grp) as Hin by (by apply list_elem_of_filter).
      rewrite Hf in Hin. by apply elem_of_nil in Hin. }
    specialize (Hcount p). assert (0 < adj_count G v p) as Hadjp by lia.
    split.
    - intros ->. rewrite adj_count_loop_free in Hadjp by done. lia.
    - apply (adj_count_lt G v p Hwf) in Hadjp. lia. }
  assert (∀ a b, adj_count (with_twin G col o) a b = adj_count G a b) as Htwin by done.
  split; [|split].
  - intros y. specialize (Hadj (vcount G) y). rewrite Htwin in Hadj.
    assert (adj_count G (vcount G) y = 0) as Hnone.
    { destruct (adj_count G (vcount G) y) eqn:Hc; [done|].
      assert (0 < adj_count G (vcount G) y) as Hpos by lia.
      apply (adj_count_lt G _ _ Hwf) in Hpos. lia. }
    rewrite Hnone in Hadj. rewrite count_sum.
    rewrite (sum_list_fmap_zero (λ p, adj_term (vcount G) y (v, p))) in Hadj.
    2:{ intros p Hp. destruct (Hgrp p Hp). unfold adj_term. cbn [fst snd].
        rewrite !bool_decide_eq_false_2; [done| |]; intros [??]; lia. }
    rewrite Nat.add_0_r, Nat.add_0_l in Hadj. rewrite Hadj.
    apply sum_list_fmap_ext. intros p Hp. destruct (Hgrp p Hp).
    unfold adj_term. cbn [fst snd].
    rewrite (bool_decide_eq_false_2 (p = vcount G ∧ _)) by (intros [??]; lia).
    rewrite Nat.add_0_r.
    by rewrite (bool_decide_ext (vcount G = vcount G ∧ p = y) (p = y)) by tauto.
  - intros y. specialize (Hadj v y). rewrite Htwin in Hadj.
    rewrite (sum_list_fmap_zero (λ p, adj_term v y (vcount G, p))) in Hadj.
    2:{ intros p Hp. destruct (Hgrp p Hp). unfold adj_term. cbn [fst snd].
        rewrite !bool_decide_eq_false_2; [done| |]; intros [??]; lia. }
    rewrite Nat.add_0_r in Hadj. rewrite <-Hadj. f_equal. rewrite count_sum.
    apply sum_list_fmap_ext. intros p Hp. destruct (Hgrp p Hp).
    unfold adj_term. cbn [fst snd].
    rewrite (bool_decide_eq_false_2 (p = v ∧ _)) by (intros [??]; lia).
    rewrite Nat.add_0_r.
    by rewrite (bool_decide_ext (v = v ∧ p = y) (p = y)) by tauto.
  - intros a b Ha1 Ha2 Hb1 Hb2. specialize (Hadj a b). rewrite Htwin in Hadj.
    rewrite (sum_list_fmap_zero (λ p, adj_term a b (v, p))) in Hadj.
    2:{ intros p Hp. unfold adj_term. cbn [fst snd].
        rewrite !bool_decide_eq_false_2; [done| |]; intros [??]; lia. }
    rewrite (sum_list_fmap_zero (λ p, adj_term a b (vcount G, p))) in Hadj.
    2:{ intros p Hp. unfold adj_term. cbn [fst snd].
        rewrite !bool_decide_eq_false_2; [done| |]; intros [??]; lia. }
    lia.
Qed.

(** X4. [split_vertex G v grp], for a group that holds no vertex more
    often than [v] has edges to it, returns a graph with one more
    vertex and as many edges in which the new vertex has exactly the
    edges to the members of the group, [v] has lost exactly these, no
    other adjacency has changed, and the new vertex carries the original
    of [v] while every old vertex keeps its own. *)
Theorem split_vertex_moves_edges (G : Graph) (v : nat) (grp : list nat) :
  graph_ok G → v < vcount G →
  (∀ y, count y grp ≤ adj_count G v y) →
  ∃ split G',
    split_vertex G v grp = Ok (split, G')
    ∧ vcount G' = S (vcount G) ∧ length (es G') = length (es G)
    ∧ (∀ y, adj_count G' (vcount G) y = count y grp)
    ∧ (∀ y, adj_count G' v y + count y grp = adj_count G v y)
    ∧ (∀ a b, a ≠ v → a ≠ vcount G → b ≠ v → b ≠ vcount G →
         adj_count G' a b = adj_count G a b)
    ∧ get_vattr G' CONGA_orig (vcount G) = get_vattr G CONGA_orig v
    ∧ (∀ i, i < vcount G → get_vattr G' CONGA_orig i = get_vattr G CONGA_orig i).
Proof.
  intros Hok Hv Hcount. pose proof Hok as (Hwf & Hlf & col & Hcol & Hlen & Hall).
  destruct (split_vertex_adjacency G v grp Hok Hv Hcount)
    as (r & G' & Hrun & Hvc & Hes & Hnew & Hold & Hother).
  exists r, G'. do 6 (split; [done|]).
  destruct (lookup_lt_is_Some_2 col v) as [ov Hov]; [lia|].
  pose proof (proj1 (Forall_forall _ _) Hall ov (list_elem_of_lookup_2 _ _ _ Hov))
    as [o ->].
  rewrite (split_vertex_unfold G v grp col o Hcol Hlen Hov) in Hrun.
  apply rbind_Ok in Hrun as (G'' & Hmoves & Hrest).
  apply rbind_Ok in Hrest as (r' & _ & [= _ ->]).
  apply move_edges_adj in Hmoves as (_ & Hat & _ & _).
  split.
  - unfold get_vattr. rewrite Hat, Hcol. unfold with_twin. cbn [vattrs].
    rewrite lookup_insert_eq. cbn [rbind of_option].
    rewrite list_lookup_insert_eq by (rewrite length_app; simpl; lia).
    by rewrite Hov.
  - intros i Hi. unfold get_vattr. rewrite Hat, Hcol. unfold with_twin. cbn [vattrs].
    rewrite lookup_insert_eq. cbn [rbind of_option].
    rewrite list_lookup_insert_ne by lia. by rewrite lookup_app_l by lia.
Qed.



Lemma split_vertex_moves_edges_witness :
  graph_ok star3 ∧ 0 < vcount star3
  ∧ (∀ y, count y [1; 2] ≤ adj_count star3 0 y)
  ∧ ∃ split G',
      split_vertex star3 0 [1; 2] = Ok (split, G')
      ∧ vcount G' = S (vcount star3) ∧ length (es G') = length (es star3)
      ∧ (∀ y, adj_count G' (vcount star3) y = count y [1; 2])
      ∧ (∀ y, adj_count G' 0 y + count y [1; 2] = adj_count star3 0 y)
      ∧ (∀ a b, a ≠ 0 → a ≠ vcount star3 → b ≠ 0 → b ≠ vcount star3 →
           adj_count G' a b = adj_count star3 a b)
      ∧ get_vattr G' CONGA_orig (vcount star3) = get_vattr star3 CONGA_orig 0
      ∧ (∀ i, i < vcount star3 →
           get_vattr G' CONGA_orig i = get_vattr star3 CONGA_orig i).
Proof.
  assert (graph_ok star3) as Hok by graph_ok_by_computation.
  assert (0 < vcount star3) as Hv by (simpl; lia).
  assert (∀ y, count y [1; 2] ≤ adj_count star3 0 y) as Hcount.
  { intros [|[|[|y]]]; vm_compute; lia. }
  split; [exact Hok|]. split; [exact Hv|]. split; [exact Hcount|].
  exact (split_vertex_moves_edges star3 0 [1; 2] Hok Hv Hcount).
Defined.

(** ** What one step does to the size of the graph *)

(** The two shapes of a step: an edge less, or a vertex more. *)
Definition edge_less (G G' : Graph) : Prop :=
  vcount G' = vcount G ∧ S (length (es G')) = length (es G)
  ∧ vattrs G' = vattrs G.

Definition vertex_more (G G' : Graph) : Prop :=
  vcount G' = S (vcount G) ∧ length (es G') = length (es G).

Lemma delete_edge_shape G edge split G' :
  delete_edge G edge = Ok (split, G') → edge_less G G'.
Proof.
  unfold delete_edge. intros (G1 & Hdel & Hrest)%rbind_Ok.
  apply rbind_Ok in Hrest as (r & _ & [= _ ->]).
  apply delete_edges_inv in Hdel as (i & e & Hi & _ & ->).
  split; [done|]. split; [|done]. cbn [without_edge es].
  rewrite length_delete by eauto. apply lookup_lt_Some in Hi. lia.
Qed.

Lemma split_vertex_shape G v grp split G' :
  split_vertex G v grp = Ok (split, G') → vertex_more G G'.
Proof.
  unfold split_vertex. intros (o & _ & Hrest)%rbind_Ok.
  apply rbind_Ok in Hrest as (G1 & Hset & Hrest).
  apply rbind_Ok in Hrest as (G2 & Hmoves & Hrest).
  apply rbind_Ok in Hrest as (r & _ & [= _ ->]).
  apply move_edges_adj in Hmoves as (Hvc & _ & Hlen & _).
  unfold set_vattr in Hset. case_bool_decide; [|done]. injection Hset as <-.
  cbn [vcount es add_vertex] in *. done.
Qed.

(** X5. Whenever [remove_edge_or_split_vertex] returns, it has either
    removed exactly one edge, leaving the vertices and their attributes
    alone, or added exactly one vertex, leaving the number of edges as
    it was; on a graph without edges it raises [ValueError], the
    maximum of an empty sequence. *)
Theorem remove_edge_or_split_vertex_shape (G : Graph) :
  (es G = [] → remove_edge_or_split_vertex G = Raise ValueError)
  ∧ ∀ split G', remove_edge_or_split_vertex G = Ok (split, G') →
      edge_less G G' ∨ vertex_more G G'.
Proof.
  split.
  { intros Hes. unfold remove_edge_or_split_vertex, edge_betweenness.
    by rewrite Hes. }
  intros split G'. unfold remove_edge_or_split_vertex.
  intros ([k x] & _ & Hrest)%rbind_Ok.
  apply rbind_Ok in Hrest as (edge & _ & Hrest).
  destruct (candidates (betweenness G) x) as [|v0 vi].
  { left. by eapply delete_edge_shape. }
  apply rbind_Ok in Hrest as (pb & _ & Hrest).
  apply rbind_Ok in Hrest as ([[maxSplit vNum] vSpl] & _ & Hrest).
  destruct (Qltb x (inject_Z maxSplit)).
  - apply rbind_Ok in Hrest as (grp & _ & Hrest). right. by eapply split_vertex_shape.
  - left. by eapply delete_edge_shape.
Qed.

Lemma remove_edge_or_split_vertex_shape_witness :
  remove_edge_or_split_vertex edgeless2 = Raise ValueError
  ∧ ∃ split G', remove_edge_or_split_vertex star3 = Ok (split, G')
                ∧ (edge_less star3 G' ∨ vertex_more star3 G').
Proof.
  split.
  - exact (proj1 (remove_edge_or_split_vertex_shape edgeless2) eq_refl).
  - destruct (remove_edge_or_split_vertex star3) as [[split G']|e] eqn:Hrun.
    + exists split, G'. split; [reflexivity|].
      exact (proj2 (remove_edge_or_split_vertex_shape star3) split G' Hrun).
    + vm_compute in Hrun. discriminate Hrun.
Defined.

(** ** Invariants of the driver *)

Section driver_invariants.
Context {modularity_value : Type}.
Variable modularity : Graph → list nat → modularity_value.

Lemma record_split_inv cm g (h h' : history (modularity_value := modularity_value)) :
  record_split modularity cm g h = Ok h' →
  ∃ cover, get_cover g (membership g) = Ok cover
           ∧ nClusters h' = S (nClusters h)
           ∧ allCovers h' = <[S (nClusters h) := cover]> (allCovers h).
Proof.
  unfold record_split. intros (cover & Hc & Hrest)%rbind_Ok.
  exists cover. split; [done|]. destruct cm as [name|].
  - by injection Hrest as <-.
  - apply rbind_Ok in Hrest as (d & _ & [= <-]). done.
Qed.

(** A property of the working graph, the history and the iteration
    count that every step keeps holds when the loop returns, and then
    the working graph has no edge. *)
Lemma conga_loop_invariant
    (P : Graph → history (modularity_value := modularity_value) → nat → Prop)
    cm G :
  (∀ g h n g', P g h n → es g ≠ [] →
     remove_edge_or_split_vertex g = Ok (false, g') → P g' h (S n)) →
  (∀ g h n g' h', P g h n → es g ≠ [] →
     remove_edge_or_split_vertex g = Ok (true, g') →
     record_split modularity cm g' h = Ok h' → P g' h' (S n)) →
  ∀ fuel h iters σ g h' n σ',
    σ !! G = Some g → P g h iters →
    conga_loop modularity fuel cm G h iters σ = (Ok (h', n), σ') →
    ∃ g', σ' !! G = Some g' ∧ es g' = [] ∧ P g' h' n.
Proof.
  intros Hstay Hsplit fuel.
  induction fuel as [|fuel IH]; intros h iters σ g h' n σ' HG HP; simpl; rewrite HG.
  - destruct (es g) eqn:Hes; [|done]. intros [= <- <- <-]. eauto.
  - destruct (es g) as [|e l] eqn:Hes.
    { intros [= <- <- <-]. eauto. }
    destruct (remove_edge_or_split_vertex g) as [[[] g']|] eqn:Hstep; [| |done].
    + destruct (record_split modularity cm g' h) as [h1|] eqn:Hrec; [|done].
      apply (IH h1 (S iters) _ g'); [apply lookup_insert_eq|].
      eapply Hsplit; [done| |done|done]. by rewrite Hes.
    + apply (IH h (S iters) _ g'); [apply lookup_insert_eq|].
      eapply Hstay; [done| |done]. by rewrite Hes.
Qed.

End driver_invariants.

(** The state in which [conga_run] enters its loop. *)
Lemma conga_run_inv {modularity_value : Type}
    (modularity : Graph → list nat → modularity_value)
    fuel OG cm oc σ r iters σ' :
  conga_run modularity fuel OG cm oc σ = (Ok (r, iters), σ') →
  ∃ og g h0 h',
    σ !! OG = Some og
    ∧ g = mkGraph (vcount og) (es og)
            (<[CONGA_orig := Some <$> seq 0 (vcount og)]> (vattrs og))
    ∧ nClusters h0 = length (components og)
    ∧ allCovers h0 = {[ length (components og) := VertexCover_default og ]}
    ∧ conga_loop modularity fuel cm (fresh (dom σ)) h0 0
        (<[fresh (dom σ) := g]> (<[fresh (dom σ) := og]> σ))
      = (Ok (h', iters), σ')
    ∧ r = mkCrispOverlap OG (allCovers h') (modDict h')
            (default "lazar"%string cm) oc.
Proof.
  unfold conga_run. destruct (σ !! OG) as [og|]; [|done].
  unfold set_vattr_column.
  rewrite bool_decide_eq_true_2 by by rewrite length_fmap, length_seq.
  match goal with
  | |- context [conga_loop ?m ?f ?c ?G ?h ?i ?s] =>
      destruct (conga_loop m f c G h i s) as [[[h' n]|e] σ1] eqn:Hloop;
      [|done]; intros [= <- <- <-];
      exists og, (mkGraph (vcount og) (es og)
                    (<[CONGA_orig := Some <$> seq 0 (vcount og)]> (vattrs og))), h, h'
  end.
  done.
Qed.

(** ** The number of iterations *)

(** X6. Whenever [conga] returns, its working copy has no edge left
    and the loop has made exactly as many iterations as the input has
    edges plus the number of vertices the splits have added: every edge
    is deleted once, and every other iteration is a vertex split. *)
Theorem conga_iterations {modularity_value : Type}
    (modularity : Graph → list nat → modularity_value)
    (fuel : nat) (OG : loc) (calculate_modularities : option string)
    (optimal_count : option nat) (σ σ' : store)
    (r : CrispOverlap (modularity_value := modularity_value)) (iters : nat) :
  conga_run modularity fuel OG calculate_modularities optimal_count σ
  = (Ok (r, iters), σ') →
  ∃ og g',
    σ !! OG = Some og ∧ σ' !! fresh (dom σ) = Some g' ∧ es g' = []
    ∧ vcount og ≤ vcount g'
    ∧ iters = length (es og) + (vcount g' - vcount og).
Proof.
  intros (og & g & h0 & h' & HOG & Hg & _ & _ & Hloop & _)%conga_run_inv.
  set (P := λ (g : Graph) (_ : history (modularity_value := modularity_value)) (n : nat),
              vcount og ≤ vcount g
              ∧ n + length (es g) + vcount og = length (es og) + vcount g).
  destruct (conga_loop_invariant modularity P calculate_modularities (fresh (dom σ)))
    with (fuel := fuel) (h := h0) (iters := 0) (g := g) (h' := h') (n := iters)
         (σ := <[fresh (dom σ) := g]> (<[fresh (dom σ) := og]> σ)) (σ' := σ')
    as (g' & HG' & Hes' & Hvc & Hcount).
  - intros g1 h n g2 [Hvc Hn] _ Hstep.
    apply (proj2 (remove_edge_or_split_vertex_shape g1)) in Hstep
      as [(Hv & He & _)|(Hv & He)]; unfold P; lia.
  - intros g1 h n g2 h2 [Hvc Hn] _ Hstep _.
    apply (proj2 (remove_edge_or_split_vertex_shape g1)) in Hstep
      as [(Hv & He & _)|(Hv & He)]; unfold P; lia.
  - apply lookup_insert_eq.
  - unfold P. rewrite Hg. simpl. lia.
  - done.
  - exists og, g'. do 3 (split; [done|]). rewrite Hes' in Hcount. simpl in Hcount.
    split; [done|]. lia.
Qed.

Lemma conga_iterations_witness :
  ∃ r iters σ',
    conga_run (λ _ _, tt) 5 0 None None {[ 0 := star3 ]} = (Ok (r, iters), σ')
    ∧ ∃ og g',
        ({[ 0 := star3 ]} : store) !! 0 = Some og
        ∧ σ' !! fresh (dom ({[ 0 := star3 ]} : store)) = Some g' ∧ es g' = []
        ∧ vcount og ≤ vcount g'
        ∧ iters = length (es og) + (vcount g' - vcount og).
Proof.
  destruct (conga_run (λ _ _, tt) 5 0 None None {[ 0 := star3 ]})
    as [[[r iters]|e] σ'] eqn:Hrun.
  - exists r, iters, σ'. split; [reflexivity|].
    exact (conga_iterations (λ _ _, tt) 5 0 None None _ σ' r iters Hrun).
  - vm_compute in Hrun. discriminate Hrun.
Defined.

(** ** The keys of the history *)

(** X7. Whenever [conga] returns, the covers it hands to
    [CrispOverlap] are keyed by consecutive cluster counts: there is one
    for every count from the number of connected components of the
    input up to the last count recorded, and for no other; the last
    count exceeds the first by at most the number of iterations.  The
    graph handed on is the caller's, and [optimal_count] is passed
    through. *)
Theorem conga_history_keys {modularity_value : Type}
    (modularity : Graph → list nat → modularity_value)
    (fuel : nat) (OG : loc) (calculate_modularities : option string)
    (optimal_count : option nat) (σ σ' : store)
    (r : CrispOverlap (modularity_value := modularity_value)) (iters : nat) :
  conga_run modularity fuel OG calculate_modularities optimal_count σ
  = (Ok (r, iters), σ') →
  ∃ og last,
    σ !! OG = Some og
    ∧ length (components og) ≤ last ≤ length (components og) + iters
    ∧ (∀ k, k ∈ dom (co_covers r) ↔ length (components og) ≤ k ≤ last)
    ∧ co_graph r = OG ∧ co_optimal_count r = optimal_count.
Proof.
  intros (og & g & h0 & h' & HOG & Hg & Hn0 & Hc0 & Hloop & ->)%conga_run_inv.
  set (n0 := length (components og)) in *.
  set (P := λ (_ : Graph) (h : history (modularity_value := modularity_value)) (n : nat),
              n0 ≤ nClusters h ≤ n0 + n
              ∧ ∀ k, k ∈ dom (allCovers h) ↔ n0 ≤ k ≤ nClusters h).
  destruct (conga_loop_invariant modularity P calculate_modularities (fresh (dom σ)))
    with (fuel := fuel) (h := h0) (iters := 0) (g := g) (h' := h') (n := iters)
         (σ := <[fresh (dom σ) := g]> (<[fresh (dom σ) := og]> σ)) (σ' := σ')
    as (g' & _ & _ & Hlast & Hkeys).
  - intros g1 h n g2 [Hn Hk] _ _. split; [lia|done].
  - intros g1 h n g2 h2 [Hn Hk] _ _ (cover & _ & Hn2 & Hc2)%record_split_inv.
    split; [lia|]. intros k. rewrite Hc2, dom_insert_L, elem_of_union, elem_of_singleton.
    rewrite Hk, Hn2. lia.
  - apply lookup_insert_eq.
  - split; [lia|]. intros k. rewrite Hc0, dom_singleton_L, elem_of_singleton. lia.
  - done.
  - exists og, (nClusters h'). done.
Qed.

Lemma conga_history_keys_witness :
  ∃ r iters σ',
    conga_run (λ _ _, tt) 5 0 None (Some 2) {[ 0 := star3 ]} = (Ok (r, iters), σ')
    ∧ ∃ og last,
        ({[ 0 := star3 ]} : store) !! 0 = Some og
        ∧ length (components og) ≤ last ≤ length (components og) + iters
        ∧ (∀ k, k ∈ dom (co_covers r) ↔ length (components og) ≤ k ≤ last)
        ∧ co_graph r = 0 ∧ co_optimal_count r = Some 2.
Proof.
  destruct (conga_run (λ _ _, tt) 5 0 None (Some 2) {[ 0 := star3 ]})
    as [[[r iters]|e] σ'] eqn:Hrun.
  - exists r, iters, σ'. split; [reflexivity|].
    exact (conga_history_keys (λ _ _, tt) 5 0 None (Some 2) _ σ' r iters Hrun).
  - vm_compute in Hrun. discriminate Hrun.
Defined.

(** ** Every snapshot covers the original vertices *)

(** Every vertex of the working graph holds an original, and the
    originals are exactly the [N] vertices of the input. *)
Definition orig_onto (N : nat) (G : Graph) : Prop :=
  ∃ origs, vattrs G !! CONGA_orig = Some (Some <$> origs)
           ∧ length origs = vcount G
           ∧ ∀ o, o ∈ origs ↔ o < N.

(** The clusters hold vertices below [N] only, and every vertex below
    [N] lies in a cluster. *)
Definition is_cover (N : nat) (cover : list (list nat)) : Prop :=
  (∀ cl o, cl ∈ cover → o ∈ cl → o < N)
  ∧ ∀ o, o < N → ∃ cl, cl ∈ cover ∧ o ∈ cl.

Lemma split_vertex_orig G v grp split G' origs :
  split_vertex G v grp = Ok (split, G') →
  vattrs G !! CONGA_orig = Some (Some <$> origs) → length origs = vcount G →
  ∃ o, origs !! v = Some o
       ∧ vcount G' = S (vcount G)
       ∧ vattrs G' !! CONGA_orig = Some (Some <$> (origs ++ [o])).
Proof.
  intros Hrun Hcol Hlen.
  assert (v < vcount G) as Hv.
  { unfold split_vertex in Hrun. apply rbind_Ok in Hrun as (x & Hget & Hrest).
    apply rbind_Ok in Hrest as (G1 & _ & Hrest).
    apply rbind_Ok in Hrest as (G2 & _ & Hrest).
    apply rbind_Ok in Hrest as (r & Hcheck & _).
    unfold check_for_split, edge_disjoint_paths_is_zero in Hcheck. cbn [fst snd] in Hcheck.
    case_bool_decide as Hne; [done|].
    unfold get_vattr, add_vertex in Hget. cbn [vattrs] in Hget.
    rewrite lookup_fmap, Hcol in Hget. simpl in Hget.
    apply of_option_Ok in Hget. apply lookup_lt_Some in Hget.
    rewrite length_app, length_fmap in Hget. simpl in Hget. lia. }
  destruct (lookup_lt_is_Some_2 origs v) as [o Ho]; [lia|].
  exists o. split; [done|].
  rewrite (split_vertex_unfold G v grp (Some <$> origs) o) in Hrun;
    [|done|by rewrite length_fmap|by rewrite list_lookup_fmap, Ho].
  apply rbind_Ok in Hrun as (G2 & Hmoves & Hrest).
  apply rbind_Ok in Hrest as (r & _ & [= _ ->]).
  apply move_edges_adj in Hmoves as (Hvc & Hat & _). split; [done|].
  rewrite Hat. unfold with_twin. cbn [vattrs]. rewrite lookup_insert_eq. f_equal.
  rewrite fmap_app. simpl. rewrite <-Hlen, <-(length_fmap Some origs).
  rewrite insert_app_r_alt by done. by rewrite Nat.sub_diag.
Qed.

Lemma step_orig_onto N G split G' :
  remove_edge_or_split_vertex G = Ok (split, G') → orig_onto N G → orig_onto N G'.
Proof.
  unfold remove_edge_or_split_vertex. intros ([k x] & _ & Hrest)%rbind_Ok Hon.
  apply rbind_Ok in Hrest as (edge & _ & Hrest).
  assert (∀ r, delete_edge G edge = Ok (r, G') → orig_onto N G') as Hdel.
  { intros r (Hvc & _ & Hat)%delete_edge_shape. destruct Hon as (origs & ? & ? & ?).
    exists origs. rewrite Hat, Hvc. done. }
  destruct (candidates (betweenness G) x) as [|v0 vi]; [by eapply Hdel|].
  apply rbind_Ok in Hrest as (pb & _ & Hrest).
  apply rbind_Ok in Hrest as ([[maxSplit vNum] vSpl] & _ & Hrest).
  destruct (Qltb x (inject_Z maxSplit)); [|by eapply Hdel].
  apply rbind_Ok in Hrest as (grp & _ & Hrest).
  destruct Hon as (origs & Hcol & Hlen & Hel).
  destruct (split_vertex_orig G vNum grp split G' origs Hrest Hcol Hlen)
    as (o & Ho & Hvc & Hcol').
  exists (origs ++ [o]). split; [done|]. split.
  - rewrite length_app, Hvc. simpl. lia.
  - intros o'. rewrite elem_of_app, list_elem_of_singleton, <-Hel.
    split; [|tauto]. intros [?| ->]; [done|]. by eapply list_elem_of_lookup_2.
Qed.

Lemma cover_is_cover (origs comm : list nat) N :
  length comm = length origs → (∀ o, o ∈ origs ↔ o < N) →
  is_cover N (community_members origs comm <$> first_occurrences comm).
Proof.
  intros Hlen Hel. split.
  - intros cl o Hcl Ho. apply list_elem_of_fmap in Hcl as (c & Hcl & _). subst cl.
    apply Hel. unfold community_members in Ho.
    apply list_elem_of_fmap in Ho as ([o' c'] & Heq & Hin). simpl in Heq. subst o'.
    apply list_elem_of_filter in Hin as [_ Hin]. by apply elem_of_zip_l in Hin.
  - intros o Ho. apply Hel in Ho. apply list_elem_of_lookup in Ho as [i Hi].
    destruct (lookup_lt_is_Some_2 comm i) as [c Hc].
    { rewrite Hlen. by eapply lookup_lt_Some. }
    exists (community_members origs comm c). split.
    + apply list_elem_of_fmap. exists c. split; [done|].
      destruct (first_occurrences_fold [] comm) as [_ Hfo]; [constructor|].
      apply Hfo. right. by eapply list_elem_of_lookup_2.
    + unfold community_members. apply list_elem_of_fmap. exists (o, c).
      split; [done|]. apply list_elem_of_filter. split; [done|].
      apply list_elem_of_lookup. exists i. by rewrite lookup_zip_with, Hi, Hc.
Qed.

(** X8. Whenever [conga] returns, every snapshot of its history is a
    cover of the vertices of the input graph: its clusters hold vertices
    of the input only, and every vertex of the input lies in at least
    one cluster (in several, once it has been split). *)
Theorem conga_snapshots_cover {modularity_value : Type}
    (modularity : Graph → list nat → modularity_value)
    (fuel : nat) (OG : loc) (calculate_modularities : option string)
    (optimal_count : option nat) (σ σ' : store)
    (r : CrispOverlap (modularity_value := modularity_value)) (iters : nat) :
  conga_run modularity fuel OG calculate_modularities optimal_count σ
  = (Ok (r, iters), σ') →
  ∃ og,
    σ !! OG = Some og
    ∧ ∀ k cover, co_covers r !! k = Some cover →
        (∀ cl o, cl ∈ cover → o ∈ cl → o < vcount og)
        ∧ ∀ o, o < vcount og → ∃ cl, cl ∈ cover ∧ o ∈ cl.
Proof.
  intros (og & g & h0 & h' & HOG & Hg & Hn0 & Hc0 & Hloop & ->)%conga_run_inv.
  set (N := vcount og).
  set (P := λ (g : Graph) (h : history (modularity_value := modularity_value)) (_ : nat),
              orig_onto N g
              ∧ ∀ k cover, allCovers h !! k = Some cover → is_cover N cover).
  destruct (conga_loop_invariant modularity P calculate_modularities (fresh (dom σ)))
    with (fuel := fuel) (h := h0) (iters := 0) (g := g) (h' := h') (n := iters)
         (σ := <[fresh (dom σ) := g]> (<[fresh (dom σ) := og]> σ)) (σ' := σ')
    as (g' & _ & _ & _ & Hcovers).
  - intros g1 h n g2 [Hon Hk] _ Hstep. split; [by eapply step_orig_onto|done].
  - intros g1 h n g2 h2 [Hon Hk] _ Hstep (cover & Hcover & Hn2 & Hc2)%record_split_inv.
    pose proof (step_orig_onto N g1 true g2 Hstep Hon) as Hon2.
    split; [done|]. intros k cover'. rewrite Hc2.
    destruct (decide (k = S (nClusters h))) as [->|Hne].
    + rewrite lookup_insert_eq. intros [= <-].
      destruct Hon2 as (origs & Hcol & Hlen & Hel).
      rewrite (get_cover_value g2 (membership g2) origs Hcol) in Hcover
        by (rewrite length_membership; lia).
      injection Hcover as <-.
      apply cover_is_cover; [|done]. by rewrite length_membership.
    + rewrite lookup_insert_ne by done. apply Hk.
  - apply lookup_insert_eq.
  - split.
    + exists (seq 0 N). rewrite Hg. cbn [vattrs vcount]. rewrite lookup_insert_eq.
      split; [done|]. split; [by rewrite length_seq|].
      intros o. rewrite elem_of_seq. lia.
    + intros k cover. rewrite Hc0. intros [<- <-]%lookup_singleton_Some.
      unfold VertexCover_default. split.
      * intros cl o ->%list_elem_of_singleton ?%elem_of_seq. unfold N. lia.
      * intros o Ho. exists (seq 0 (vcount og)). split; [left|].
        apply elem_of_seq. unfold N in Ho. lia.
  - done.
  - exists og. split; [done|]. intros k cover Hk. exact (Hcovers k cover Hk).
Qed.

Lemma conga_snapshots_cover_witness :
  ∃ r iters σ',
    conga_run (λ _ _, tt) 5 0 None None {[ 0 := star3 ]} = (Ok (r, iters), σ')
    ∧ ∃ og,
        ({[ 0 := star3 ]} : store) !! 0 = Some og
        ∧ ∀ k cover, co_covers r !! k = Some cover →
            (∀ cl o, cl ∈ cover → o ∈ cl → o < vcount og)
            ∧ ∀ o, o < vcount og → ∃ cl, cl ∈ cover ∧ o ∈ cl.
Proof.
  destruct (conga_run (λ _ _, tt) 5 0 None None {[ 0 := star3 ]})
    as [[[r iters]|e] σ'] eqn:Hrun.
  - exists r, iters, σ'. split; [reflexivity|].
    exact (conga_snapshots_cover (λ _ _, tt) 5 0 None None _ σ' r iters Hrun).
  - vm_compute in Hrun. discriminate Hrun.
Defined.

(** ** What the split betweenness counts *)

(** The total weight between two groups of neighbours. *)
Definition cross_weight (w : nat → nat → Z) (g h : list nat) : Z :=
  foldr (λ u acc, (foldr (λ x acc', (w u x + acc')%Z) 0%Z h + acc)%Z) 0%Z g.

Lemma cross_weight_app_l w g1 g2 h :
  cross_weight w (g1 ++ g2) h = (cross_weight w g1 h + cross_weight w g2 h)%Z.
Proof.
  unfold cross_weight. induction g1 as [|u g1 IH]; [done|].
  cbn [app foldr]. rewrite IH. lia.
Qed.

Lemma row_weight_app (f : nat → Z) h1 h2 :
  foldr (λ x acc, (f x + acc)%Z) 0%Z (h1 ++ h2)
  = (foldr (λ x acc, (f x + acc)%Z) 0%Z h1 + foldr (λ x acc, (f x + acc)%Z) 0%Z h2)%Z.
Proof. induction h1 as [|x h1 IH]; [done|]. cbn [app foldr]. rewrite IH. lia. Qed.

Lemma cross_weight_app_r w g h1 h2 :
  cross_weight w g (h1 ++ h2) = (cross_weight w g h1 + cross_weight w g h2)%Z.
Proof.
  unfold cross_weight. induction g as [|u g IH]; [done|].
  cbn [foldr]. rewrite IH, (row_weight_app (w u)). lia.
Qed.

Lemma cross_weight_ext w w' g h :
  (∀ u x, u ∈ g → x ∈ h → w u x = w' u x) → cross_weight w g h = cross_weight w' g h.
Proof.
  intros Hext. unfold cross_weight. induction g as [|u g IH]; [done|].
  cbn [foldr]. rewrite IH by (intros ????; apply Hext; [by right|done]). f_equal.
  assert (∀ x, x ∈ h → w u x = w' u x) as Hrow by (intros ??; apply Hext; [left|done]).
  clear -Hrow. induction h as [|x h IHh]; [done|]. cbn [foldr].
  rewrite IHh by (intros ??; apply Hrow; by right). rewrite Hrow by left. done.
Qed.

(** Every cell off the diagonal holds the weight between its groups. *)
Definition sums_ok (w : nat → nat → Z) (st : matrix * list (list nat)) : Prop :=
  ∀ r c gr gc, r ≠ c → st.2 !! r = Some gr → st.2 !! c = Some gc →
               entry st.1 r c = cross_weight w gr gc.

Lemma skip_inj j a b : skip j a = skip j b → a = b.
Proof. unfold skip. repeat case_decide; lia. Qed.

Lemma skip_ne j a : skip j a ≠ j.
Proof. unfold skip. case_decide; lia. Qed.

Lemma greedy_merge_sums w n st st' :
  collapse_ok (S n) st → 1 ≤ n → greedy_merge st st' → sums_ok w st → sums_ok w st'.
Proof.
  intros (HM & Hsym & Hnn & Hlen & Hne) Hn Hstep Hsums.
  destruct Hstep as [M M' vMap i j gi gj Hleast Hij HM' Hentry Hgi Hgj].
  unfold sums_ok in *.
  cbn [fst snd] in *. pose proof HM as [HlenM _]. rewrite HlenM in *.
  replace (S n - 1) with n in * by lia.
  assert (j < S n) as Hj by (apply lookup_lt_Some in Hgj; lia).
  assert (length (delete j vMap) = n) as Hdel.
  { rewrite length_delete by eauto. lia. }
  assert (skip j i = i) as Hski by (unfold skip; rewrite decide_True; [done|lia]).
  intros r c gr gc Hrc Hr Hc. cbn [fst snd] in *.
  assert (r < n) as Hrn by (apply lookup_lt_Some in Hr; rewrite length_insert in Hr; lia).
  assert (c < n) as Hcn by (apply lookup_lt_Some in Hc; rewrite length_insert in Hc; lia).
  rewrite Hentry by done. unfold merged_entry. rewrite decide_False by done.
  destruct (decide (r = i)) as [->|Hri].
  - rewrite list_lookup_insert_eq in Hr by lia. injection Hr as <-.
    rewrite list_lookup_insert_ne in Hc by done. rewrite lookup_delete_skip in Hc.
    rewrite decide_False by done. rewrite Hski, cross_weight_app_l.
    rewrite (Hsums i (skip j c) gi gc), (Hsums j (skip j c) gj gc); try done; [lia| |].
    + intros Heq. by apply (skip_ne j c).
    + intros Heq. rewrite <-Hski in Heq. by apply skip_inj in Heq.
  - rewrite list_lookup_insert_ne in Hr by done. rewrite lookup_delete_skip in Hr.
    destruct (decide (c = i)) as [->|Hci].
    + rewrite list_lookup_insert_eq in Hc by lia. injection Hc as <-.
      rewrite Hski, cross_weight_app_r.
      rewrite (Hsums (skip j r) i gr gi), (Hsums (skip j r) j gr gj); try done; [lia| |].
      * apply skip_ne.
      * intros Heq. rewrite <-Hski in Heq. by apply skip_inj in Heq.
    + rewrite list_lookup_insert_ne in Hc by done. rewrite lookup_delete_skip in Hc.
      rewrite (Hsums (skip j r) (skip j c) gr gc); try done; [lia|].
      intros Heq. by apply skip_inj in Heq.
Qed.

Lemma greedy_merges_sums w k n st st' :
  collapse_ok (k + n) st → 1 ≤ n → nsteps greedy_merge k st st' →
  sums_ok w st → sums_ok w st'.
Proof.
  revert st. induction k as [|k IH]; intros st Hok Hn Hsteps Hsums.
  { by inversion Hsteps; subst. }
  inversion Hsteps as [|? ? st1 ? Hstep Hrest]; subst.
  assert (1 ≤ k + n) as Hkn by lia.
  destruct (greedy_merge_ok (k + n) st st1 Hok Hkn Hstep) as [Hok1 _].
  apply (IH st1); [done|done|done|].
  by apply (greedy_merge_sums w (k + n) st st1).
Qed.

(** X9. For a vertex [v] whose neighbours are distinct (no parallel
    edges at [v]) and at least two, with its table of pair betweenness,
    the split betweenness that the greedy collapse computes is the total
    pair betweenness between the two groups it returns: twice the
    number of times a shortest path passes from a neighbour of the one
    group through [v] to a neighbour of the other.  The groups share
    out the neighbours of [v]. *)
Theorem split_betweenness_counts_crossings (G : Graph) (arr : list nat)
    (dic : pb_dict) (v : nat) (tbl : pb_table) :
  NoDup arr → pair_betweenness G arr = Ok dic → (v, tbl) ∈ dic →
  NoDup (neighbors G v) → 2 ≤ length (neighbors G v) →
  ∃ g0 g1,
    split_betweenness G (v, tbl)
    = Ok (cross_weight (λ u w, 2 * Z.of_nat (traversals G u v w))%Z g0 g1, [g0; g1])
    ∧ g0 ++ g1 ≡ₚ neighbors G v.
Proof.
  intros Hnd Hrun Hin Hnbrs Hdeg.
  destruct (pair_betweenness_table_ok G arr dic v tbl Hrun Hnd Hin) as (_ & Hok & Hval).
  pose proof Hok as (Hkeys & Hsym & Hnn).
  set (n := length (neighbors G v)) in *.
  destruct (create_clique_spec G v tbl Hkeys) as (clique & Hcl & HM & Hentry).
  fold n in HM.
  destruct (split_of_spec G v tbl Hok Hdeg)
    as (clique' & st' & Hcl' & _ & Hsteps & Hok2 & Hperm & Hsb & _).
  assert (clique' = clique) as -> by congruence.
  set (vMap := (λ ve, [ve]) <$> neighbors G v) in *.
  set (w := λ u x : nat, default 0%Z (tbl !! (u, x))).
  assert (collapse_ok ((n - 2) + 2) (clique, vMap)) as Hok0.
  { replace (n - 2 + 2) with n by lia.
    split; [done|]. split; [|split; [|split]]; cbn [fst snd].
    - intros i j. rewrite !Hentry. repeat case_decide; try done; try lia.
      by apply clique_cell_sym.
    - intros i j. rewrite Hentry. case_decide; [done|]. by apply clique_cell_nonneg.
    - unfold vMap. by rewrite length_fmap.
    - unfold vMap. apply Forall_fmap, Forall_forall. by intros. }
  assert (sums_ok w (clique, vMap)) as Hsums0.
  { intros r c gr gc Hrc Hr Hc. cbn [fst snd] in *. unfold vMap in Hr, Hc.
    rewrite list_lookup_fmap in Hr, Hc.
    destruct (neighbors G v !! r) as [u|] eqn:Hu; [|done].
    destruct (neighbors G v !! c) as [x|] eqn:Hx; [|done].
    injection Hr as <-. injection Hc as <-.
    rewrite Hentry, decide_False by done.
    rewrite (clique_cell_NoDup _ tbl r c u x) by done.
    unfold cross_weight, w. simpl. lia. }
  pose proof (greedy_merges_sums w (n - 2) 2 _ st' Hok0 ltac:(lia) Hsteps Hsums0)
    as Hsums.
  destruct st' as [M2 vMap2]. destruct Hok2 as (_ & _ & _ & Hlen & _).
  cbn [fst snd] in *.
  destruct vMap2 as [|g0 [|g1 [|? ?]]]; try done.
  exists g0, g1. split.
  - rewrite Hsb. do 2 f_equal.
    pose proof (Hsums 0 1 g0 g1 ltac:(done) eq_refl eq_refl) as H01.
    cbn [fst snd] in H01. rewrite H01.
    assert (g0 ++ g1 ≡ₚ neighbors G v) as Hperm'.
    { rewrite <-Hperm. simpl. by rewrite app_nil_r. }
    assert (NoDup (g0 ++ g1)) as Hnd01 by by rewrite Hperm'.
    apply NoDup_app in Hnd01 as (_ & Hdisj & _).
    apply cross_weight_ext. intros u x Hu Hx. unfold w.
    rewrite Hval; [done| | |].
    + rewrite <-Hperm'. apply elem_of_app. by left.
    + rewrite <-Hperm'. apply elem_of_app. by right.
    + intros ->. by apply (Hdisj x).
  - rewrite <-Hperm. simpl. by rewrite app_nil_r.
Qed.

Lemma split_betweenness_counts_crossings_witness :
  NoDup [0] ∧ NoDup (neighbors star3 0) ∧ 2 ≤ length (neighbors star3 0)
  ∧ ∃ dic tbl,
      pair_betweenness star3 [0] = Ok dic ∧ (0, tbl) ∈ dic
      ∧ ∃ g0 g1,
          split_betweenness star3 (0, tbl)
          = Ok (cross_weight (λ u w, 2 * Z.of_nat (traversals star3 u 0 w))%Z g0 g1,
                [g0; g1])
          ∧ g0 ++ g1 ≡ₚ neighbors star3 0.
Proof.
  assert (NoDup [0]) as Hnd by (apply NoDup_singleton).
  assert (NoDup (neighbors star3 0)) as Hnbrs.
  { apply (bool_decide_unpack _). vm_compute. exact I. }
  assert (2 ≤ length (neighbors star3 0)) as Hdeg by (vm_compute; lia).
  split; [exact Hnd|]. split; [exact Hnbrs|]. split; [exact Hdeg|].
  destruct (pair_betweenness star3 [0]) as [dic|e] eqn:Hrun.
  - destruct dic as [|[v tbl] dic].
    + vm_compute in Hrun. discriminate Hrun.
    + assert (v = 0) as ->.
      { vm_compute in Hrun. injection Hrun as Hv _. symmetry. exact Hv. }
      exists ((0, tbl) :: dic), tbl. split; [reflexivity|].
      assert ((0, tbl) ∈ (0, tbl) :: dic) as Hin by left.
      split; [exact Hin|].
      exact (split_betweenness_counts_crossings star3 [0] _ 0 tbl Hnd Hrun Hin
               Hnbrs Hdeg).
  - vm_compute in Hrun. discriminate Hrun.
Defined.

(** ** [mat_min] and [matrix_min] on any square matrix *)

(** [mat_min] on a square matrix of dimension at least 2, symmetric or
    not. *)
Lemma mat_min_any n (M : matrix) :
  square n M → 2 ≤ n →
  ∃ i j, mat_min M = Ok (i, j, fill_diagonal M 0%Z)
         ∧ i < n ∧ j < n ∧ i ≠ j
         ∧ (∀ i' j', i' < n → j' < n → i' ≠ j' → (entry M i j ≤ entry M i' j')%Z)
         ∧ (∀ i' j', i' < n → j' < n → i' ≠ j' → i' * n + j' < i * n + j →
              (entry M i j < entry M i' j')%Z).
Proof.
  intros HM Hn.
  destruct (mat_min_first_min n M) as (k & Hrun & (x & Hx & Hmin & Hfst) & Hk);
    [done|lia|].
  exists (k / n), (k `mod` n). split; [done|].
  set (i := k / n). set (j := k `mod` n).
  assert (k = i * n + j) as Hkij
    by (unfold i, j; rewrite Nat.mul_comm; apply Nat.div_mod; lia).
  assert (j < n) as Hj by (apply Nat.mod_upper_bound; lia).
  assert (i < n) as Hi by (apply Nat.Div0.div_lt_upper_bound; lia).
  rewrite Hkij in Hx. rewrite (masked_lookup n) in Hx by done.
  assert (i ≠ j) as Hij.
  { intros Heq. rewrite decide_True in Hx by done. injection Hx as <-.
    specialize (Hmin (0 * n + 1) (Fin (entry M 0 1))).
    rewrite (masked_lookup n) in Hmin by (done || lia).
    rewrite decide_False in Hmin by done. by specialize (Hmin eq_refl). }
  rewrite decide_False in Hx by done. injection Hx as <-.
  do 3 (split; [done|]). split.
  - intros i' j' Hi' Hj' Hne.
    specialize (Hmin (i' * n + j') (Fin (entry M i' j'))).
    rewrite (masked_lookup n) in Hmin by done.
    rewrite decide_False in Hmin by done. specialize (Hmin eq_refl).
    simpl in Hmin. apply bool_decide_eq_false in Hmin. lia.
  - intros i' j' Hi' Hj' Hne Hbefore.
    specialize (Hfst (i' * n + j') (Fin (entry M i' j'))).
    rewrite (masked_lookup n) in Hfst by done.
    rewrite decide_False in Hfst by done.
    specialize (Hfst ltac:(lia) eq_refl).
    simpl in Hfst. by apply bool_decide_eq_true in Hfst.
Qed.

(** X10. On a square matrix, symmetric or not: [mat_min] raises
    [ValueError] when the matrix is empty, returns the diagonal cell
    [(0, 0)] when it is 1 by 1, and from dimension 2 on returns a least
    cell off the diagonal, the first one in row-major order.  It leaves
    its argument with the diagonal set to 0 and the other cells as they
    were. *)
Theorem mat_min_least (n : nat) (M : matrix) :
  square n M →
  match n with
  | 0 => mat_min M = Raise ValueError
  | 1 => mat_min M = Ok (0, 0, fill_diagonal M 0%Z)
  | _ =>
      ∃ i j, mat_min M = Ok (i, j, fill_diagonal M 0%Z)
             ∧ i < n ∧ j < n ∧ i ≠ j
             ∧ (∀ i' j', i' < n → j' < n → i' ≠ j' → (entry M i j ≤ entry M i' j')%Z)
             ∧ (∀ i' j', i' < n → j' < n → i' ≠ j' → i' * n + j' < i * n + j →
                  (entry M i j < entry M i' j')%Z)
             ∧ (∀ r c, r < n → c < n →
                  entry (fill_diagonal M 0%Z) r c
                  = if decide (r = c) then 0%Z else entry M r c)
  end.
Proof.
  intros HM. destruct n as [|[|n]].
  - destruct HM as [Hlen _]. by destruct M.
  - destruct HM as [Hlen Hrows]. destruct M as [|row [|??]]; try done.
    apply Forall_cons in Hrows as [Hrow _].
    destruct row as [|x [|??]]; try done.
  - destruct (mat_min_any (S (S n)) M HM) as (i & j & Hrun & Hi & Hj & Hij & Hle & Hlt);
      [lia|].
    exists i, j. do 6 (split; [done|]). intros r c Hr Hc.
    by apply (entry_fill_diagonal (S (S n))).
Qed.

Lemma mat_min_least_witness :
  square 3 [[0; 4; 2]; [1; 0; 2]; [2; 3; 0]]%Z
  ∧ ∃ i j, mat_min [[0; 4; 2]; [1; 0; 2]; [2; 3; 0]]%Z
           = Ok (i, j, fill_diagonal [[0; 4; 2]; [1; 0; 2]; [2; 3; 0]]%Z 0%Z)
           ∧ i < 3 ∧ j < 3 ∧ i ≠ j
           ∧ (∀ i' j', i' < 3 → j' < 3 → i' ≠ j' →
                (entry [[0; 4; 2]; [1; 0; 2]; [2; 3; 0]]%Z i j
                 ≤ entry [[0; 4; 2]; [1; 0; 2]; [2; 3; 0]]%Z i' j')%Z)
           ∧ (∀ i' j', i' < 3 → j' < 3 → i' ≠ j' → i' * 3 + j' < i * 3 + j →
                (entry [[0; 4; 2]; [1; 0; 2]; [2; 3; 0]]%Z i j
                 < entry [[0; 4; 2]; [1; 0; 2]; [2; 3; 0]]%Z i' j')%Z)
           ∧ (∀ r c, r < 3 → c < 3 →
                entry (fill_diagonal [[0; 4; 2]; [1; 0; 2]; [2; 3; 0]]%Z 0%Z) r c
                = if decide (r = c) then 0%Z
                  else entry [[0; 4; 2]; [1; 0; 2]; [2; 3; 0]]%Z r c).
Proof.
  assert (square 3 [[0; 4; 2]; [1; 0; 2]; [2; 3; 0]]%Z) as HM.
  { split; [reflexivity|]. repeat constructor. }
  split; [exact HM|].
  exact (mat_min_least 3 [[0; 4; 2]; [1; 0; 2]; [2; 3; 0]]%Z HM).
Defined.

(** X11. On a square matrix, symmetric or not: [matrix_min] raises
    [ValueError] below dimension 2, where the upper triangle is empty
    (there [mat_min] answers [(0, 0)] for a 1 by 1 matrix), and from
    dimension 2 on it returns a least cell strictly above the diagonal,
    the first one in row-major order. *)
Theorem matrix_min_upper_least (n : nat) (M : matrix) :
  square n M →
  if decide (n < 2) then matrix_min M = Raise ValueError
  else
    ∃ i j, matrix_min M = Ok (i, j)
           ∧ i < j < n
           ∧ (∀ i' j', i' < j' < n → (entry M i j ≤ entry M i' j')%Z)
           ∧ (∀ i' j', i' < j' < n → i' * n + j' < i * n + j →
                (entry M i j < entry M i' j')%Z).
Proof.
  intros HM. case_decide as Hn.
  { destruct HM as [Hlen _]. destruct M as [|r1 [|r2 M]]; simpl in Hlen; try lia; done. }
  unfold matrix_min. rewrite (square_nrows n) by done.
  rewrite (upper_values n); [|done|]; last first.
  { apply Forall_forall. intros [a b] [m Hm]%list_elem_of_lookup.
    rewrite triu_indices_from in Hm. apply triu_from_lookup in Hm. simpl. lia. }
  cbn [rbind app].
  set (upper := (λ ij : nat * nat, Fin (entry M ij.1 ij.2)) <$> triu_indices n).
  destruct (triu_from_elem n 0 0 1) as [m0 Hm0]; [lia..|].
  destruct (argmin_first_min upper) as (k & -> & x & Hx & Hmin & Hfst).
  { intros Hnil. apply (f_equal (λ l, l !! m0)) in Hnil. unfold upper in Hnil.
    by rewrite list_lookup_fmap, triu_indices_from, Hm0 in Hnil. }
  cbn [rbind]. unfold upper in Hx. rewrite list_lookup_fmap, triu_indices_from in Hx.
  destruct (triu_from n 0 !! k) as [[i j]|] eqn:Hk; [|done].
  injection Hx as <-. cbn [fst snd] in *.
  destruct (matrix_min_loop_spec n n 0 k) as (m' & t' & row & Hrun & Hlook);
    [lia|lia|by apply lookup_lt_Some in Hk|].
  rewrite Nat.sub_0_r in Hrun. rewrite Hrun. cbn [rbind].
  rewrite Hk in Hlook. injection Hlook as <- <-.
  exists i, j. split; [done|].
  pose proof (triu_from_lookup n 0 k i j Hk) as Hij. split; [lia|]. split.
  - intros i' j' Hij'. destruct (triu_from_elem n 0 i' j') as [m Hm]; [lia..|].
    specialize (Hmin m (Fin (entry M i' j'))). unfold upper in Hmin.
    rewrite list_lookup_fmap, triu_indices_from, Hm in Hmin. specialize (Hmin eq_refl).
    simpl in Hmin. apply bool_decide_eq_false in Hmin. lia.
  - intros i' j' Hij' Hbefore. destruct (triu_from_elem n 0 i' j') as [m Hm]; [lia..|].
    assert (m < k) as Hmk.
    { destruct (Nat.lt_trichotomy m k) as [?|[->|Hgt]]; [done| |].
      - rewrite Hk in Hm. injection Hm as <- <-. lia.
      - pose proof (triu_from_increasing n 0 k m i j i' j' Hk Hm Hgt). lia. }
    specialize (Hfst m (Fin (entry M i' j')) Hmk). unfold upper in Hfst.
    rewrite list_lookup_fmap, triu_indices_from, Hm in Hfst. specialize (Hfst eq_refl).
    simpl in Hfst. by apply bool_decide_eq_true in Hfst.
Qed.

Lemma matrix_min_upper_least_witness :
  square 3 [[0; 4; 2]; [1; 0; 2]; [2; 3; 0]]%Z
  ∧ ∃ i j, matrix_min [[0; 4; 2]; [1; 0; 2]; [2; 3; 0]]%Z = Ok (i, j)
           ∧ i < j < 3
           ∧ (∀ i' j', i' < j' < 3 →
                (entry [[0; 4; 2]; [1; 0; 2]; [2; 3; 0]]%Z i j
                 ≤ entry [[0; 4; 2]; [1; 0; 2]; [2; 3; 0]]%Z i' j')%Z)
           ∧ (∀ i' j', i' < j' < 3 → i' * 3 + j' < i * 3 + j →
                (entry [[0; 4; 2]; [1; 0; 2]; [2; 3; 0]]%Z i j
                 < entry [[0; 4; 2]; [1; 0; 2]; [2; 3; 0]]%Z i' j')%Z).
Proof.
  assert (square 3 [[0; 4; 2]; [1; 0; 2]; [2; 3; 0]]%Z) as HM.
  { split; [reflexivity|]. repeat constructor. }
  split; [exact HM|].
  exact (matrix_min_upper_least 3 [[0; 4; 2]; [1; 0; 2]; [2; 3; 0]]%Z HM).
Defined.

(** ** Errors of the optimal split *)

Lemma index_mapping_None (nbrs : list nat) u :
  u ∉ nbrs → index_mapping nbrs !! u = None.
Proof.
  intros Hu. destruct (index_mapping nbrs !! u) as [i|] eqn:Hi; [|done].
  apply index_mapping_lookup in Hi. exfalso. apply Hu.
  by eapply list_elem_of_lookup_2.
Qed.

(** X12. [create_clique] raises [KeyError] as soon as the table holds a
    pair with a vertex that is not a neighbour of [v] (the mapping has
    no index for it), whatever the other pairs are; with neighbours
    only it returns a square matrix of the dimension of the
    neighbourhood. *)
Theorem create_clique_foreign_key (G : Graph) (v : nat) (pb : pb_table) :
  ((∀ uw, uw ∈ dom pb → uw.1 ∈ neighbors G v ∧ uw.2 ∈ neighbors G v) →
   ∃ clique, create_clique G v pb = Ok clique
             ∧ square (length (neighbors G v)) clique)
  ∧ ∀ uw, uw ∈ dom pb → ¬ (uw.1 ∈ neighbors G v ∧ uw.2 ∈ neighbors G v) →
          create_clique G v pb = Raise KeyError.
Proof.
  split.
  { intros Hkeys.
    destruct (create_clique_spec G v pb) as (clique & Hrun & HM & _); [|eauto].
    intros u w Hs. apply (Hkeys (u, w)). by apply elem_of_dom. }
  intros uw0 Hin0 Hbad0.
  unfold create_clique. cbv zeta.
  set (nbrs := neighbors G v) in *. set (n := length nbrs).
  set (good := λ uw : nat * nat, uw.1 ∈ nbrs ∧ uw.2 ∈ nbrs).
  set (f := λ (uw : nat * nat) (score : Z) (acc : result matrix),
         let* clique := acc in
         let* i := of_option KeyError (index_mapping nbrs !! uw.1) in
         let* j := of_option KeyError (index_mapping nbrs !! uw.2) in
         mat_set clique i j score).
  assert ((set_Forall good (dom pb)
           → ∃ M, map_fold f (Ok (zeros n n)) pb = Ok M ∧ square n M)
          ∧ (¬ set_Forall good (dom pb)
             → map_fold f (Ok (zeros n n)) pb = Raise KeyError)) as [_ Hgen].
  { apply (map_fold_weak_ind
             (λ r (m : pb_table),
                (set_Forall good (dom m) → ∃ M, r = Ok M ∧ square n M)
                ∧ (¬ set_Forall good (dom m) → r = Raise KeyError))).
    - split; [|intros H; exfalso; apply H; rewrite dom_empty_L; apply set_Forall_empty].
      intros _. exists (zeros n n). split; [done|apply zeros_square].
    - intros [u w] x m r Hnone [IHok IHbad].
      assert (set_Forall good (dom (<[(u, w) := x]> m))
              ↔ good (u, w) ∧ set_Forall good (dom m)) as Hiff.
      { rewrite dom_insert_L. split.
        - intros H. split; [|by eapply set_Forall_union_inv_2].
          apply set_Forall_union_inv_1 in H. by apply set_Forall_singleton in H.
        - intros [??]. apply set_Forall_union; [|done]. by apply set_Forall_singleton. }
      rewrite Hiff.
      destruct (decide (set_Forall good (dom m))) as [Hm|Hm].
      + destruct (IHok Hm) as (M & -> & HM).
        destruct (decide (good (u, w))) as [[Hu Hw]|Hbad]; cbn [fst snd] in *.
        * split; [|intros H; exfalso; apply H; by split].
          intros _.
          destruct (index_mapping_elem nbrs u Hu) as [i Hi].
          destruct (index_mapping_elem nbrs w Hw) as [j Hj].
          pose proof (lookup_lt_Some _ _ _ (index_mapping_lookup _ _ _ Hi)) as Hilt.
          pose proof (lookup_lt_Some _ _ _ (index_mapping_lookup _ _ _ Hj)) as Hjlt.
          destruct (mat_set_spec n M i j x HM Hilt Hjlt) as (M' & Hset & HM' & _).
          exists M'. split; [|done]. unfold f. simpl. rewrite Hi, Hj. simpl. done.
        * split; [intros [H _]; done|]. intros _.
          unfold f. cbn [rbind fst snd].
          destruct (decide (u ∈ nbrs)) as [Hu|Hu].
          -- destruct (index_mapping_elem nbrs u Hu) as [i ->]. cbn [rbind of_option].
             rewrite index_mapping_None; [done|]. intros Hw. apply Hbad. done.
          -- by rewrite index_mapping_None.
      + split; [intros [_ ?]; done|]. intros _. by rewrite (IHbad Hm). }
  rewrite Hgen; [done|]. intros Hall. apply Hbad0. by apply Hall.
Qed.

Lemma create_clique_foreign_key_witness :
  ((∀ uw, uw ∈ dom ({[ (1, 9) := 2%Z ]} : pb_table) →
      uw.1 ∈ neighbors star3 0 ∧ uw.2 ∈ neighbors star3 0) →
   ∃ clique, create_clique star3 0 {[ (1, 9) := 2%Z ]} = Ok clique
             ∧ square (length (neighbors star3 0)) clique)
  ∧ create_clique star3 0 {[ (1, 9) := 2%Z ]} = Raise KeyError.
Proof.
  split.
  - exact (proj1 (create_clique_foreign_key star3 0 {[ (1, 9) := 2%Z ]})).
  - apply (proj2 (create_clique_foreign_key star3 0 {[ (1, 9) := 2%Z ]}) (1, 9)).
    + apply elem_of_dom. exists 2%Z. reflexivity.
    + intros [_ H9]. apply elem_neighbors in H9 as [H9 _]. simpl in H9. lia.
Defined.

(** X13. [max_split_betweenness] binds [vNum] and [vSpl] only when
    some split betweenness exceeds the initial [vMax = 0]: when every
    vertex of the dictionary has a split betweenness that is not
    positive (in particular when the dictionary is empty), the return
    statement raises [UnboundLocalError]. *)
Theorem max_split_betweenness_unbound (G : Graph) (dic : pb_dict) :
  Forall (λ e, ∃ s g, split_betweenness G e = Ok (s, g) ∧ (s ≤ 0)%Z) dic →
  max_split_betweenness G dic = Raise UnboundLocalError.
Proof.
  intros Hall. rewrite Forall_forall in Hall.
  destruct (max_split_betweenness_spec G dic) as (st & [Hmax Hbest] & ->).
  { intros e He. destruct (Hall e He) as (s & g & Hs & _). by eexists. }
  destruct st as [m [[vNum vSpl]|]]; cbn [fst snd] in *; [|done].
  destruct Hbest as (Hpos & k & e & Hk & _ & Hsb & _).
  destruct (Hall e) as (s & g & Hs & Hle); [by eapply list_elem_of_lookup_2|].
  rewrite Hsb in Hs. injection Hs as <- <-. lia.
Qed.

(** A triangle: no shortest path passes through a vertex. *)
Definition triangle : Graph :=
  mkGraph 3 [(0, 1); (1, 2); (0, 2)] {[ CONGA_orig := [Some 0; Some 1; Some 2] ]}.

Lemma max_split_betweenness_unbound_witness :
  Forall (λ e, ∃ s g, split_betweenness triangle e = Ok (s, g) ∧ (s ≤ 0)%Z)
    [(0, {[ (1, 2) := 0%Z; (2, 1) := 0%Z ]})]
  ∧ pair_betweenness triangle [0] = Ok [(0, {[ (1, 2) := 0%Z; (2, 1) := 0%Z ]})]
  ∧ max_split_betweenness triangle [(0, {[ (1, 2) := 0%Z; (2, 1) := 0%Z ]})]
    = Raise UnboundLocalError.
Proof.
  assert (Forall (λ e, ∃ s g, split_betweenness triangle e = Ok (s, g) ∧ (s ≤ 0)%Z)
            [(0, {[ (1, 2) := 0%Z; (2, 1) := 0%Z ]})]) as Hall.
  { apply Forall_singleton. exists 0%Z, [[1]; [2]]. split; [vm_compute; reflexivity|lia]. }
  split; [exact Hall|]. split; [vm_compute; reflexivity|].
  exact (max_split_betweenness_unbound triangle _ Hall).
Defined.

(** ** [vMap[i] += vMap.pop(j)] below the diagonal *)

(** X14. Were [mat_min] to answer a cell below the diagonal ([j < i]),
    [vMap[i] += vMap.pop(j)] would go wrong: the pop moves group [i]
    down to index [i - 1], where it is extended in place, and the same
    list is then stored at index [i] as well, over the group that stood
    at [i + 1]; if [i] was the last index the store raises
    [IndexError]. *)
Theorem iadd_pop_below_diagonal (vMap : list (list nat)) (i j : nat) (gi gj : list nat) :
  j < i → vMap !! i = Some gi → vMap !! j = Some gj →
  if decide (S i < length vMap)
  then ∃ vMap', iadd_pop vMap i j = Ok vMap'
                ∧ length vMap' = length vMap - 1
                ∧ vMap' !! (i - 1) = Some (gi ++ gj)
                ∧ vMap' !! i = Some (gi ++ gj)
                ∧ (∀ k, k ≠ i → k ≠ i - 1 →
                     vMap' !! k = vMap !! (if decide (k < j) then k else S k))
  else iadd_pop vMap i j = Raise IndexError.
Proof.
  intros Hji Hgi Hgj. unfold iadd_pop. rewrite Hgi, Hgj. cbn [rbind of_option].
  rewrite (bool_decide_eq_false_2 (i < j)) by lia.
  rewrite (bool_decide_eq_true_2 (j < i)) by done.
  pose proof (lookup_lt_Some _ _ _ Hgi) as Hi.
  assert (length (delete j vMap) = length vMap - 1) as Hdel.
  { rewrite length_delete by eauto. lia. }
  rewrite length_insert, Hdel. case_decide as Hlast.
  - rewrite bool_decide_eq_true_2 by lia. eexists. split; [done|].
    split; [by rewrite !length_insert|]. split; [|split].
    + rewrite list_lookup_insert_ne by lia.
      apply list_lookup_insert_eq. lia.
    + apply list_lookup_insert_eq. rewrite length_insert. lia.
    + intros k Hk1 Hk2. rewrite !list_lookup_insert_ne by done.
      apply lookup_delete_skip.
  - by rewrite bool_decide_eq_false_2 by lia.
Qed.

Lemma iadd_pop_below_diagonal_witness :
  0 < 1 ∧ [[5]; [6]; [7]] !! 1 = Some [6] ∧ [[5]; [6]; [7]] !! 0 = Some [5]
  ∧ iadd_pop [[5]; [6]; [7]] 1 0 = Ok [[6; 5]; [6; 5]]
  ∧ iadd_pop [[5]; [6]] 1 0 = Raise IndexError.
Proof.
  split; [lia|]. split; [reflexivity|]. split; [reflexivity|]. split.
  - destruct (iadd_pop_below_diagonal [[5]; [6]; [7]] 1 0 [6] [5])
      as (vMap' & Hrun & _); [lia|reflexivity|reflexivity|].
    rewrite Hrun. vm_compute in Hrun. symmetry. exact Hrun.
  - exact (iadd_pop_below_diagonal [[5]; [6]] 1 0 [6] [5] ltac:(lia) eq_refl eq_refl).
Defined.

(** ** [delete_edge] *)




(** ** The working graph stays simple *)

(** No two edges join the same two vertices. *)
Definition no_parallel (G : Graph) : Prop := ∀ a b, adj_count G a b ≤ 1.

(** X16. A step keeps the graph simple: on a loop-free graph without
    parallel edges that still has an edge,
    [remove_edge_or_split_vertex] returns a graph that is again
    loop-free and without parallel edges, its edges between existing
    vertices and its vertices labelled with originals. *)
Theorem step_keeps_simple (G : Graph) :
  graph_ok G → no_parallel G → es G ≠ [] →
  ∃ split G',
    remove_edge_or_split_vertex G = Ok (split, G')
    ∧ graph_ok G' ∧ no_parallel G'.
Proof.
  intros Hok Hsimple Hes. pose proof Hok as (Hwf & Hlf & Hor).
  destruct (step_spec G Hwf Hlf Hes) as (k & x & edge & _ & _ & Hedge & _ & Hcase).
  assert (∃ split G', delete_edge G edge = Ok (split, G')
                      ∧ graph_ok G' ∧ no_parallel G') as Hdelete.
  { destruct (delete_edge_spec G k edge Hok Hedge) as (r & i & e' & Hdel & Hi & _).
    exists r, (without_edge G i). split; [done|].
    split; [by apply without_edge_ok|]. intros a b.
    pose proof (adj_count_delete G (without_edge G i) a b i e' Hi eq_refl).
    specialize (Hsimple a b). lia. }
  destruct Hcase as [[_ ->]|Hsplit]; [done|].
  destruct Hsplit as (pb & maxSplit & vNum & g0 & g1 & _ & _ & _ & Hin & Hg0 & Hg1
                      & Hperm & ->).
  destruct (Qltb x (inject_Z maxSplit)); [|done].
  pose proof (candidate_lt G x vNum Hin) as Hv.
  assert (∀ y, count y g0 ≤ adj_count G vNum y) as Hcount
    by (intros y; by eapply group_count).
  destruct (split_vertex_spec G vNum g0 Hok Hv Hcount)
    as (r & G' & Hrun & Hok' & _).
  destruct (split_vertex_adjacency G vNum g0 Hok Hv Hcount)
    as (r' & G'' & Hrun' & Hvc & _ & Hnew & Hold & Hother).
  rewrite Hrun in Hrun'. injection Hrun' as <- <-.
  exists r, G'. split; [done|]. split; [done|].
  assert (∀ y, adj_count G' (vcount G) y ≤ 1) as Hnew1.
  { intros y. rewrite Hnew. specialize (Hcount y). specialize (Hsimple vNum y). lia. }
  assert (∀ y, adj_count G' vNum y ≤ 1) as Hold1.
  { intros y. specialize (Hold y). specialize (Hsimple vNum y). lia. }
  intros a b.
  destruct (decide (a = vcount G)) as [->|Ha1]; [done|].
  destruct (decide (a = vNum)) as [->|Ha2]; [done|].
  destruct (decide (b = vcount G)) as [->|Hb1]; [by rewrite adj_count_sym|].
  destruct (decide (b = vNum)) as [->|Hb2]; [by rewrite adj_count_sym|].
  rewrite Hother by done. apply Hsimple.
Qed.

Lemma step_keeps_simple_witness :
  graph_ok star3 ∧ no_parallel star3 ∧ es star3 ≠ []
  ∧ ∃ split G',
      remove_edge_or_split_vertex star3 = Ok (split, G')
      ∧ graph_ok G' ∧ no_parallel G'.
Proof.
  assert (graph_ok star3) as Hok by graph_ok_by_computation.
  assert (no_parallel star3) as Hsimple.
  { intros [|[|[|[|a]]]] [|[|[|[|b]]]]; vm_compute; lia. }
  assert (es star3 ≠ []) as Hes by (simpl; discriminate).
  split; [exact Hok|]. split; [exact Hsimple|]. split; [exact Hes|].
  exact (step_keeps_simple star3 Hok Hsimple Hes).
Defined.

(** ** Counting the connected components *)

(** A vertex that no smaller vertex reaches: the least vertex of its
    component. *)
Definition root (G : Graph) (v : nat) : Prop :=
  Forall (λ u, v ∉ reachable_from G u) (seq 0 v).

#[global] Instance root_dec (G : Graph) (v : nat) : Decision (root G v).
Proof. unfold root. apply _. Defined.

Definition roots (G : Graph) : list nat := filter (root G) (seq 0 (vcount G)).

Lemma root_spec G v :
  v < vcount G → root G v ↔ ∀ u, u < v → ¬ connected G u v.
Proof.
  intros Hv. unfold root. rewrite Forall_forall. split.
  - intros H u Hu Hc. apply (H u); [apply elem_of_seq; lia|].
    apply reachable_from_spec; [lia|done].
  - intros H u Hu%elem_of_seq Hr. apply (H u); [lia|].
    apply reachable_from_spec in Hr; [done|lia].
Qed.

Lemma connected_trans G x y z : connected G x y → connected G y z → connected G x z.
Proof. apply rtc_trans. Qed.

Lemma not_root_reached G v :
  v < vcount G → ¬ root G v → ∃ u, u < v ∧ connected G u v.
Proof.
  intros Hv Hnr. unfold root in Hnr. apply not_Forall_Exists in Hnr; [|apply _].
  apply Exists_exists in Hnr as (u & Hu%elem_of_seq & Hr).
  exists u. split; [lia|]. apply dec_stable in Hr.
  apply reachable_from_spec in Hr; [done|lia].
Qed.

(** Every vertex is reached from the root of its component. *)
Lemma root_exists G x :
  x < vcount G → ∃ r, r ≤ x ∧ root G r ∧ connected G r x.
Proof.
  induction (lt_wf x) as [x _ IH]. intros Hx.
  destruct (decide (root G x)) as [Hr|Hnr].
  - exists x. split; [done|]. split; [done|]. apply rtc_refl.
  - destruct (not_root_reached G x Hx Hnr) as (u & Hu & Hc).
    destruct (IH u Hu) as (r & Hr & Hroot & Hru); [lia|].
    exists r. split; [lia|]. split; [done|]. by eapply connected_trans.
Qed.

Lemma root_unique G r1 r2 :
  r1 < vcount G → r2 < vcount G → root G r1 → root G r2 →
  connected G r1 r2 → r1 = r2.
Proof.
  intros H1 H2 Hr1 Hr2 Hc.
  destruct (Nat.lt_trichotomy r1 r2) as [Hlt|[->|Hlt]]; [|done|].
  - exfalso. by apply (proj1 (root_spec G r2 H2) Hr2 r1).
  - exfalso. apply (proj1 (root_spec G r1 H1) Hr1 r2 Hlt). by apply connected_sym.
Qed.

Lemma elem_of_roots G r : r ∈ roots G ↔ r < vcount G ∧ root G r.
Proof.
  unfold roots. rewrite list_elem_of_filter, elem_of_seq. split; intros [??]; split;
    (done || lia).
Qed.

Lemma roots_NoDup G : NoDup (roots G).
Proof. apply NoDup_filter, NoDup_seq. Qed.

(** [G.components()] lists the components of the roots. *)
Lemma components_roots G : components G = reachable_from G <$> roots G.
Proof.
  unfold components, roots.
  assert (∀ k, k ≤ vcount G →
            foldl (λ acc v, if bool_decide (Exists (λ c, v ∈ c) acc) then acc
                            else acc ++ [reachable_from G v]) [] (seq 0 k)
            = reachable_from G <$> filter (root G) (seq 0 k)) as H.
  { induction k as [|k IH]; intros Hk; [done|].
    rewrite seq_S, foldl_app, filter_app, fmap_app, IH by lia. cbn [foldl].
    rewrite filter_cons, filter_nil. simpl (0 + k).
    destruct (decide (root G k)) as [Hr|Hnr].
    - rewrite bool_decide_eq_false_2; [done|].
      intros (c & Hc & Hkc)%Exists_exists.
      apply list_elem_of_fmap in Hc as (r & -> & Hin).
      apply list_elem_of_filter in Hin as [_ Hin%elem_of_seq].
      apply reachable_from_spec in Hkc; [|lia].
      apply (proj1 (root_spec G k ltac:(lia)) Hr r); [lia|done].
    - rewrite bool_decide_eq_true_2; [by rewrite app_nil_r|].
      destruct (not_root_reached G k ltac:(lia) Hnr) as (u & Hu & Hc).
      destruct (root_exists G u ltac:(lia)) as (r & Hr & Hroot & Hru).
      apply Exists_exists. exists (reachable_from G r). split.
      + apply list_elem_of_fmap. exists r. split; [done|].
        apply list_elem_of_filter. split; [done|]. apply elem_of_seq. lia.
      + apply reachable_from_spec; [lia|]. by eapply connected_trans. }
  by apply H.
Qed.

Lemma length_components G : length (components G) = length (roots G).
Proof. by rewrite components_roots, length_fmap. Qed.

Lemma length_filter_same {A} (P Q : A → Prop)
    `{∀ x, Decision (P x)} `{∀ x, Decision (Q x)} (l : list A) :
  (∀ x, x ∈ l → P x ↔ Q x) → length (filter Q l) = length (filter P l).
Proof.
  induction l as [|y l IH]; intros Hl; [done|].
  rewrite !filter_cons.
  pose proof (Hl y ltac:(left)) as Hy.
  assert (length (filter Q l) = length (filter P l)) as Hrec.
  { apply IH. intros x Hx. apply Hl. by right. }
  destruct (decide (Q y)), (decide (P y)); cbn [length]; tauto || lia.
Qed.

(** Counting with one element more. *)
Lemma length_filter_one_more `{EqDecision A} (P Q : A → Prop)
    `{∀ x, Decision (P x)} `{∀ x, Decision (Q x)} (l : list A) (r : A) :
  NoDup l → r ∈ l → Q r → ¬ P r →
  (∀ x, x ∈ l → P x → Q x) →
  (∀ x, x ∈ l → Q x → ¬ P x → x = r) →
  length (filter Q l) = S (length (filter P l)).
Proof.
  intros Hnd. revert r. induction Hnd as [|x l Hx Hnd IH]; intros r Hr HQ HP Hsub Huniq.
  { by apply elem_of_nil in Hr. }
  rewrite !filter_cons.
  destruct (decide (x = r)) as [->|Hne].
  - rewrite decide_True by done. rewrite decide_False by done. cbn [length]. f_equal.
    apply length_filter_same. intros y Hy.
    split; [apply Hsub; by right|]. intros HQy.
    destruct (decide (P y)) as [|HnP]; [done|].
    exfalso. apply Hx. rewrite <-(Huniq y); [done|by right|done|done].
  - apply elem_of_cons in Hr as [->|Hr]; [done|].
    assert (length (filter Q l) = S (length (filter P l))) as Hrec.
    { apply (IH r); [done..| |].
      - intros z Hz. apply Hsub. by right.
      - intros z Hz. apply Huniq. by right. }
    assert (P x ↔ Q x) as HPQ.
    { split; [apply Hsub; left|]. intros HQx.
      destruct (decide (P x)) as [|HnP]; [done|].
      exfalso. apply Hne. apply Huniq; [left|done|done]. }
    destruct (decide (Q x)), (decide (P x)); cbn [length]; tauto || lia.
Qed.

Lemma length_filter_none {A} (P : A → Prop) `{∀ x, Decision (P x)} (l : list A) :
  (∀ x, x ∈ l → ¬ P x) → length (filter P l) = 0.
Proof.
  induction l as [|y l IH]; intros Hl; [done|].
  rewrite filter_cons, decide_False by (apply Hl; left).
  apply IH. intros x Hx. apply Hl. by right.
Qed.

Lemma length_roots_below G n' :
  vcount G ≤ n' →
  length (filter (λ x, x < vcount G ∧ root G x) (seq 0 n')) = length (roots G).
Proof.
  intros Hn. replace n' with (vcount G + (n' - vcount G)) by lia.
  rewrite seq_app, filter_app, length_app. unfold roots.
  rewrite (length_filter_none _ (seq (0 + vcount G) _)).
  - rewrite Nat.add_0_r. apply length_filter_same.
    intros x Hx%elem_of_seq. split; [intros H; split; [lia|done]|by intros [_ ?]].
  - intros x Hx%elem_of_seq [Hlt _]. lia.
Qed.

(** *** One change of the graph *)

(** [G'] comes from [G] by a change at the vertices [a] and [b]: an
    edge of [G'] joins vertices that [G] connects (after the new vertex
    is mapped back by [π]), and an edge of [G] is still a connection in
    [G'] unless it has to pass from [a] to [b]. *)
Section components_step.
Variables (G G' : Graph) (a b : nat) (π : nat → nat).
Hypothesis Hn : vcount G ≤ vcount G'.
Hypothesis Ha : a < vcount G.
Hypothesis Hb : b < vcount G'.
Hypothesis Hπ : ∀ x, x < vcount G → π x = x.
Hypothesis Hnew : ∀ x, vcount G ≤ x → x < vcount G' → x = b.
Hypothesis Hback : ∀ x y, y ∈ neighbors G' x → connected G (π x) (π y).
Hypothesis Hfwd : ∀ x y, y ∈ neighbors G x →
  connected G' x y ∨ (connected G' x a ∧ connected G' b y)
  ∨ (connected G' x b ∧ connected G' a y).
Hypothesis Hab : connected G a (π b).

Lemma back_path x y : connected G' x y → connected G (π x) (π y).
Proof.
  induction 1 as [|x y z Hxy _ IH]; [apply rtc_refl|].
  eapply connected_trans; [by apply Hback|done].
Qed.

Lemma fwd_path x y :
  connected G x y →
  connected G' x y ∨ (connected G' x a ∧ connected G' b y)
  ∨ (connected G' x b ∧ connected G' a y).
Proof.
  revert y. unfold connected at 1.
  apply (rtc_ind_r (λ y, connected G' x y ∨ (connected G' x a ∧ connected G' b y)
                         ∨ (connected G' x b ∧ connected G' a y))).
  { left. apply rtc_refl. }
  intros y z Hxy Hyz IH.
  destruct IH as [?|[[??]|[??]]], (Hfwd _ _ Hyz) as [?|[[??]|[??]]];
    eauto 6 using connected_trans.
Qed.

Lemma roots_keep x : x < vcount G → root G x → root G' x.
Proof.
  intros Hx Hr. apply root_spec; [lia|]. intros u Hu Hc.
  apply back_path in Hc. rewrite !Hπ in Hc by lia.
  by apply (proj1 (root_spec G x Hx) Hr u).
Qed.

Lemma components_same :
  connected G' a b → length (components G') = length (components G).
Proof.
  intros Hc. assert (connected G' b a) as Hc' by (apply connected_sym; [lia|done]).
  assert (∀ x y, connected G x y → connected G' x y) as Hall.
  { intros x y [?|[[??]|[??]]]%fwd_path; eauto using connected_trans. }
  rewrite !length_components, <-(length_roots_below G (vcount G')) by done.
  unfold roots. apply length_filter_same. intros x Hx%elem_of_seq. split.
  - intros [??]. by apply roots_keep.
  - intros Hr.
    assert (x < vcount G) as Hlt.
    { destruct (decide (x < vcount G)) as [|Hge]; [done|]. exfalso.
      assert (x = b) as -> by (apply Hnew; lia).
      apply (proj1 (root_spec G' b Hb) Hr a); [lia|done]. }
    split; [done|]. apply root_spec; [done|]. intros u Hu Hux.
    apply (proj1 (root_spec G' x ltac:(lia)) Hr u Hu). by apply Hall.
Qed.

Lemma new_root r p q :
  (p = a ∧ q = b) ∨ (p = b ∧ q = a) →
  r < vcount G → root G r → connected G r a →
  connected G' r p → ¬ connected G' p q →
  ∃ r', r' < vcount G' ∧ root G' r' ∧ ¬ (r' < vcount G ∧ root G r')
        ∧ ∀ x, x < vcount G' → root G' x → ¬ (x < vcount G ∧ root G x) → x = r'.
Proof.
  intros Hpq Hr Hroot Hra Hrp Hnpq.
  assert (p < vcount G' ∧ q < vcount G') as [Hp Hq] by (destruct Hpq as [[-> ->]|[-> ->]]; lia).
  assert (connected G r (π q)) as Hrq.
  { destruct Hpq as [[-> ->]|[-> ->]]; [by eapply connected_trans|by rewrite Hπ]. }
  pose proof (roots_keep r Hr Hroot) as Hroot'.
  destruct (root_exists G' q Hq) as (r' & Hle & Hr' & Hr'q).
  assert (r' < vcount G') as Hr'lt by lia.
  exists r'. split; [done|]. split; [done|]. split.
  - intros [Hlt HrG]. apply Hnpq.
    assert (r = r') as <-.
    { apply (root_unique G); [done..|].
      eapply connected_trans; [exact Hrq|].
      apply connected_sym; [done|]. apply back_path in Hr'q. by rewrite Hπ in Hr'q. }
    eapply connected_trans; [|exact Hr'q]. apply connected_sym; [lia|done].
  - intros x Hx Hxr Hnot.
    assert (connected G' p x ∨ connected G' q x) as [Hpx|Hqx].
    { destruct (decide (x < vcount G)) as [Hlt|Hge].
      - assert (¬ root G x) as Hnr by tauto.
        destruct (not_root_reached G x Hlt Hnr) as (u & Hu & Hux).
        destruct (fwd_path _ _ Hux) as [Hc|[[_ Hc]|[_ Hc]]].
        + exfalso. by apply (proj1 (root_spec G' x Hx) Hxr u).
        + destruct Hpq as [[-> ->]|[-> ->]]; [by right|by left].
        + destruct Hpq as [[-> ->]|[-> ->]]; [by left|by right].
      - assert (x = b) as -> by (apply Hnew; lia).
        destruct Hpq as [[-> ->]|[-> ->]]; [right|left]; apply rtc_refl. }
    + exfalso. assert (r = x) as <-.
      { apply (root_unique G'); [lia|done..|]. by eapply connected_trans. }
      tauto.
    + symmetry. apply (root_unique G'); [done..|]. by eapply connected_trans.
Qed.

Lemma components_one_more :
  ¬ connected G' a b → length (components G') = S (length (components G)).
Proof.
  intros Hnc.
  assert (¬ connected G' b a) as Hnc'.
  { intros Hc. apply Hnc. apply connected_sym; [done|done]. }
  destruct (root_exists G a Ha) as (r & Hle & Hroot & Hra).
  assert (∃ r', r' < vcount G' ∧ root G' r' ∧ ¬ (r' < vcount G ∧ root G r')
        ∧ ∀ x, x < vcount G' → root G' x → ¬ (x < vcount G ∧ root G x) → x = r')
    as (r' & Hlt & Hr' & Hnot & Huniq).
  { destruct (fwd_path _ _ Hra) as [Hc|[[Hc _]|[Hc _]]].
    - apply (new_root r a b); auto; lia.
    - apply (new_root r a b); auto; lia.
    - apply (new_root r b a); auto; lia. }
  rewrite !length_components, <-(length_roots_below G (vcount G')) by done.
  unfold roots. apply (length_filter_one_more _ _ _ r').
  - apply NoDup_seq.
  - apply elem_of_seq. lia.
  - done.
  - done.
  - intros x _ [??]. by apply roots_keep.
  - intros x Hx%elem_of_seq. apply Huniq. lia.
Qed.
End components_step.

(** *** The two changes of a step *)

Lemma adjacent_connected G x y :
  y < vcount G → 0 < adj_count G x y → connected G x y.
Proof. intros Hy Hc. apply rtc_once. by apply elem_neighbors. Qed.

(** Deleting an edge adds one component exactly when its ends are no
    longer connected. *)
Lemma without_edge_components G i e :
  wf_graph G → es G !! i = Some e →
  (connected (without_edge G i) e.1 e.2 →
   length (components (without_edge G i)) = length (components G))
  ∧ (¬ connected (without_edge G i) e.1 e.2 →
     length (components (without_edge G i)) = S (length (components G))).
Proof.
  intros Hwf Hi.
  pose proof (proj1 (Forall_forall _ _) Hwf e (list_elem_of_lookup_2 _ _ _ Hi))
    as [H1 H2]. cbn beta in *.
  assert (∀ x y, adj_count G x y
                 = adj_count (without_edge G i) x y + adj_term x y e) as Hadj.
  { intros x y. by apply (adj_count_delete G (without_edge G i) x y i e). }
  assert (∀ x y, y ∈ neighbors (without_edge G i) x → connected G x y) as Hback.
  { intros x y [Hy Hc]%elem_neighbors. apply adjacent_connected; [done|].
    specialize (Hadj x y). lia. }
  assert (∀ x y, y ∈ neighbors G x →
            connected (without_edge G i) x y
            ∨ (connected (without_edge G i) x e.1 ∧ connected (without_edge G i) e.2 y)
            ∨ (connected (without_edge G i) x e.2 ∧ connected (without_edge G i) e.1 y))
    as Hfwd.
  { intros x y [Hy Hc]%elem_neighbors.
    destruct (decide (0 < adj_count (without_edge G i) x y)) as [Hpos|Hzero].
    { left. by apply adjacent_connected. }
    specialize (Hadj x y). unfold adj_term in Hadj.
    repeat case_bool_decide; try lia.
    - right. left. destruct H as [<- <-]. split; apply rtc_refl.
    - right. left. destruct H as [<- <-]. split; apply rtc_refl.
    - right. right. destruct H0 as [<- <-]. split; apply rtc_refl. }
  assert (connected G e.1 e.2) as Hab.
  { apply adjacent_connected; [done|]. apply adj_count_joins. exists e.
    split; [by eapply list_elem_of_lookup_2|]. apply joins_spec. by left. }
  split; intros Hc.
  - apply (components_same G (without_edge G i) e.1 e.2 id); try done.
    cbn [without_edge vcount]. lia.
  - apply (components_one_more G (without_edge G i) e.1 e.2 id); try done.
    cbn [without_edge vcount]. lia.
Qed.

(** Splitting a vertex adds one component exactly when the vertex and
    its twin are not connected. *)
Lemma split_vertex_components G v grp r G' :
  graph_ok G → v < vcount G →
  (∀ y, count y grp ≤ adj_count G v y) →
  split_vertex G v grp = Ok (r, G') →
  graph_ok G'
  ∧ length (components G') = length (components G) + (if r then 1 else 0).
Proof.
  intros Hok Hv Hcount Hrun. pose proof Hok as (Hwf & Hlf & _).
  destruct (split_vertex_spec G v grp Hok Hv Hcount)
    as (r1 & G1 & Hrun1 & Hok' & _ & _ & _ & Hsplit).
  destruct (split_vertex_adjacency G v grp Hok Hv Hcount)
    as (r2 & G2 & Hrun2 & Hvc & _ & Hnew & Hold & Hother).
  rewrite Hrun in Hrun1, Hrun2. injection Hrun1 as <- <-. injection Hrun2 as <- <-.
  split; [done|]. pose proof Hok' as (Hwf' & Hlf' & _).
  set (w := vcount G) in *.
  set (π := λ x, if decide (x = w) then v else x).
  assert (∀ x, x < w → π x = x) as Hπ.
  { intros x Hx. unfold π. rewrite decide_False; [done|lia]. }
  assert (π w = v) as Hπw by (unfold π; by rewrite decide_True).
  assert (adj_count G v v = 0) as Hvv by by apply adj_count_loop_free.
  assert (∀ y, 0 < adj_count G v y → y < w ∧ y ≠ v) as Hnb.
  { intros y Hy. split; [by apply (adj_count_lt G v y)|]. intros ->. lia. }
  assert (∀ x y, 0 < adj_count G' x y → 0 < adj_count G (π x) (π y)) as Hpre.
  { assert (∀ y, 0 < adj_count G' w y → 0 < adj_count G v (π y)) as Hw.
    { intros y Hy. rewrite Hnew in Hy. specialize (Hcount y).
      assert (0 < adj_count G v y) as Hpos by lia.
      rewrite Hπ; [done|]. by apply Hnb. }
    assert (∀ y, 0 < adj_count G' v y → 0 < adj_count G v (π y)) as Hv'.
    { intros y Hy. specialize (Hold y).
      assert (0 < adj_count G v y) as Hpos by lia.
      rewrite Hπ; [done|]. by apply Hnb. }
    intros x y Hxy.
    destruct (decide (x = w)) as [->|Hxw]; [rewrite Hπw; by apply Hw|].
    destruct (decide (x = v)) as [->|Hxv]; [rewrite Hπ by done; by apply Hv'|].
    destruct (decide (y = w)) as [->|Hyw].
    { rewrite Hπw, adj_count_sym. rewrite adj_count_sym in Hxy. by apply Hw. }
    destruct (decide (y = v)) as [->|Hyv].
    { rewrite (Hπ v) by done. rewrite adj_count_sym. rewrite adj_count_sym in Hxy.
      by apply Hv'. }
    rewrite Hother in Hxy by done. unfold π. by rewrite !decide_False by done. }
  assert (∀ x y, y ∈ neighbors G' x → connected G (π x) (π y)) as Hback.
  { intros x y [Hy Hc]%elem_neighbors. apply Hpre in Hc.
    apply adjacent_connected; [|done]. by apply (adj_count_lt G (π x) (π y)). }
  assert (∀ x y, y ∈ neighbors G x →
            connected G' x y ∨ (connected G' x v ∧ connected G' w y)
            ∨ (connected G' x w ∧ connected G' v y)) as Hfwd.
  { intros x y [Hy Hc]%elem_neighbors.
    destruct (adj_count_lt G x y Hwf Hc) as [Hx _]. fold w in Hx, Hy.
    destruct (decide (x = v)) as [->|Hxv].
    { specialize (Hold y). specialize (Hnew y).
      destruct (decide (0 < adj_count G' v y)) as [Hpos|Hzero].
      - left. apply adjacent_connected; [lia|done].
      - right. left. split; [apply rtc_refl|]. apply adjacent_connected; lia. }
    destruct (decide (y = v)) as [->|Hyv].
    { specialize (Hold x). specialize (Hnew x). rewrite adj_count_sym in Hc.
      destruct (decide (0 < adj_count G' v x)) as [Hpos|Hzero].
      - left. apply adjacent_connected; [lia|]. by rewrite adj_count_sym.
      - right. right. split; [|apply rtc_refl].
        apply adjacent_connected; [lia|]. rewrite adj_count_sym. lia. }
    left. apply adjacent_connected; [lia|]. rewrite Hother; [done|done|lia|done|lia]. }
  assert (connected G v (π w)) as Hab by (rewrite Hπw; apply rtc_refl).
  assert (∀ x, w ≤ x → x < vcount G' → x = w) as Hone by (intros x; lia).
  destruct r.
  - rewrite (components_one_more G G' v w π); [lia|try done; try lia..].
    by apply Hsplit.
  - rewrite (components_same G G' v w π); [lia|try done; try lia..].
    destruct (decide (w ∈ reachable_from G' v)) as [Hin|Hnin].
    + apply reachable_from_spec in Hin; [done|lia].
    + assert (false = true) as Habs; [|done]. apply Hsplit. intros Hc.
      apply Hnin. apply reachable_from_spec; [lia|done].
Qed.

(** ** The keys of the history count the clusters *)

(** The membership list names every component, and nothing else. *)
Lemma elem_of_membership G c :
  c ∈ membership G ↔ c < length (components G).
Proof.
  unfold membership. rewrite list_elem_of_fmap. split.
  - intros (v & -> & Hv%elem_of_seq).
    destruct (root_exists G v) as (r & Hle & Hroot & Hrv); [lia|].
    destruct (list_find_elem_of (λ c, v ∈ c) (components G) (reachable_from G r))
      as [[i x] Hfind].
    { rewrite components_roots. apply list_elem_of_fmap. exists r. split; [done|].
      apply elem_of_roots. split; [lia|done]. }
    { apply reachable_from_spec; [lia|done]. }
    rewrite Hfind. cbn. apply list_find_Some in Hfind as (Hi & _).
    by apply lookup_lt_Some in Hi.
  - intros Hc. rewrite length_components in Hc.
    destruct (lookup_lt_is_Some_2 (roots G) c Hc) as [r Hr].
    pose proof (list_elem_of_lookup_2 _ _ _ Hr) as [Hlt Hroot]%elem_of_roots.
    exists r. split; [|apply elem_of_seq; lia].
    destruct (list_find_elem_of (λ c, r ∈ c) (components G) (reachable_from G r))
      as [[j x] Hfind].
    { rewrite components_roots. apply list_elem_of_fmap. exists r. split; [done|].
      by eapply list_elem_of_lookup_2. }
    { apply reachable_from_spec; [done|apply rtc_refl]. }
    rewrite Hfind. cbn. apply list_find_Some in Hfind as (Hj & Hin & _).
    rewrite components_roots, list_lookup_fmap in Hj.
    destruct (roots G !! j) as [rj|] eqn:Hrj; [|done]. injection Hj as <-.
    pose proof (list_elem_of_lookup_2 _ _ _ Hrj) as [Hltj Hrootj]%elem_of_roots.
    apply reachable_from_spec in Hin; [|done].
    assert (rj = r) as -> by by apply (root_unique G).
    by apply (NoDup_lookup (roots G) c j r (roots_NoDup G)).
Qed.

Lemma length_first_occurrences_membership G :
  length (first_occurrences (membership G)) = length (components G).
Proof.
  destruct (first_occurrences_fold [] (membership G)) as [Hnd Hel]; [constructor|].
  fold (first_occurrences (membership G)) in Hnd, Hel.
  transitivity (length (seq 0 (length (components G)))); [|by rewrite length_seq].
  apply Permutation_length.
  apply NoDup_Permutation; [done|apply NoDup_seq|].
  intros c. rewrite Hel, elem_of_nil, elem_of_membership, elem_of_seq. lia.
Qed.

(** The components depend on the vertices and the edges only. *)
Lemma components_attrs G G' :
  vcount G' = vcount G → es G' = es G →
  length (components G') = length (components G).
Proof.
  intros Hvc Hes.
  assert (∀ x, neighbors G' x = neighbors G x) as Hnb.
  { intros x. unfold neighbors, adj_count. by rewrite Hvc, Hes. }
  assert (∀ x y, connected G' x y ↔ connected G x y) as Hconn.
  { intros x y. split.
    - induction 1 as [|x y z Hxy _ IH]; [apply rtc_refl|].
      eapply rtc_l; [|exact IH]. cbn beta. by rewrite <-Hnb.
    - induction 1 as [|x y z Hxy _ IH]; [apply rtc_refl|].
      eapply rtc_l; [|exact IH]. cbn beta. by rewrite Hnb. }
  rewrite !length_components. unfold roots. rewrite Hvc.
  apply length_filter_same. intros x Hx%elem_of_seq.
  rewrite !root_spec by lia. split; intros H u Hu Hc; apply (H u Hu); by apply Hconn.
Qed.

(** A step adds one component exactly when it reports a split. *)
Lemma step_components G r G' :
  graph_ok G → es G ≠ [] →
  remove_edge_or_split_vertex G = Ok (r, G') →
  graph_ok G'
  ∧ length (components G') = length (components G) + (if r then 1 else 0).
Proof.
  intros Hok Hes Hrun. pose proof Hok as (Hwf & Hlf & Hor).
  destruct (step_spec G Hwf Hlf Hes) as (k & x & edge & _ & _ & Hedge & _ & Hcase).
  assert (∀ r G', delete_edge G edge = Ok (r, G') →
            graph_ok G'
            ∧ length (components G') = length (components G) + (if r then 1 else 0))
    as Hdelete.
  { intros r1 G1 Hrun1.
    destruct (delete_edge_spec G k edge Hok Hedge) as (r2 & i & e' & Hdel & Hi & Hj & Hr).
    rewrite Hrun1 in Hdel. injection Hdel as -> ->.
    split; [by apply without_edge_ok|].
    destruct (without_edge_components G i e' Hwf Hi) as [Hsame Hmore].
    pose proof (without_edge_wf G i Hwf) as Hwf1.
    pose proof (proj1 (Forall_forall _ _) Hwf e' (list_elem_of_lookup_2 _ _ _ Hi))
      as [H1 H2]. cbn beta in *.
    pose proof (proj1 (Forall_forall _ _) Hwf edge (list_elem_of_lookup_2 _ _ _ Hedge))
      as [H3 H4]. cbn beta in *.
    assert (connected (without_edge G i) edge.1 edge.2
            ↔ connected (without_edge G i) e'.1 e'.2) as Hiff.
    { apply joins_spec in Hj as [[<- <-]|[<- <-]]; [done|].
      split; intros Hc; by apply connected_sym. }
    destruct (decide (edge.2 ∈ reachable_from (without_edge G i) edge.1)) as [Hin|Hnin].
    - assert (connected (without_edge G i) edge.1 edge.2) as Hc.
      { by apply reachable_from_spec in Hin. }
      rewrite Hsame by by apply Hiff.
      destruct r2; [|lia]. exfalso. by apply Hr.
    - assert (¬ connected (without_edge G i) edge.1 edge.2) as Hnc.
      { intros Hc. apply Hnin. by apply reachable_from_spec. }
      rewrite Hmore by (by rewrite <-Hiff).
      apply Hr in Hnc as ->. lia. }
  destruct Hcase as [[_ Heq]|Hsplit]; [rewrite Heq in Hrun; by apply Hdelete|].
  destruct Hsplit as (pb & maxSplit & vNum & g0 & g1 & _ & _ & _ & Hin & Hg0 & Hg1
                      & Hperm & Heq).
  rewrite Heq in Hrun.
  destruct (Qltb x (inject_Z maxSplit)); [|by apply Hdelete].
  apply (split_vertex_components G vNum g0); [done| | |done].
  - by eapply candidate_lt.
  - intros y. by eapply group_count.
Qed.

(** X17. In the history of a run of [conga] on a loop-free graph, every
    snapshot recorded by the loop has exactly as many clusters as its
    key says: the key of a snapshot other than the initial one is its
    number of clusters (the counter [nClusters] follows the number of
    connected components of the working graph). *)
Theorem conga_keys_count_clusters {modularity_value : Type}
    (modularity : Graph → list nat → modularity_value)
    (fuel : nat) (OG : loc) (calculate_modularities : option string)
    (optimal_count : option nat) (σ σ' : store) (og : Graph)
    (r : CrispOverlap (modularity_value := modularity_value)) (iters : nat) :
  σ !! OG = Some og → wf_graph og → loop_free og →
  conga_run modularity fuel OG calculate_modularities optimal_count σ
  = (Ok (r, iters), σ') →
  ∀ k cover, co_covers r !! k = Some cover →
    k ≠ length (components og) → length cover = k.
Proof.
  intros HOG Hwf Hlf (og' & g & h0 & h' & HOG' & Hg & Hn0 & Hc0 & Hloop & ->)%conga_run_inv.
  assert (og' = og) as -> by congruence.
  set (n0 := length (components og)) in *.
  set (P := λ (g : Graph) (h : history (modularity_value := modularity_value)) (_ : nat),
              graph_ok g ∧ nClusters h = length (components g)
              ∧ ∀ k cover, allCovers h !! k = Some cover → k ≠ n0 → length cover = k).
  destruct (conga_loop_invariant modularity P calculate_modularities (fresh (dom σ)))
    with (fuel := fuel) (h := h0) (iters := 0) (g := g) (h' := h') (n := iters)
         (σ := <[fresh (dom σ) := g]> (<[fresh (dom σ) := og]> σ)) (σ' := σ')
    as (g' & _ & _ & _ & _ & Hcovers).
  - intros g1 h n g2 (Hok & Hn & Hk) Hes Hstep.
    destruct (step_components g1 false g2 Hok Hes Hstep) as [Hok2 Hlen].
    split; [done|]. split; [lia|done].
  - intros g1 h n g2 h2 (Hok & Hn & Hk) Hes Hstep
      (cover & Hcover & Hn2 & Hc2)%record_split_inv.
    destruct (step_components g1 true g2 Hok Hes Hstep) as [Hok2 Hlen].
    split; [done|]. split; [lia|]. intros k cover'. rewrite Hc2.
    destruct (decide (k = S (nClusters h))) as [->|Hne].
    + rewrite lookup_insert_eq. intros [= <-] _.
      destruct Hok2 as (_ & _ & col & Hcol & Hlencol & Hall).
      assert (∃ origs : list nat, col = Some <$> origs) as [origs ->].
      { clear -Hall. induction Hall as [|o col [x ->] _ [origs ->]].
        - by exists [].
        - by exists (x :: origs). }
      rewrite length_fmap in Hlencol.
      rewrite (get_cover_value g2 (membership g2) origs Hcol) in Hcover
        by (rewrite length_membership; lia).
      injection Hcover as <-.
      rewrite length_fmap, length_first_occurrences_membership. lia.
    + rewrite lookup_insert_ne by done. apply Hk.
  - apply lookup_insert_eq.
  - split; [|split].
    + rewrite Hg. split; [done|]. split; [done|].
      exists (Some <$> seq 0 (vcount og)). cbn [vattrs vcount].
      rewrite lookup_insert_eq, length_fmap, length_seq. split; [done|]. split; [done|].
      apply Forall_fmap, Forall_true. intros x. by eexists.
    + rewrite Hn0, Hg. unfold n0. symmetry. by apply components_attrs.
    + intros k cover. rewrite Hc0. intros [<- <-]%lookup_singleton_Some. done.
  - done.
  - cbn [co_covers]. exact Hcovers.
Qed.

Lemma conga_keys_count_clusters_witness :
  ({[ 0 := star3 ]} : store) !! 0 = Some star3 ∧ wf_graph star3 ∧ loop_free star3
  ∧ ∃ r iters σ',
      conga_run (λ _ _, tt) 5 0 None None {[ 0 := star3 ]} = (Ok (r, iters), σ')
      ∧ ∀ k cover, co_covers r !! k = Some cover →
          k ≠ length (components star3) → length cover = k.
Proof.
  assert (wf_graph star3) as Hwf by (repeat constructor; simpl; lia).
  assert (loop_free star3) as Hlf by (repeat constructor; simpl; lia).
  assert (({[ 0 := star3 ]} : store) !! 0 = Some star3) as Hin by reflexivity.
  split; [exact Hin|]. split; [exact Hwf|]. split; [exact Hlf|].
  destruct (conga_run (λ _ _, tt) 5 0 None None {[ 0 := star3 ]})
    as [[[r iters]|e] σ'] eqn:Hrun.
  - exists r, iters, σ'. split; [reflexivity|].
    exact (conga_keys_count_clusters (λ _ _, tt) 5 0 None None {[ 0 := star3 ]} σ'
             star3 r iters Hin Hwf Hlf Hrun).
  - vm_compute in Hrun. discriminate Hrun.
Defined.

(** X18. The flag that [remove_edge_or_split_vertex] returns tells
    whether the graph fell apart: on a loop-free graph that still has
    an edge, the call returns, and it returns [True] exactly when the
    graph has one connected component more than before, [False] exactly
    when it has as many as before; it never merges components and
    never adds more than one. *)
Theorem step_flag_counts_components (G : Graph) :
  graph_ok G → es G ≠ [] →
  ∃ split G',
    remove_edge_or_split_vertex G = Ok (split, G')
    ∧ (split = true ↔ length (components G') = S (length (components G)))
    ∧ (split = false ↔ length (components G') = length (components G)).
Proof.
  intros Hok Hes. pose proof Hok as (Hwf & Hlf & _).
  destruct (step_progress G Hok Hes) as (r & G' & Hrun & _).
  exists r, G'. split; [done|].
  destruct (step_components G r G' Hok Hes Hrun) as [_ Hlen].
  destruct r; split; split; intros H; try done; lia.
Qed.

Lemma step_flag_counts_components_witness :
  graph_ok star3 ∧ es star3 ≠ []
  ∧ ∃ split G',
      remove_edge_or_split_vertex star3 = Ok (split, G')
      ∧ (split = true ↔ length (components G') = S (length (components star3)))
      ∧ (split = false ↔ length (components G') = length (components star3)).
Proof.
  assert (graph_ok star3) as Hok by graph_ok_by_computation.
  assert (es star3 ≠ []) as Hes by (simpl; discriminate).
  split; [exact Hok|]. split; [exact Hes|].
  exact (step_flag_counts_components star3 Hok Hes).
Defined.
